(** * Brewin v4 interpreter (interpreterv4.py): evaluation engine

    A shallow embedding of the tagged value model, the environment, the
    function and interface tables and the evaluator of interpreterv4.py,
    followed by the properties of the engine.

    Python objects with identity are kept in stores inside the interpreter
    state: [cells] holds the [Value] wrappers, [objs] the field dictionaries
    of Brewin objects, [fobjs] the [Function] / [Lambda] objects.  A store
    index plays the role of the Python reference.  Python dictionaries are
    insertion-ordered association lists with unique keys. *)

From Stdlib Require Import ZArith String Ascii List Bool Lia DecimalString
  DecimalPos.
From stdpp Require Import base list strings.
Import ListNotations.

Local Open Scope Z_scope.
Local Open Scope string_scope.
Local Open Scope list_scope.

(** ** Results of running host code *)

(** The three kinds of [ErrorType] passed to [InterpreterBase.error]. *)
Inductive ErrorType := NAME_ERROR | TYPE_ERROR | FAULT_ERROR.

(** [Ok a]: the call returned [a].  [Err e]: the call ended in
    [super().error(e, ...)], which raises and ends the run.  [HostExn]: an
    uncaught Python exception that does not come from [error] (KeyError,
    AttributeError, a Python TypeError, ZeroDivisionError, ...).
    [OutOfFuel]: the fuel of the model ran out. *)
Inductive Res (A : Type) : Type :=
  | Ok (a : A)
  | Err (e : ErrorType)
  | HostExn
  | OutOfFuel.
Arguments Ok {A} a.
Arguments Err {A} e.
Arguments HostExn {A}.
Arguments OutOfFuel {A}.

Definition rbind {A B} (r : Res A) (k : A -> Res B) : Res B :=
  match r with
  | Ok a => k a
  | Err e => Err e
  | HostExn => HostExn
  | OutOfFuel => OutOfFuel
  end.

Definition of_option {A} (o : option A) : Res A :=
  match o with Some a => Ok a | None => HostExn end.

(** ** Python dictionaries *)

Module Dict.
Section Dict.
Context {K : Type} `{EqDecision K} {V : Type}.

Definition dict := list (K * V).

(** [d.get(k)], [None] when the key is absent. *)
Fixpoint get (k : K) (d : dict) : option V :=
  match d with
  | [] => None
  | (k', x) :: r => if decide (k = k') then Some x else get k r
  end.

(** [k in d] *)
Definition mem (k : K) (d : dict) : bool :=
  match get k d with Some _ => true | None => false end.

(** [d[k] = x]: an existing key keeps its position. *)
Fixpoint set (k : K) (x : V) (d : dict) : dict :=
  match d with
  | [] => [(k, x)]
  | (k', y) :: r =>
      if decide (k = k') then (k', x) :: r else (k', y) :: set k x r
  end.

Definition keys (d : dict) : list K := map fst d.
End Dict.
Arguments dict : clear implicits.
Arguments dict K V : assert.
End Dict.

Abbreviation dict := (Dict.dict string).

(** ** Strings: the Python string operations the interpreter uses *)

(** [s[-1]]; [None] stands for the IndexError on an empty string. *)
Fixpoint last_char (s : string) : option ascii :=
  match s with
  | EmptyString => None
  | String c EmptyString => Some c
  | String _ r => last_char r
  end.

(** [c.isupper()] for a one-character string.  Identifiers are ASCII. *)
Definition isupper (c : ascii) : bool :=
  let n := nat_of_ascii c in (65 <=? n)%nat && (n <=? 90)%nat.

Definition ascii_eqb (a b : ascii) : bool := Ascii.eqb a b.

(** [name.split(".")] *)
Fixpoint split_dot_aux (s : string) (cur : string) : list string :=
  match s with
  | EmptyString => [cur]
  | String c r =>
      if ascii_eqb c "."%char then cur :: split_dot_aux r EmptyString
      else split_dot_aux r (cur ++ String c EmptyString)
  end.

Definition split_dot (s : string) : list string := split_dot_aux s EmptyString.

(** ["." in name] *)
Fixpoint has_dot (s : string) : bool :=
  match s with
  | EmptyString => false
  | String c r => ascii_eqb c "."%char || has_dot r
  end.

(** [sub in s] on two Python strings: substring test. *)
Fixpoint is_prefix (p s : string) : bool :=
  match p, s with
  | EmptyString, _ => true
  | String a p', String b s' => ascii_eqb a b && is_prefix p' s'
  | String _ _, EmptyString => false
  end.

Fixpoint is_substring (p s : string) : bool :=
  is_prefix p s ||
  match s with
  | EmptyString => false
  | String _ s' => is_substring p s'
  end.

(** [str(n)] for a Python int. *)
Definition str_of_int (z : Z) : string := NilZero.string_of_int (Z.to_int z).

(** [int(s)] for a Python string: optional surrounding whitespace, an
    optional sign, decimal digits, single underscores between digits.
    [None] stands for ValueError. *)
Definition is_space (c : ascii) : bool :=
  let n := nat_of_ascii c in
  (n =? 32)%nat || ((9 <=? n)%nat && (n <=? 13)%nat) ||
  ((28 <=? n)%nat && (n <=? 31)%nat).

Fixpoint lstrip (s : string) : string :=
  match s with
  | String c r => if is_space c then lstrip r else s
  | EmptyString => EmptyString
  end.

Fixpoint rstrip (s : string) : string :=
  match s with
  | EmptyString => EmptyString
  | String c r =>
      match rstrip r with
      | EmptyString => if is_space c then EmptyString else String c EmptyString
      | r' => String c r'
      end
  end.

Definition digit_of (c : ascii) : option Z :=
  let n := nat_of_ascii c in
  if (48 <=? n)%nat && (n <=? 57)%nat then Some (Z.of_nat n - 48) else None.

(** [after_digit]: the previous character was a digit, so an underscore
    may follow; the text may end only after a digit. *)
Fixpoint parse_digits (s : string) (acc : Z) (after_digit : bool) : option Z :=
  match s with
  | EmptyString => if after_digit then Some acc else None
  | String c r =>
      match digit_of c with
      | Some d => parse_digits r (10 * acc + d) true
      | None =>
          if ascii_eqb c "_"%char && after_digit then parse_digits r acc false
          else None
      end
  end.

Definition int_of_str (s : string) : option Z :=
  match rstrip (lstrip s) with
  | String c r =>
      if ascii_eqb c "-"%char then option_map Z.opp (parse_digits r 0 false)
      else if ascii_eqb c "+"%char then parse_digits r 0 false
      else parse_digits (String c r) 0 false
  | EmptyString => None
  end.

(** ** Types and values *)

(** [class Type(enum.Enum)] *)
Inductive BType := INT | STRING | BOOL | OBJECT | VOID | FUNCTION | ERROR.

#[global] Instance BType_eq_dec : EqDecision BType.
Proof. solve_decision. Defined.

(** [Type.get_type(var_name)] *)
Definition get_type (var_name : string) : BType :=
  match last_char var_name with
  | None => ERROR
  | Some last_letter =>
      if ascii_eqb last_letter "i" then INT
      else if ascii_eqb last_letter "s" then STRING
      else if ascii_eqb last_letter "b" then BOOL
      else if ascii_eqb last_letter "o" then OBJECT
      else if ascii_eqb last_letter "v" then VOID
      else if ascii_eqb last_letter "f" then FUNCTION
      else if isupper last_letter then OBJECT
      else ERROR
  end.

(** References into the three stores. *)
Abbreviation loc := nat.   (* a [Value] wrapper *)
Abbreviation oloc := nat.  (* the field dictionary of an object *)
Abbreviation floc := nat.  (* a [Function] or [Lambda] object *)

(** What the attribute [v] of a [Value] can hold. *)
Inductive Payload :=
  | PNone
  | PInt (z : Z)
  | PStr (s : string)
  | PBool (b : bool)
  | PObj (o : oloc)
  | PFun (f : floc).

#[global] Instance Payload_eq_dec : EqDecision Payload.
Proof. solve_decision. Defined.

(** [class Value]: the attributes [t] and [v]. *)
Record Value := mkValue { t : BType; v : Payload }.

#[global] Instance Value_eq_dec : EqDecision Value.
Proof. solve_decision. Defined.

Definition is_None (p : Payload) : bool :=
  match p with PNone => true | _ => false end.

(** [Value.__default_value_for_type]; [None] is the raised Exception. *)
Definition default_value_for_type (ty : BType) : option Payload :=
  match ty with
  | INT => Some (PInt 0)
  | STRING => Some (PStr "")
  | BOOL => Some (PBool false)
  | OBJECT => Some PNone
  | FUNCTION => Some PNone
  | VOID => Some PNone
  | ERROR => None
  end.

(** [Value.__init__(t, v)]: the attributes of the new wrapper. *)
Definition Value_init (ty : BType) (p : Payload) : option Value :=
  if is_None p then
    match default_value_for_type ty with
    | Some d => Some (mkValue ty d)
    | None => None
    end
  else Some (mkValue ty p).

(** ** Abstract syntax (the Element nodes the parser produces) *)

(** An ARG_NODE: [name] and [ref]. *)
Record Arg := mkArg { arg_name : string; arg_ref : bool }.

(** The binary operator kinds of [self.bops]. *)
Inductive Bop :=
  | Add | Sub | Mul | Div | Eq | Ne | Gt | Ge | Lt | Le | Or | And.

#[local] Unset Elimination Schemes.
Inductive Expr :=
  | EInt (val : Z)
  | EString (val : string)
  | EBool (val : bool)
  | ENil
  | EEmptyObj
  | EQName (name : string)
  | EFcall (name : string) (args : list Expr)
  | ELambda (name : string) (args : list Arg) (statements : list Stmt)
  | EBop (kind : Bop) (op1 op2 : Expr)
  | ENeg (op1 : Expr)
  | ENot (op1 : Expr)
  | EConvert (to_type : string) (expr : Expr)
with Stmt :=
  | SVarDef (name : string)
  | SBVarDef (name : string)
  | SAssign (var : string) (expression : Expr)
  | SFcall (name : string) (args : list Expr)
  | SIf (condition : Expr) (statements : list Stmt)
        (else_statements : option (list Stmt))
  | SWhile (condition : Expr) (statements : list Stmt)
  | SReturn (expression : option Expr).
#[local] Set Elimination Schemes.

(** A FUNC_NODE at top level. *)
Record FuncDecl := mkFuncDecl {
  fd_name : string;
  fd_args : list Arg;
  fd_statements : list Stmt
}.

(** The fields of an interface node. *)
Inductive Field :=
  | FIELD_VAR (name : string)
  | FIELD_FUNC (name : string) (params : list Arg).

Definition field_name (f : Field) : string :=
  match f with FIELD_VAR n => n | FIELD_FUNC n _ => n end.

Record InterfaceDecl := mkInterfaceDecl {
  id_name : string;
  id_fields : list Field
}.

Record Program := mkProgram {
  interfaces_ast : option (list InterfaceDecl);
  functions_ast : list FuncDecl
}.

(** ** Function, Lambda and Interface objects *)

(** [class Function]; [captured_vars] is [Some] exactly for a [Lambda]. *)
Record FuncObj := mkFuncObj {
  return_type : BType;
  formal_args : dict bool;
  fstatements : list Stmt;
  captured_vars : option (dict loc)
}.

(** [{a.get("name"): a.get("ref") for a in args}] *)
Definition formal_args_of (args : list Arg) : dict bool :=
  fold_left (fun d a => Dict.set (arg_name a) (arg_ref a) d) args [].

(** [Function.__get_return_type] *)
Definition get_return_type (name : string) : BType :=
  if String.eqb name "main" then VOID else get_type name.

(** [Function.__init__] *)
Definition Function_init (name : string) (args : list Arg)
    (stmts : list Stmt) : FuncObj :=
  mkFuncObj (get_return_type name) (formal_args_of args) stmts None.

(** [Lambda.__init__] *)
Definition Lambda_init (name : string) (args : list Arg)
    (stmts : list Stmt) (captured : dict loc) : FuncObj :=
  mkFuncObj (get_return_type name) (formal_args_of args) stmts (Some captured).

(** [class Interface]: [field_vars] and [field_funcs]. *)
Record Interface := mkInterface {
  iname : string;
  field_vars : dict BType;
  field_funcs : dict (list (BType * bool))
}.

(** [Interface.__assign_fields] *)
Definition assign_fields (fields : list Field) (i : Interface) : Interface :=
  fold_left
    (fun i f =>
       match f with
       | FIELD_VAR var_name =>
           mkInterface (iname i)
             (Dict.set var_name (get_type var_name) (field_vars i))
             (field_funcs i)
       | FIELD_FUNC func_name params =>
           let param_sig :=
             map (fun p => (get_type (arg_name p), arg_ref p)) params in
           mkInterface (iname i) (field_vars i)
             (Dict.set func_name param_sig (field_funcs i))
       end)
    fields i.

Definition Interface_init (name : string) (fields : list Field) : Interface :=
  assign_fields fields (mkInterface name [] []).

(** ** Interpreter state *)

(** The interpreter object ([funcs], [interfaces], [env] and the host's
    output and input) together with the three stores of Python objects.
    [env] is [Environment.env]: a list of frames, the current one last;
    a frame is a list of blocks, the function scope first. *)
Record State := mkState {
  cells : list Value;
  objs : list (dict loc);
  fobjs : list FuncObj;
  funcs : Dict.dict (string * string) floc;
  interfaces : dict Interface;
  env : list (list (dict loc));
  output : list string;
  input : list string
}.

Definition set_cells (s : State) (c : list Value) : State :=
  mkState c (objs s) (fobjs s) (funcs s) (interfaces s) (env s)
    (output s) (input s).
Definition set_objs (s : State) (o : list (dict loc)) : State :=
  mkState (cells s) o (fobjs s) (funcs s) (interfaces s) (env s)
    (output s) (input s).
Definition set_fobjs (s : State) (f : list FuncObj) : State :=
  mkState (cells s) (objs s) f (funcs s) (interfaces s) (env s)
    (output s) (input s).
Definition set_funcs (s : State) (f : Dict.dict (string * string) floc) : State :=
  mkState (cells s) (objs s) (fobjs s) f (interfaces s) (env s)
    (output s) (input s).
Definition set_interfaces (s : State) (i : dict Interface) : State :=
  mkState (cells s) (objs s) (fobjs s) (funcs s) i (env s)
    (output s) (input s).
Definition set_env (s : State) (e : list (list (dict loc))) : State :=
  mkState (cells s) (objs s) (fobjs s) (funcs s) (interfaces s) e
    (output s) (input s).
Definition set_output (s : State) (o : list string) : State :=
  mkState (cells s) (objs s) (fobjs s) (funcs s) (interfaces s) (env s)
    o (input s).
Definition set_input (s : State) (i : list string) : State :=
  mkState (cells s) (objs s) (fobjs s) (funcs s) (interfaces s) (env s)
    (output s) i.

Definition initial_state (inp : list string) : State :=
  mkState [] [] [] [] [] [] [] inp.

(** ** The monad of interpreter methods *)

Definition M (A : Type) : Type := State -> Res (A * State).

Definition ret {A} (a : A) : M A := fun s => Ok (a, s).

Definition bind {A B} (m : M A) (k : A -> M B) : M B :=
  fun s =>
    match m s with
    | Ok (a, s') => k a s'
    | Err e => Err e
    | HostExn => HostExn
    | OutOfFuel => OutOfFuel
    end.

(** [super().error(e, ...)] *)
Definition error {A} (e : ErrorType) : M A := fun _ => Err e.

(** An uncaught Python exception. *)
Definition raise {A} : M A := fun _ => HostExn.

Definition out_of_fuel {A} : M A := fun _ => OutOfFuel.

Definition gets {A} (f : State -> A) : M A := fun s => Ok (f s, s).

Definition modify (f : State -> State) : M unit := fun s => Ok (tt, f s).

(** A method that only reads the state. *)
Definition reads {A} (f : State -> Res A) : M A :=
  fun s => rbind (f s) (fun a => Ok (a, s)).

Definition lift_opt {A} (o : option A) : M A :=
  match o with Some a => ret a | None => raise end.

Declare Scope m_scope.
Delimit Scope m_scope with M.
Notation "x <- c ;; k" := (bind c (fun x => k))
  (at level 100, c at next level, right associativity) : m_scope.
Notation "c ;; k" := (bind c (fun _ => k))
  (at level 100, right associativity) : m_scope.
Local Open Scope m_scope.

Fixpoint mapM {A B} (f : A -> M B) (l : list A) : M (list B) :=
  match l with
  | [] => ret []
  | a :: r => b <- f a ;; bs <- mapM f r ;; ret (b :: bs)
  end.

(** [for a in l: f(a)] *)
Fixpoint forM_ {A} (f : A -> M unit) (l : list A) : M unit :=
  match l with
  | [] => ret tt
  | a :: r => f a ;; forM_ f r
  end.

(** ** The stores *)

(** The attributes of the wrapper [l]. *)
Definition cell (s : State) (l : loc) : Res Value := of_option (cells s !! l).

(** The field dictionary [o]. *)
Definition fields (s : State) (o : oloc) : Res (dict loc) :=
  of_option (objs s !! o).

(** The Function / Lambda object [f]. *)
Definition fobj (s : State) (f : floc) : Res FuncObj :=
  of_option (fobjs s !! f).

Definition rd (l : loc) : M Value := reads (fun s => cell s l).

(** A new wrapper with the attributes [x]. *)
Definition alloc (x : Value) : M loc :=
  fun s => Ok (length (cells s), set_cells s (cells s ++ [x])).

(** [Value(ty, p)] *)
Definition new_Value (ty : BType) (p : Payload) : M loc :=
  x <- lift_opt (Value_init ty p) ;; alloc x.

(** [copy(val)]: a new wrapper with the same attributes. *)
Definition copy (l : loc) : M loc := x <- rd l ;; alloc x.

(** [self.set(other)]: both attributes of [l] are overwritten. *)
Definition Value_set (l other : loc) : M unit :=
  x <- rd other ;;
  _ <- rd l ;;
  modify (fun s => set_cells s (<[l := x]> (cells s))).

(** [{}] *)
Definition new_dict : M oloc :=
  fun s => Ok (length (objs s), set_objs s (objs s ++ [[]])).

Definition new_fobj (f : FuncObj) : M floc :=
  fun s => Ok (length (fobjs s), set_fobjs s (fobjs s ++ [f])).

(** [sub in p] for a payload [p]: key test on a dictionary, substring test
    on a string, a Python TypeError on anything else. *)
Definition contains (s : State) (sub : string) (p : Payload) : Res bool :=
  match p with
  | PObj o => rbind (fields s o) (fun d => Ok (Dict.mem sub d))
  | PStr x => Ok (is_substring sub x)
  | _ => HostExn
  end.

(** [p[sub]]: KeyError on a missing key, TypeError off a dictionary. *)
Definition getitem (s : State) (p : Payload) (sub : string) : Res loc :=
  match p with
  | PObj o => rbind (fields s o) (fun d => of_option (Dict.get sub d))
  | _ => HostExn
  end.

(** [p[sub] = l] *)
Definition setitem (p : Payload) (sub : string) (l : loc) : M unit :=
  match p with
  | PObj o =>
      d <- reads (fun s => fields s o) ;;
      modify (fun s => set_objs s (<[o := Dict.set sub l d]> (objs s)))
  | _ => raise
  end.

(** ** class Environment *)

Module Environment.

Definition frame := list (dict loc).

(** [self.env[-1]]; IndexError on an empty list. *)
Definition top (e : list frame) : option frame := last e.

(** [self.env[-1] = fr] on a non-empty list. *)
Definition set_top (fr : frame) (e : list frame) : list frame :=
  removelast e ++ [fr].

Definition enter_block (e : list frame) : option (list frame) :=
  match top e with
  | Some fr => Some (set_top (fr ++ [[]]) e)
  | None => None
  end.

Definition exit_block (e : list frame) : option (list frame) :=
  match top e with
  | Some [] => None
  | Some fr => Some (set_top (removelast fr) e)
  | None => None
  end.

Definition enter_func (e : list frame) : list frame := e ++ [[[]]].

Definition exit_func (e : list frame) : option (list frame) :=
  match e with
  | [] => None
  | _ => Some (removelast e)
  end.

(** define new variable at function scope *)
Definition fdef (varname : string) (value : loc) (e : list frame)
  : option (bool * list frame) :=
  match top e with
  | Some (b0 :: rest) =>
      if Dict.mem varname b0 then Some (false, e)
      else Some (true, set_top (Dict.set varname value b0 :: rest) e)
  | _ => None
  end.

(** define new variable in top block *)
Definition bdef (varname : string) (value : loc) (e : list frame)
  : option (bool * list frame) :=
  match top e with
  | Some fr =>
      match last fr with
      | Some b =>
          if Dict.mem varname b then Some (false, e)
          else Some (true, set_top (removelast fr ++ [Dict.set varname value b]) e)
      | None => None
      end
  | None => None
  end.

Definition exists_ (varname : string) (e : list frame) : option bool :=
  match top e with
  | Some fr => Some (existsb (Dict.mem varname) fr)
  | None => None
  end.

(** [for block in reversed(top_env)] *)
Fixpoint get_in (varname : string) (rev_blocks : list (dict loc))
  : option loc :=
  match rev_blocks with
  | [] => None
  | b :: r =>
      match Dict.get varname b with
      | Some l => Some l
      | None => get_in varname r
      end
  end.

(** The inner option is Python's [None] for a name that is not found. *)
Definition get (varname : string) (e : list frame) : option (option loc) :=
  match top e with
  | Some fr => Some (get_in varname (rev fr))
  | None => None
  end.

Fixpoint set_in (varname : string) (value : loc)
    (rev_blocks : list (dict loc)) : list (dict loc) :=
  match rev_blocks with
  | [] => []
  | b :: r =>
      if Dict.mem varname b then Dict.set varname value b :: r
      else b :: set_in varname value r
  end.

Definition set (varname : string) (value : loc) (e : list frame)
  : option (bool * list frame) :=
  match exists_ varname e, top e with
  | Some false, _ => Some (false, e)
  | Some true, Some fr =>
      Some (true, set_top (rev (set_in varname value (rev fr))) e)
  | _, _ => None
  end.

(** Capture all variables in scope for lambda implementation *)
Definition capture_vars (e : list frame) : option (dict loc) :=
  match top e with
  | Some fr =>
      Some (fold_left
              (fun captured block =>
                 fold_left (fun c '(name, val) => Dict.set name val c)
                   block captured)
              fr [])
  | None => None
  end.

End Environment.

(** The methods of [self.env], run on the interpreter state.  An
    IndexError inside them is an uncaught host exception. *)
Definition env_read {A} (f : list Environment.frame -> option A) : M A :=
  reads (fun s => of_option (f (env s))).

Definition env_update {A}
    (f : list Environment.frame -> option (A * list Environment.frame)) : M A :=
  fun s =>
    match f (env s) with
    | Some (a, e') => Ok (a, set_env s e')
    | None => HostExn
    end.

Definition env_enter_block : M unit :=
  env_update (fun e => option_map (fun e' => (tt, e')) (Environment.enter_block e)).
Definition env_exit_block : M unit :=
  env_update (fun e => option_map (fun e' => (tt, e')) (Environment.exit_block e)).
Definition env_enter_func : M unit :=
  modify (fun s => set_env s (Environment.enter_func (env s))).
Definition env_exit_func : M unit :=
  env_update (fun e => option_map (fun e' => (tt, e')) (Environment.exit_func e)).
Definition env_fdef (name : string) (l : loc) : M bool :=
  env_update (Environment.fdef name l).
Definition env_bdef (name : string) (l : loc) : M bool :=
  env_update (Environment.bdef name l).
Definition env_exists (name : string) : M bool :=
  env_read (Environment.exists_ name).
Definition env_get (name : string) : M (option loc) :=
  env_read (Environment.get name).

(** ** Signatures *)

(** One step of [__get_parameters_type_signature]: the letter a formal
    parameter contributes. *)
Definition param_letter (p : Arg) : option ascii :=
  match last_char (arg_name p) with
  | Some p_last => Some (if isupper p_last then "o"%char else p_last)
  | None => None
  end.

Fixpoint param_letters (formal_params : list Arg) (acc : string)
  : option string :=
  match formal_params with
  | [] => Some acc
  | p :: r =>
      match param_letter p with
      | Some c => param_letters r (acc ++ String c EmptyString)
      | None => None
      end
  end.

Fixpoint all_allowed (sig : string) : bool :=
  match sig with
  | EmptyString => true
  | String c r =>
      (ascii_eqb c "b" || ascii_eqb c "i" || ascii_eqb c "o" ||
       ascii_eqb c "s" || ascii_eqb c "f") && all_allowed r
  end.

(** [__get_parameters_type_signature] *)
Definition get_parameters_type_signature (formal_params : list Arg)
  : Res string :=
  match param_letters formal_params "" with
  | None => HostExn
  | Some param_type_sig =>
      if all_allowed param_type_sig then Ok param_type_sig
      else Err TYPE_ERROR
  end.

(** [__get_arguments_type_signature], on the attributes of the evaluated
    arguments. *)
Fixpoint arguments_sig (actual_args : list Value) (arg_sig : string)
  : Res string :=
  match actual_args with
  | [] => Ok arg_sig
  | arg :: r =>
      match t arg with
      | INT => arguments_sig r (arg_sig ++ "i")
      | STRING => arguments_sig r (arg_sig ++ "s")
      | BOOL => arguments_sig r (arg_sig ++ "b")
      | OBJECT => arguments_sig r (arg_sig ++ "o")
      | FUNCTION => arguments_sig r (arg_sig ++ "f")
      | VOID => Err TYPE_ERROR
      | ERROR => HostExn
      end
  end.

Definition get_arguments_type_signature (actual_args : list Value)
  : Res string :=
  arguments_sig actual_args "".

(** ** Interface table and structural matcher *)

Fixpoint has_duplicate_names (fields : list Field) (defined : list string)
  : bool :=
  match fields with
  | [] => false
  | f :: r =>
      if existsb (String.eqb (field_name f)) defined then true
      else has_duplicate_names r (field_name f :: defined)
  end.

Definition is_upper_letter_name (name : string) : bool :=
  match name with
  | String c EmptyString => isupper c
  | _ => false
  end.

(** [__create_interface_table] *)
Definition create_interface_table (ast : Program) : M unit :=
  modify (fun s => set_interfaces s []) ;;
  match interfaces_ast ast with
  | None => ret tt
  | Some decls =>
      forM_
        (fun interface =>
           let name := id_name interface in
           (if negb (is_upper_letter_name name) then error NAME_ERROR
            else ret tt) ;;
           known <- gets interfaces ;;
           (if Dict.mem name known then error NAME_ERROR else ret tt) ;;
           let fields := id_fields interface in
           (if has_duplicate_names fields [] then error NAME_ERROR
            else ret tt) ;;
           modify (fun s =>
             set_interfaces s
               (Dict.set name (Interface_init name fields) (interfaces s))))
        decls
  end.

(** [__get_interface_name]: the trailing uppercase letter, if any. *)
Definition get_interface_name (name : string) : option string :=
  match last_char name with
  | Some c => if isupper c then Some (String c EmptyString) else None
  | None => None
  end.

(** [__check_function_signatures], given the Function object. *)
Fixpoint check_params (formal_args : dict bool)
    (pairs : list (string * (BType * bool))) : bool :=
  match pairs with
  | [] => true
  | (formal_name, (field_type, field_ref)) :: r =>
      if negb (bool_decide (get_type formal_name = field_type)) then false
      else
        match Dict.get formal_name formal_args with
        | Some formal_ref =>
            if negb (Bool.eqb formal_ref field_ref) then false
            else check_params formal_args r
        | None => false
        end
  end.

Definition check_function_signatures (obj_sig : FuncObj)
    (field_sig : list (BType * bool)) : bool :=
  let formal_args := formal_args obj_sig in
  if negb (length formal_args =? length field_sig)%nat then false
  else check_params formal_args (combine (Dict.keys formal_args) field_sig).

(** The first loop of [__interface_satisfaction]. *)
Fixpoint check_field_vars (s : State) (obj_fields : Payload)
    (items : list (string * BType)) : Res bool :=
  match items with
  | [] => Ok true
  | (field_name, field_type) :: r =>
      rbind (contains s field_name obj_fields) (fun present =>
      if negb present then Ok false
      else
        rbind (getitem s obj_fields field_name) (fun l =>
        rbind (cell s l) (fun obj_value =>
        if negb (bool_decide (t obj_value = field_type)) then Ok false
        else check_field_vars s obj_fields r)))
  end.

(** The second loop of [__interface_satisfaction].  A Function-tagged
    field holding [None] has no attribute [formal_args]: AttributeError. *)
Fixpoint check_field_funcs (s : State) (obj_fields : Payload)
    (items : list (string * list (BType * bool))) : Res bool :=
  match items with
  | [] => Ok true
  | (field_name, field_sig) :: r =>
      rbind (contains s field_name obj_fields) (fun present =>
      if negb present then Ok false
      else
        rbind (getitem s obj_fields field_name) (fun l =>
        rbind (cell s l) (fun obj_value =>
        if negb (bool_decide (t obj_value = FUNCTION)) then Ok false
        else
          match v obj_value with
          | PFun f =>
              rbind (fobj s f) (fun obj_sig =>
              if negb (check_function_signatures obj_sig field_sig)
              then Ok false
              else check_field_funcs s obj_fields r)
          | _ => HostExn
          end)))
  end.

(** [__interface_satisfaction] *)
Definition interface_satisfaction (s : State) (obj : Value)
    (interface_name : string) : Res bool :=
  match Dict.get interface_name (interfaces s) with
  | None => Err NAME_ERROR
  | Some interface =>
      if is_None (v obj) then Ok true
      else if negb (bool_decide (t obj = OBJECT)) then Ok false
      else
        let obj_fields := v obj in
        rbind (check_field_vars s obj_fields (field_vars interface))
          (fun ok =>
             if negb ok then Ok false
             else check_field_funcs s obj_fields (field_funcs interface))
  end.

(** ** Function table *)

(** [__create_function_table] *)
Definition create_function_table (ast : Program) : M unit :=
  modify (fun s => set_funcs s []) ;;
  forM_
    (fun func =>
       let name := fd_name func in
       param_type_sig <-
         reads (fun _ => get_parameters_type_signature (fd_args func)) ;;
       let func_obj := Function_init name (fd_args func) (fd_statements func) in
       (if bool_decide (return_type func_obj = ERROR) then error TYPE_ERROR
        else ret tt) ;;
       let type_sig := (name, param_type_sig) in
       known <- gets funcs ;;
       (if Dict.mem type_sig known then error NAME_ERROR else ret tt) ;;
       f <- new_fobj func_obj ;;
       modify (fun s => set_funcs s (Dict.set type_sig f (funcs s))))
    (functions_ast ast).

(** [[key for key in self.funcs.keys() if key[0] == name]] *)
Definition overloads (s : State) (name : string) : list (string * string) :=
  filter (fun key => fst key = name) (Dict.keys (funcs s)).

(** ** Operators *)

(** [a is b] on payloads.  Under the tags OBJECT and FUNCTION, the only
    ones this is used for, a payload is [None], a dictionary or a Function
    object, compared by identity. *)
Definition py_is (a b : Payload) : bool := bool_decide (a = b).

(** [a == b] on payloads of wrappers with equal tags.  It is reached for
    primitive payloads only: dictionaries and Function objects sit under
    the tags OBJECT and FUNCTION, which are compared with [is]. *)
Definition py_eq (a b : Payload) : bool := bool_decide (a = b).

Definition VBool (b : bool) : Value := mkValue BOOL (PBool b).

(** The arms of [__eval_binary_op] under [tl == STRING and tr == STRING],
    [tl == INT and tr == INT] and [tl == BOOL and tr == BOOL].  [None]: no
    [return] was reached and control falls through.  A wrapper tagged INT
    holds a Python int, one tagged STRING a str, one tagged BOOL a bool:
    every construction site of [Value] keeps this. *)
Definition string_ops (kind : Bop) (vl_val vr_val : Payload)
  : option (Res Value) :=
  match kind, vl_val, vr_val with
  | Add, PStr a, PStr b => Some (Ok (mkValue STRING (PStr (a ++ b)%string)))
  | Add, _, _ => Some HostExn
  | _, _, _ => None
  end.

Definition int_ops (kind : Bop) (vl_val vr_val : Payload)
  : option (Res Value) :=
  match vl_val, vr_val with
  | PInt a, PInt b =>
      match kind with
      | Add => Some (Ok (mkValue INT (PInt (a + b))))
      | Sub => Some (Ok (mkValue INT (PInt (a - b))))
      | Mul => Some (Ok (mkValue INT (PInt (a * b))))
      | Div =>
          (* [//]: ZeroDivisionError on a zero divisor *)
          Some (if (b =? 0)%Z then HostExn else Ok (mkValue INT (PInt (a / b))))
      | Lt => Some (Ok (VBool (a <? b)%Z))
      | Le => Some (Ok (VBool (a <=? b)%Z))
      | Gt => Some (Ok (VBool (a >? b)%Z))
      | Ge => Some (Ok (VBool (a >=? b)%Z))
      | _ => None
      end
  | _, _ =>
      match kind with
      | Add | Sub | Mul | Div | Lt | Le | Gt | Ge => Some HostExn
      | _ => None
      end
  end.

Definition bool_ops (kind : Bop) (vl_val vr_val : Payload)
  : option (Res Value) :=
  match kind, vl_val, vr_val with
  | And, PBool a, PBool b => Some (Ok (VBool (a && b)))
  | Or, PBool a, PBool b => Some (Ok (VBool (a || b)))
  | And, _, _ | Or, _, _ => Some HostExn
  | _, _, _ => None
  end.

Definition or_else {A} (o : option A) (d : A) : A :=
  match o with Some a => a | None => d end.

(** [__eval_binary_op], on the attributes of the two operands. *)
Definition eval_binary_op (kind : Bop) (vl vr : Value) : Res Value :=
  let tl := t vl in
  let tr := t vr in
  let vl_val := v vl in
  let vr_val := v vr in
  let same := bool_decide (tl = tr) in
  let both ty := bool_decide (tl = ty) && bool_decide (tr = ty) in
  match kind with
  | Eq =>
      if is_None vl_val && is_None vr_val then Ok (VBool true)
      else if both OBJECT then Ok (VBool (same && py_is vl_val vr_val))
      else if both FUNCTION then Ok (VBool (same && py_is vl_val vr_val))
      else if bool_decide (tl = FUNCTION) && bool_decide (tr = OBJECT)
      then Ok (VBool false)
      else Ok (VBool (same && py_eq vl_val vr_val))
  | Ne =>
      if is_None vl_val && is_None vr_val then Ok (VBool false)
      else if both OBJECT then Ok (VBool (negb (same && py_is vl_val vr_val)))
      else if both FUNCTION then Ok (VBool (negb (same && py_is vl_val vr_val)))
      else if bool_decide (tl = FUNCTION) && bool_decide (tr = OBJECT)
      then Ok (VBool true)
      else Ok (VBool (negb (same && py_eq vl_val vr_val)))
  | _ =>
      or_else (if both STRING then string_ops kind vl_val vr_val else None)
     (or_else (if both INT then int_ops kind vl_val vr_val else None)
     (or_else (if both BOOL then bool_ops kind vl_val vr_val else None)
        (Err TYPE_ERROR)))
  end.

(** ** Host collaborators *)

(** Modelled from the spec: the host primitive [output(text)] of
    InterpreterBase, which is not part of this file; each call adds one
    line to the output. *)
Definition host_output (text : string) : M unit :=
  modify (fun s => set_output s (output s ++ [text])).

(** Modelled from the spec: the host primitive [read_input()] of
    InterpreterBase ([get_input]), which is not part of this file; the next
    line of the input, Python's [None] when there is none left. *)
Definition host_get_input : M (option string) :=
  fun s =>
    match input s with
    | [] => Ok (None, s)
    | line :: r => Ok (Some line, set_input s r)
    end.

Definition lower_char (c : ascii) : ascii :=
  if isupper c then ascii_of_nat (nat_of_ascii c + 32) else c.

(** [s.lower()] *)
Fixpoint lower (s : string) : string :=
  match s with
  | EmptyString => EmptyString
  | String c r => String (lower_char c) (lower r)
  end.

(** [str(p)].  The text Python prints for a dictionary of wrappers or for
    a Function object contains memory addresses; it is kept abstract. *)
Definition py_str (p : Payload) : string :=
  match p with
  | PNone => "None"
  | PInt z => str_of_int z
  | PStr s => s
  | PBool b => if b then "True" else "False"
  | PObj _ => "<object>"
  | PFun _ => "<function>"
  end.

(** The truth value of the payload of a BOOL wrapper. *)
Definition as_bool (p : Payload) : M bool :=
  match p with PBool b => ret b | _ => raise end.

(** ** The evaluator *)

Section Evaluator.

(** The recursive calls to [eval_expr] and [__run_statements]. *)
Variable eval_expr : Expr -> M loc.
Variable run_statements : FuncObj -> list Stmt -> M (loc * bool).

Definition when_ (b : bool) (m : M unit) : M unit := if b then m else ret tt.

(** [__handle_print] *)
Fixpoint print_args (args : list Expr) (out : string) : M string :=
  match args with
  | [] => ret out
  | arg :: r =>
      c <- eval_expr arg ;;
      c_out <- rd c ;;
      when_ (bool_decide (t c_out = VOID)) (error TYPE_ERROR) ;;
      if bool_decide (t c_out = BOOL)
      then print_args r (out ++ lower (py_str (v c_out)))
      else print_args r (out ++ py_str (v c_out))
  end.

Definition handle_print (args : list Expr) : M loc :=
  out <- print_args args "" ;;
  host_output out ;;
  new_Value VOID PNone.

(** [__handle_input] *)
Definition handle_input (fcall_name : string) (args : list Expr) : M loc :=
  when_ (1 <? length args)%nat (error NAME_ERROR) ;;
  (match args with [] => ret tt | _ => _ <- handle_print args ;; ret tt end) ;;
  res <- host_get_input ;;
  if String.eqb fcall_name "inputi" then
    match res with
    | Some text =>
        match int_of_str text with
        | Some n => new_Value INT (PInt n)
        | None => raise
        end
    | None => raise
    end
  else
    match res with
    | Some text => new_Value STRING (PStr text)
    | None => new_Value STRING PNone
    end.

(** [__clone_for_passing] *)
Definition clone_for_passing (arg : loc) (ref_param : bool) : M loc :=
  if ref_param then ret arg else copy arg.

(** The interface check of one formal parameter in [__run_fcall]. *)
Definition check_interface_arg (formal_name : string) (actual_arg : loc)
  : M unit :=
  match get_interface_name formal_name with
  | Some interface_name =>
      a <- rd actual_arg ;;
      if negb (bool_decide (t a = OBJECT)) then error TYPE_ERROR
      else
        ok <- reads (fun s => interface_satisfaction s a interface_name) ;;
        when_ (negb ok) (error TYPE_ERROR)
  | None => ret tt
  end.

(** [formal_args[formal]] *)
Definition ref_flag (func : FuncObj) (formal : string) : M bool :=
  lift_opt (Dict.get formal (formal_args func)).

(** The binding loop of [__run_fcall]. *)
Definition bind_formal (func_def : FuncObj) (fa : string * loc) : M unit :=
  ref_param <- ref_flag func_def (fst fa) ;;
  actual <- clone_for_passing (snd fa) ref_param ;;
  _ <- env_fdef (fst fa) actual ;;
  ret tt.

(** The lookup of [__run_fcall]: [__get_function] and the handler of its
    failure. *)
Definition resolve (fcall_name args_type_sig : string) : M floc :=
  s <- gets id ;;
  match Dict.get (fcall_name, args_type_sig) (funcs s) with
  | Some f => ret f
  | None =>
      let existing_funcs :=
        filter (fun key => fst key = fcall_name) (Dict.keys (funcs s)) in
      match existing_funcs with
      | _ :: _ => error TYPE_ERROR
      | [] => error NAME_ERROR
      end
  end.

(** [__run_fcall] from [actual_args = ...] on: the ordinary call. *)
Definition ordinary_call (fcall_name : string) (args : list Expr) : M loc :=
  actual_args <- mapM eval_expr args ;;
  arg_values <- mapM rd actual_args ;;
  args_type_sig <- reads (fun _ => get_arguments_type_signature arg_values) ;;
  f <- resolve fcall_name args_type_sig ;;
  func_def <- reads (fun s => fobj s f) ;;
  let bound := combine (Dict.keys (formal_args func_def)) actual_args in
  forM_ (fun fa => check_interface_arg (fst fa) (snd fa)) bound ;;
  env_enter_func ;;
  forM_ (bind_formal func_def) bound ;;
  r <- run_statements func_def (fstatements func_def) ;;
  env_exit_func ;;
  ret (fst r).

(** The checking loop of [__call_function_value]. *)
Definition check_value_arg (fa : string * loc) : M unit :=
  actual <- rd (snd fa) ;;
  let corr_type := get_type (fst fa) in
  when_ (negb (bool_decide (corr_type = t actual))) (error TYPE_ERROR) ;;
  match get_interface_name (fst fa) with
  | Some interface_name =>
      when_ (negb (bool_decide (t actual = OBJECT))) (error TYPE_ERROR) ;;
      ok <- reads (fun s => interface_satisfaction s actual interface_name) ;;
      when_ (negb ok) (error TYPE_ERROR)
  | None => ret tt
  end.

(** The binding loop of [__call_function_value]. *)
Definition bind_value_formal (func_obj : FuncObj) (fa : string * loc)
  : M unit :=
  ref_param <- ref_flag func_obj (fst fa) ;;
  actual <- clone_for_passing (snd fa) ref_param ;;
  (* handle shadowing if parameter shadows variable *)
  present <- env_exists (fst fa) ;;
  if present then
    shadowed <- env_get (fst fa) ;;
    match shadowed with
    | Some shadowed_val => Value_set shadowed_val actual
    | None => raise
    end
  else
    _ <- env_fdef (fst fa) actual ;; ret tt.

(** [__call_function_value(func_obj, args, selfo)]; [func_obj] is the
    payload of the Function wrapper. *)
Definition call_function_value (func_obj : Payload) (args : list Expr)
    (selfo : option loc) : M loc :=
  actual_args <- mapM eval_expr args ;;
  arg_values <- mapM rd actual_args ;;
  _ <- reads (fun _ => get_arguments_type_signature arg_values) ;;
  fo <- match func_obj with
        | PFun f => reads (fun s => fobj s f)
        | _ => raise
        end ;;
  when_ (negb (length actual_args =? length (formal_args fo))%nat)
    (error TYPE_ERROR) ;;
  let bound := combine (Dict.keys (formal_args fo)) actual_args in
  forM_ check_value_arg bound ;;
  env_enter_func ;;
  (* if method call, define selfo too *)
  (match selfo with
   | Some receiver => _ <- env_fdef "selfo" receiver ;; ret tt
   | None => ret tt
   end) ;;
  (* if lambda, define the captured variable too *)
  (match captured_vars fo with
   | Some captured =>
       forM_ (fun nv => _ <- env_fdef (fst nv) (snd nv) ;; ret tt) captured
   | None => ret tt
   end) ;;
  forM_ (bind_value_formal fo) bound ;;
  r <- run_statements fo (fstatements fo) ;;
  env_exit_func ;;
  ret (fst r).

(** [sub[-1]] *)
Definition last_of (sub : string) : M ascii := lift_opt (last_char sub).

(** The loop of [__run_method_call] over [suffix_name[:-1]]. *)
Fixpoint walk_method (value : loc) (subs : list string) : M loc :=
  match subs with
  | [] => ret value
  | sub :: r =>
      x <- rd value ;;
      when_ (is_None (v x)) (error FAULT_ERROR) ;;
      present <- reads (fun s => contains s sub (v x)) ;;
      when_ (negb present) (error NAME_ERROR) ;;
      c <- last_of sub ;;
      when_ (negb (ascii_eqb c "o")) (error TYPE_ERROR) ;;
      next <- reads (fun s => getitem s (v x) sub) ;;
      walk_method next r
  end.

(** [__run_method_call] *)
Definition run_method_call (method_path : string) (args : list Expr)
  : M loc :=
  match split_dot method_path with
  | [] => raise
  | root :: suffix_name =>
      present <- env_exists root ;;
      when_ (negb present) (error NAME_ERROR) ;;
      found <- env_get root ;;
      value <- lift_opt found ;;
      value <- walk_method value (removelast suffix_name) ;;
      method_name <- lift_opt (last suffix_name) ;;
      x <- rd value ;;
      (* make sure object has the method *)
      has <- reads (fun s => contains s method_name (v x)) ;;
      when_ (negb has) (error NAME_ERROR) ;;
      m <- reads (fun s => getitem s (v x) method_name) ;;
      method_value <- rd m ;;
      when_ (negb (bool_decide (t method_value = FUNCTION)))
        (error TYPE_ERROR) ;;
      when_ (is_None (v method_value)) (error FAULT_ERROR) ;;
      call_function_value (v method_value) args (Some value)
  end.

(** [__run_fcall] *)
Definition run_fcall (fcall_name : string) (args : list Expr) : M loc :=
  if String.eqb fcall_name "inputi" || String.eqb fcall_name "inputs"
  then handle_input fcall_name args
  else if String.eqb fcall_name "print" then handle_print args
  else if has_dot fcall_name then run_method_call fcall_name args
  else
    frames <- gets env ;;
    func_val <- (match frames with
                 | [] => ret None
                 | _ => env_get fcall_name
                 end) ;;
    match func_val with
    | Some l =>
        x <- rd l ;;
        if bool_decide (t x = FUNCTION) then
          when_ (is_None (v x)) (error FAULT_ERROR) ;;
          call_function_value (v x) args None
        else ordinary_call fcall_name args
    | None => ordinary_call fcall_name args
    end.

(** [name in lambda_params]: [lambda_params] is the list of the ARG_NODE
    elements of the lambda, and a Python str is not equal to an element
    node, so the test of [__create_lambda] finds nothing. *)
Definition str_eq_node (name : string) (node : Arg) : bool := false.

Definition name_in_params (name : string) (lambda_params : list Arg) : bool :=
  existsb (str_eq_node name) lambda_params.

(** The body of the loop of [__create_lambda]. *)
Definition capture_one (lambda_params : list Arg)
    (captured_vars : dict loc) (nv : string * loc) : M (dict loc) :=
  let name := fst nv in
  if name_in_params name lambda_params then ret captured_vars
  else
    val <- rd (snd nv) ;;
    match t val with
    | INT | STRING | BOOL =>
        c <- copy (snd nv) ;; ret (Dict.set name c captured_vars)
    | OBJECT | FUNCTION =>
        (* prevent global reassignment *)
        c <- new_Value (t val) (v val) ;; ret (Dict.set name c captured_vars)
    | _ =>
        c <- copy (snd nv) ;; ret (Dict.set name c captured_vars)
    end.

Fixpoint capture_all (lambda_params : list Arg)
    (items : list (string * loc)) (captured_vars : dict loc)
  : M (dict loc) :=
  match items with
  | [] => ret captured_vars
  | nv :: r =>
      c <- capture_one lambda_params captured_vars nv ;;
      capture_all lambda_params r c
  end.

(** [__create_lambda] *)
Definition create_lambda (name : string) (lambda_params : list Arg)
    (stmts : list Stmt) : M loc :=
  inscope_vars <- env_read Environment.capture_vars ;;
  captured <- capture_all lambda_params inscope_vars [] ;;
  lambda_obj <- new_fobj (Lambda_init name lambda_params stmts captured) ;;
  new_Value FUNCTION (PFun lambda_obj).

(** [__run_vardef] *)
Definition run_vardef (name : string) (block_def : bool) : M unit :=
  let var_type := get_type name in
  when_ (bool_decide (var_type = ERROR) || bool_decide (var_type = VOID))
    (error TYPE_ERROR) ;;
  default_value <- new_Value var_type PNone ;;
  if block_def then
    ok <- env_bdef name default_value ;;
    when_ (negb ok) (error NAME_ERROR)
  else
    ok <- env_fdef name default_value ;;
    when_ (negb ok) (error NAME_ERROR).

(** The type check of [__run_assign] against the last segment. *)
Definition check_assign_type (last_name : string) (rvalue : Value)
  : M unit :=
  let var_type := get_type last_name in
  match get_interface_name last_name with
  | Some interface_name =>
      if negb (bool_decide (t rvalue = OBJECT)) then error TYPE_ERROR
      else
        ok <- reads (fun s => interface_satisfaction s rvalue interface_name) ;;
        when_ (negb ok) (error TYPE_ERROR)
  | None =>
      (* allow nil assignment to objects and function *)
      if is_None (v rvalue) then
        when_ (negb (bool_decide (var_type = OBJECT) ||
                     bool_decide (var_type = FUNCTION)))
          (error TYPE_ERROR)
      else
        when_ (negb (bool_decide (var_type = t rvalue))) (error TYPE_ERROR)
  end.

(** The loop of [__run_assign] over [dotted_name[1:-1]]. *)
Fixpoint walk_assign (lvalue : loc) (subs : list string) : M loc :=
  match subs with
  | [] => ret lvalue
  | sub :: r =>
      x <- rd lvalue ;;
      present <- reads (fun s => contains s sub (v x)) ;;
      when_ (negb present) (error NAME_ERROR) ;;
      (* every inner item must be an object, ending in an o *)
      c <- last_of sub ;;
      when_ (negb (ascii_eqb c "o") && negb (isupper c)) (error TYPE_ERROR) ;;
      next <- reads (fun s => getitem s (v x) sub) ;;
      (* every inner object must be non-nil *)
      y <- rd next ;;
      when_ (is_None (v y)) (error FAULT_ERROR) ;;
      walk_assign next r
  end.

(** [__run_assign] *)
Definition run_assign (name : string) (expression : Expr) : M unit :=
  match split_dot name with
  | [] => raise
  | root :: rest =>
      let last_name := List.last rest root in
      r <- eval_expr expression ;;
      present <- env_exists root ;;
      when_ (negb present) (error NAME_ERROR) ;;
      rvalue <- rd r ;;
      check_assign_type last_name rvalue ;;
      match rest with
      | [] =>
          found <- env_get name ;;
          value <- lift_opt found ;;
          (* update the value pointed to by the variable, not the mapping
             in the env *)
          Value_set value r
      | _ :: _ =>
          found <- env_get root ;;
          lvalue <- lift_opt found ;;
          x <- rd lvalue ;;
          when_ (negb (bool_decide (t x = OBJECT))) (error TYPE_ERROR) ;;
          when_ (is_None (v x)) (error FAULT_ERROR) ;;
          lvalue <- walk_assign lvalue (removelast rest) ;;
          target <- rd lvalue ;;
          if bool_decide (t rvalue = OBJECT) then
            setitem (v target) last_name r
          else
            fresh <- new_Value (t rvalue) (v rvalue) ;;
            setitem (v target) last_name fresh
      end
  end.

(** [__run_if] *)
Definition run_if (funcdef : FuncObj) (condition : Expr)
    (stmts : list Stmt) (else_statements : option (list Stmt))
  : M (loc * bool) :=
  c <- eval_expr condition ;;
  cond <- rd c ;;
  when_ (negb (bool_decide (t cond = BOOL))) (error TYPE_ERROR) ;;
  env_enter_block ;;
  res <- new_Value (return_type funcdef) PNone ;;
  taken <- as_bool (v cond) ;;
  r <- (if taken then run_statements funcdef stmts
        else match else_statements with
             | Some (st :: more) => run_statements funcdef (st :: more)
             | _ => ret (res, false)
             end) ;;
  env_exit_block ;;
  ret r.

(** The loop of [__run_while]; [n] bounds the number of iterations. *)
Fixpoint while_loop (n : nat) (funcdef : FuncObj) (condition : Expr)
    (stmts : list Stmt) (res : loc) : M (loc * bool) :=
  match n with
  | O => out_of_fuel
  | S n' =>
      c <- eval_expr condition ;;
      cond <- rd c ;;
      when_ (negb (bool_decide (t cond = BOOL))) (error TYPE_ERROR) ;;
      continue <- as_bool (v cond) ;;
      if negb continue then ret (res, false)
      else
        env_enter_block ;;
        r <- run_statements funcdef stmts ;;
        env_exit_block ;;
        if snd r then ret r
        else while_loop n' funcdef condition stmts (fst r)
  end.

(** [__run_while] *)
Definition run_while (n : nat) (funcdef : FuncObj) (condition : Expr)
    (stmts : list Stmt) : M (loc * bool) :=
  res <- new_Value (return_type funcdef) PNone ;;
  while_loop n funcdef condition stmts res.

(** [__run_return] *)
Definition run_return (funcdef : FuncObj) (expression : option Expr)
  : M (loc * bool) :=
  match expression with
  | None =>
      res <- new_Value (return_type funcdef) PNone ;; ret (res, true)
  | Some expr =>
      r <- eval_expr expr ;;
      result_val <- rd r ;;
      when_ (negb (bool_decide (t result_val = return_type funcdef)))
        (error TYPE_ERROR) ;;
      ret (r, true)
  end.

(** The loop of [__run_statements]. *)
Fixpoint statements_loop (n : nat) (funcdef : FuncObj)
    (stmts : list Stmt) (res : loc) : M (loc * bool) :=
  match stmts with
  | [] => ret (res, false)
  | statement :: rest =>
      match statement with
      | SVarDef name =>
          run_vardef name false ;; statements_loop n funcdef rest res
      | SBVarDef name =>
          run_vardef name true ;; statements_loop n funcdef rest res
      | SAssign var expression =>
          run_assign var expression ;; statements_loop n funcdef rest res
      | SFcall name args =>
          _ <- run_fcall name args ;; statements_loop n funcdef rest res
      | SIf condition body else_statements =>
          r <- run_if funcdef condition body else_statements ;;
          if snd r then ret r else statements_loop n funcdef rest (fst r)
      | SWhile condition body =>
          r <- run_while n funcdef condition body ;;
          if snd r then ret r else statements_loop n funcdef rest (fst r)
      | SReturn expression => run_return funcdef expression
      end
  end.

(** [__run_statements] *)
Definition run_statements_body (n : nat) (funcdef : FuncObj)
    (stmts : list Stmt) : M (loc * bool) :=
  res <- new_Value (return_type funcdef) PNone ;;
  statements_loop n funcdef stmts res.

(** [__eval_convert] *)
Definition eval_convert (to_type : string) (expr : Expr) : M loc :=
  l <- eval_expr expr ;;
  val <- rd l ;;
  if String.eqb to_type "int" then
    match t val, v val with
    | INT, _ => ret l
    | STRING, PStr text =>
        match int_of_str text with
        | Some n => new_Value INT (PInt n)
        | None => error TYPE_ERROR
        end
    | BOOL, PBool b => new_Value INT (PInt (if b then 1 else 0))
    | STRING, _ | BOOL, _ => raise
    | _, _ => error TYPE_ERROR
    end
  else if String.eqb to_type "str" then
    match t val, v val with
    | STRING, _ => ret l
    | INT, p => new_Value STRING (PStr (py_str p))
    | BOOL, p => new_Value STRING (PStr (lower (py_str p)))
    | _, _ => error TYPE_ERROR
    end
  else if String.eqb to_type "bool" then
    match t val, v val with
    | BOOL, _ => ret l
    | INT, p => new_Value BOOL (PBool (negb (bool_decide (p = PInt 0))))
    | STRING, p => new_Value BOOL (PBool (negb (bool_decide (p = PStr ""))))
    | _, _ => error TYPE_ERROR
    end
  else error TYPE_ERROR.

(** The loop of [__get_var_value] over [suffix_name]; a non-empty rest
    of the list is [i < len(suffix_name) - 1]. *)
Fixpoint walk_get (value : loc) (subs : list string) : M loc :=
  match subs with
  | [] => ret value
  | sub :: r =>
      x <- rd value ;;
      when_ (is_None (v x)) (error FAULT_ERROR) ;;
      present <- reads (fun s => contains s sub (v x)) ;;
      when_ (negb present) (error NAME_ERROR) ;;
      (* every inner item must be an object, ending in an o *)
      (match r with
       | [] => ret tt
       | _ :: _ =>
           c <- last_of sub ;;
           when_ (negb (ascii_eqb c "o") && negb (isupper c))
             (error TYPE_ERROR)
       end) ;;
      next <- reads (fun s => getitem s (v x) sub) ;;
      walk_get next r
  end.

(** [__get_var_value] *)
Definition get_var_value (name : string) : M loc :=
  match split_dot name with
  | [] => raise
  | root :: suffix_name =>
      let variable :=
        present <- env_exists root ;;
        when_ (negb present) (error NAME_ERROR) ;;
        found <- env_get root ;;
        value <- lift_opt found ;;
        (* handle interface base types too *)
        (match suffix_name with
         | [] => ret tt
         | _ :: _ =>
             base_last_ltr <- last_of root ;;
             when_ (negb (isupper base_last_ltr) &&
                    negb (ascii_eqb base_last_ltr "o"))
               (error TYPE_ERROR)
         end) ;;
        walk_get value suffix_name in
      match suffix_name with
      | [] =>
          (* first-class functions: check if defined function, not
             variable *)
          s <- gets id ;;
          match overloads s root with
          | [key] =>
              func_obj <- lift_opt (Dict.get key (funcs s)) ;;
              new_Value FUNCTION (PFun func_obj)
          | _ :: _ :: _ => error NAME_ERROR
          | [] => variable
          end
      | _ :: _ => variable
      end
  end.

(** [eval_expr] *)
Definition eval_expr_body (expr : Expr) : M loc :=
  match expr with
  | EInt val => new_Value INT (PInt val)
  | EString val => new_Value STRING (PStr val)
  | EBool val => new_Value BOOL (PBool val)
  | ENil => new_Value OBJECT PNone
  | EEmptyObj => o <- new_dict ;; new_Value OBJECT (PObj o)
  | EQName name => get_var_value name
  | EFcall name args => run_fcall name args
  | ELambda name args stmts => create_lambda name args stmts
  | EBop kind op1 op2 =>
      l <- eval_expr op1 ;;
      r <- eval_expr op2 ;;
      vl <- rd l ;;
      vr <- rd r ;;
      res <- reads (fun _ => eval_binary_op kind vl vr) ;;
      alloc res
  | ENeg op1 =>
      l <- eval_expr op1 ;;
      o <- rd l ;;
      match t o, v o with
      | INT, PInt n => new_Value INT (PInt (- n))
      | INT, _ => raise
      | _, _ => error TYPE_ERROR
      end
  | ENot op1 =>
      l <- eval_expr op1 ;;
      o <- rd l ;;
      match t o, v o with
      | BOOL, PBool b => new_Value BOOL (PBool (negb b))
      | BOOL, _ => raise
      | _, _ => error TYPE_ERROR
      end
  | EConvert to_type e => eval_convert to_type e
  end.

End Evaluator.

(** The two mutually recursive methods, with a bound on the depth of the
    recursion and on the iterations of each loop. *)
Fixpoint eval_expr (fuel : nat) (expr : Expr) {struct fuel} : M loc :=
  match fuel with
  | O => out_of_fuel
  | S n => eval_expr_body (eval_expr n) (run_statements n) expr
  end
with run_statements (fuel : nat) (funcdef : FuncObj) (stmts : list Stmt)
    {struct fuel} : M (loc * bool) :=
  match fuel with
  | O => out_of_fuel
  | S n => run_statements_body (eval_expr n) (run_statements n) n funcdef stmts
  end.

(** [Interpreter.run], on the parsed program. *)
Definition run (fuel : nat) (ast : Program) : M unit :=
  create_interface_table ast ;;
  create_function_table ast ;;
  _ <- run_fcall (eval_expr fuel) (run_statements fuel) "main" [] ;;
  ret tt.

(** The lines a program writes, from an empty interpreter. *)
Definition run_program (fuel : nat) (ast : Program) (inp : list string)
  : Res (list string) :=
  rbind (run fuel ast (initial_state inp)) (fun r => Ok (output (snd r))).

(** * Example programs and values used in the properties *)

Definition VInt (z : Z) : Value := mkValue INT (PInt z).

(** [def main() { var ff; print(ff == nil); print(ff != nil); }] *)
Definition nil_function_program : Program :=
  mkProgram None
    [ mkFuncDecl "main" []
        [ SVarDef "ff";
          SFcall "print" [EBop Eq (EQName "ff") ENil];
          SFcall "print" [EBop Ne (EQName "ff") ENil] ] ].

(** [def main() { var ao; var bo; ao = @; bo = ao; print(ao == bo);
    print(@ == @); print(ao != bo); }] *)
Definition object_identity_program : Program :=
  mkProgram None
    [ mkFuncDecl "main" []
        [ SVarDef "ao"; SVarDef "bo";
          SAssign "ao" EEmptyObj; SAssign "bo" (EQName "ao");
          SFcall "print" [EBop Eq (EQName "ao") (EQName "bo")];
          SFcall "print" [EBop Eq EEmptyObj EEmptyObj];
          SFcall "print" [EBop Ne (EQName "ao") (EQName "bo")] ] ].

(** A state in which the variable [gf] of the current frame holds the Int
    5 while one declared function is named [gf]. *)
Definition shadowed_function_state : State :=
  mkState [VInt 5] [] [Function_init "gf" [] []] [(("gf", ""), 0%nat)] []
    [[[("gf", 0%nat)]]] [] [].

(** A frame with the function scope holding [xi] and one open block. *)
Definition nested_block_state : State :=
  mkState [VInt 1] [] [] [] [] [[[("xi", 0%nat)]; []]] [] [].

(** [def main() { var ao; ao.mf(); }] *)
Definition nil_receiver_program : Program :=
  mkProgram None
    [ mkFuncDecl "main" [] [ SVarDef "ao"; SFcall "ao.mf" [] ] ].

(** [def main() { gi(print()); }]: no function is named [gi]. *)
Definition void_argument_program : Program :=
  mkProgram None
    [ mkFuncDecl "main" [] [ SFcall "gi" [EFcall "print" []] ] ].

(** The letter of a runtime tag in a signature. *)
Definition tag_letter (ty : BType) : string :=
  match ty with
  | INT => "i" | STRING => "s" | BOOL => "b" | OBJECT => "o"
  | FUNCTION => "f" | VOID => "" | ERROR => ""
  end.

(** The signature of a list of evaluated arguments: the letters of their
    runtime tags, in order. *)
Definition signature_of (vals : list Value) : string :=
  fold_right (fun x rest => (tag_letter (t x) ++ rest)%string) "" vals.

(** [def ff(xi) {} def ff(xi, yi) {} def main() {}], the function table
    built from it, and a state with that table and one empty frame. *)
Definition overloaded_program : Program :=
  mkProgram None
    [ mkFuncDecl "ff" [mkArg "xi" false] [];
      mkFuncDecl "ff" [mkArg "xi" false; mkArg "yi" false] [];
      mkFuncDecl "main" [] [] ].

Definition overloaded_state : State :=
  match create_function_table overloaded_program (initial_state []) with
  | Ok (_, s) => set_env s [[[]]]
  | _ => initial_state []
  end.

(** ** Structural satisfaction, as the specification words it *)

(** The object behind the payload [p] has a field [name], held by the
    wrapper [l]. *)
Definition has_field (s : State) (p : Payload) (name : string) (l : loc)
  : Prop :=
  exists o d, p = PObj o /\ objs s !! o = Some d /\ Dict.get name d = Some l.

(** A descriptor matches a recorded signature: the same parameter count
    and, in order, the same declared type and the same reference flag. *)
Definition signature_matches (fo : FuncObj) (sig : list (BType * bool))
  : Prop :=
  length (formal_args fo) = length sig /\
  forall i formal_name ty r,
    Dict.keys (formal_args fo) !! i = Some formal_name ->
    sig !! i = Some (ty, r) ->
    get_type formal_name = ty /\
    Dict.get formal_name (formal_args fo) = Some r.

(** A non-nil candidate satisfies an interface: it is tagged Object, every
    required field is a field of the object whose runtime tag is the
    required type, and every required method is a field tagged Function
    whose descriptor matches the recorded signature. *)
Definition satisfies (s : State) (iface : Interface) (obj : Value) : Prop :=
  t obj = OBJECT /\
  (forall name ty, In (name, ty) (field_vars iface) ->
     exists l x,
       has_field s (v obj) name l /\ cells s !! l = Some x /\ t x = ty) /\
  (forall name sig, In (name, sig) (field_funcs iface) ->
     exists l x f fo,
       has_field s (v obj) name l /\ cells s !! l = Some x /\
       t x = FUNCTION /\ v x = PFun f /\ fobjs s !! f = Some fo /\
       signature_matches fo sig).

(** [interface Q { xi; }  def main() { var pQ; var ao; var bo; ao = @;
    bo = @; bo.xi = 1; pQ = rhs; print("bound"); }] *)
Definition interface_binding_program (rhs : Expr) : Program :=
  mkProgram
    (Some [ mkInterfaceDecl "Q" [FIELD_VAR "xi"] ])
    [ mkFuncDecl "main" []
        [ SVarDef "pQ"; SVarDef "ao"; SVarDef "bo";
          SAssign "ao" EEmptyObj; SAssign "bo" EEmptyObj;
          SAssign "bo.xi" (EInt 1);
          SAssign "pQ" rhs; SFcall "print" [EString "bound"] ] ].

(** A state with the interface [Q { xi; }], an object without fields
    held by the wrapper 0, and a nil Object held by the wrapper 1. *)
Definition interface_state : State :=
  mkState [mkValue OBJECT (PObj 0%nat); mkValue OBJECT PNone] [[]] []
    [] [("Q", Interface_init "Q" [FIELD_VAR "xi"])] [[[]]] [] [].

(** [def fv(&xi, po) { po.xi = 7; print(xi); print(po.xi); }
    def main() { var po; po = @; po.xi = 1; fv(po.xi, po); print(po.xi); }]:
    inside [fv] the reference parameter [xi] is the wrapper that was the
    field [xi] of the object at the time of the call. *)
Definition field_alias_program : Program :=
  mkProgram None
    [ mkFuncDecl "fv" [mkArg "xi" true; mkArg "po" false]
        [ SAssign "po.xi" (EInt 7);
          SFcall "print" [EQName "xi"];
          SFcall "print" [EQName "po.xi"] ];
      mkFuncDecl "main" []
        [ SVarDef "po"; SAssign "po" EEmptyObj; SAssign "po.xi" (EInt 1);
          SFcall "fv" [EQName "po.xi"; EQName "po"];
          SFcall "print" [EQName "po.xi"] ] ].

(** The declared type [ty] of the target of an assignment accepts the
    value [rv]: a nil payload goes into an Object or Function target, any
    other payload into a target of the value's runtime tag. *)
Definition accepts (ty : BType) (rv : Value) : Prop :=
  (v rv = PNone /\ (ty = OBJECT \/ ty = FUNCTION)) \/
  (v rv <> PNone /\ ty = t rv).

(** The attributes of [x] are what the constructor of [Value] gives for
    them; every wrapper the interpreter builds is such. *)
Definition constructed (x : Value) : Prop := Value_init (t x) (v x) = Some x.

(** The type check of an assignment to a target whose last segment is
    [last_name] passes, respectively fails: a target named after an
    interface takes an Object value that satisfies the interface, any
    other target a value its declared type accepts. *)
Definition accepted (s : State) (last_name : string) (rv : Value) : Prop :=
  match get_interface_name last_name with
  | Some interface_name =>
      t rv = OBJECT /\ interface_satisfaction s rv interface_name = Ok true
  | None => accepts (get_type last_name) rv
  end.

Definition rejected (s : State) (last_name : string) (rv : Value) : Prop :=
  match get_interface_name last_name with
  | Some interface_name =>
      t rv <> OBJECT \/ interface_satisfaction s rv interface_name = Ok false
  | None => ~ accepts (get_type last_name) rv
  end.

(** The object [po] with the field [xi], held by the wrapper 1. *)
Definition object_state : State :=
  mkState [mkValue OBJECT (PObj 0%nat); VInt 1] [[("xi", 1%nat)]] []
    [] [] [[[("po", 0%nat)]]] [] [].

(** [def main() { var xi; var po; var gf; xi = 1; po = @; po.vi = 1;
    gf = lambda() { print(xi); print(po.vi); po.wi = 9; };
    xi = 2; po.vi = 2; gf(); print(po.wi); print(xi); }] *)
Definition capture_program : Program :=
  mkProgram None
    [ mkFuncDecl "main" []
        [ SVarDef "xi"; SVarDef "po"; SVarDef "gf";
          SAssign "xi" (EInt 1); SAssign "po" EEmptyObj;
          SAssign "po.vi" (EInt 1);
          SAssign "gf"
            (ELambda "lv" []
               [ SFcall "print" [EQName "xi"];
                 SFcall "print" [EQName "po.vi"];
                 SAssign "po.wi" (EInt 9) ]);
          SAssign "xi" (EInt 2); SAssign "po.vi" (EInt 2);
          SFcall "gf" [];
          SFcall "print" [EQName "po.wi"];
          SFcall "print" [EQName "xi"] ] ].

(** A frame in which [xi] holds 1 and [po] holds an object. *)
Definition capture_state : State :=
  mkState [VInt 1; mkValue OBJECT (PObj 0%nat)] [[]] [] [] []
    [[[("xi", 0%nat); ("po", 1%nat)]]] [] [].

(** One block poured into the dictionary of captured variables: the inner
    loop of [capture_vars]. *)
Definition pour (captured : dict loc) (block : dict loc) : dict loc :=
  fold_left (fun c '(name, val) => Dict.set name val c) block captured.

(** [def NAME(&xi) { xi = xi + 1; }
    def main() { var ti; ti = 5; NAME(ti); print(ti); }] *)
Definition bump_program (name : string) : Program :=
  mkProgram None
    [ mkFuncDecl name [mkArg "xi" true]
        [ SAssign "xi" (EBop Add (EQName "xi") (EInt 1)) ];
      mkFuncDecl "main" []
        [ SVarDef "ti"; SAssign "ti" (EInt 5);
          SFcall name [EQName "ti"]; SFcall "print" [EQName "ti"] ] ].

(** [def main() { var xi; var ti; var gf;
    gf = lambda(&xi) { xi = xi + 1; }; ti = 5; gf(ti); print(ti); }]:
    the lambda captures the outer [xi], so its reference parameter [xi]
    is bound by writing the captured wrapper. *)
Definition shadowing_lambda_program : Program :=
  mkProgram None
    [ mkFuncDecl "main" []
        [ SVarDef "xi"; SVarDef "ti"; SVarDef "gf";
          SAssign "gf"
            (ELambda "lv" [mkArg "xi" true]
               [ SAssign "xi" (EBop Add (EQName "xi") (EInt 1)) ]);
          SAssign "ti" (EInt 5);
          SFcall "gf" [EQName "ti"]; SFcall "print" [EQName "ti"] ] ].

(** The interface check of a call lets the value [val] through for the
    formal parameter [p]. *)
Definition arg_passes (s : State) (p : string) (val : Value) : Prop :=
  match get_interface_name p with
  | Some interface_name =>
      t val = OBJECT /\ interface_satisfaction s val interface_name = Ok true
  | None => True
  end.

(** The state of [bump_program "bumpv"] when [main] is about to call
    [bumpv(ti)]: the tables of the program, and [ti] holding 5. *)
Definition bump_state : State :=
  match create_function_table (bump_program "bumpv") (initial_state []) with
  | Ok (_, s) => set_env (set_cells s [VInt 5]) [[[("ti", 0%nat)]]]
  | _ => initial_state []
  end.

(** [def main() { var xi; xi = 1; if (true) { bvar xi; xi = 2; print(xi); }
    print(xi); }], followed by a second [var xi;] when [redefine] holds. *)
Definition scoping_program (redefine : bool) : Program :=
  mkProgram None
    [ mkFuncDecl "main" []
        ([ SVarDef "xi"; SAssign "xi" (EInt 1);
           SIf (EBool true)
             [ SBVarDef "xi"; SAssign "xi" (EInt 2);
               SFcall "print" [EQName "xi"] ]
             None;
           SFcall "print" [EQName "xi"] ]
         ++ (if redefine then [SVarDef "xi"] else [])) ].

(** [def gf() {}  def main() { var gf; print(gf == nil); }]: the variable
    [gf] is nil, the name [gf] in the expression is the declared
    function. *)
Definition function_name_program : Program :=
  mkProgram None
    [ mkFuncDecl "gf" [] [];
      mkFuncDecl "main" []
        [ SVarDef "gf"; SFcall "print" [EBop Eq (EQName "gf") ENil] ] ].

(** ** What a run keeps *)

(** Every object of [o1] is an object of [o2], with the fields it had, in
    the same order, and possibly more after them. *)
Definition fields_kept (o1 o2 : list (dict loc)) : Prop :=
  forall o d, o1 !! o = Some d ->
    exists d' more, o2 !! o = Some d' /\ Dict.keys d' = Dict.keys d ++ more.

(** The tables of [s'] are those of [s], no Function object, wrapper,
    object or field of [s] is missing in [s'], and the output and the
    consumed input of [s'] extend those of [s]. *)
Definition grows (s s' : State) : Prop :=
  funcs s' = funcs s /\
  interfaces s' = interfaces s /\
  (exists more, fobjs s' = fobjs s ++ more) /\
  (length (cells s) <= length (cells s'))%nat /\
  fields_kept (objs s) (objs s') /\
  (exists more, output s' = output s ++ more) /\
  (exists used, input s = used ++ input s').

(** [s'] has the environment of [s]. *)
Definition same_env (s s' : State) : Prop :=
  grows s s' /\ env s' = env s.

(** [s'] has the frames of [s] below the current one, and its current
    frame has as many blocks as the current frame of [s]. *)
Definition same_frames (s s' : State) : Prop :=
  grows s s' /\
  removelast (env s') = removelast (env s) /\
  option_map (@length (dict loc)) (Environment.top (env s')) =
    option_map (@length (dict loc)) (Environment.top (env s)).

(** Every successful run of [m] relates the states before and after by
    [R]. *)
Definition keeps {A} (R : State -> State -> Prop) (m : M A) : Prop :=
  forall s a s', m s = Ok (a, s') -> R s s'.

(** From a state that satisfies [P], a successful run of [m] ends in a
    state that satisfies [Q] and that [grows] from the start. *)
Definition triple {A} (P : State -> Prop) (m : M A) (Q : State -> Prop) : Prop :=
  forall s a s', P s -> m s = Ok (a, s') -> grows s s' /\ Q s'.

Definition env_is (E : list Environment.frame) (s : State) : Prop :=
  env s = E.

(** The frames below the current one are [E]; the current frame, if there
    is one, has [n] blocks. *)
Definition in_frame (E : list Environment.frame) (n : option nat) (s : State)
  : Prop :=
  removelast (env s) = E /\
  option_map (@length (dict loc)) (Environment.top (env s)) = n.

(** The state in which [main] of a program is called: both tables built,
    no frame yet. *)
Definition loaded (ast : Program) : State :=
  match (create_interface_table ast ;; create_function_table ast)
          (initial_state []) with
  | Ok (_, s) => s
  | _ => initial_state []
  end.

(** The table of [__eval_binary_op] below [==] and [!=]: the tag of the
    result of the operator [kind] on two operands tagged [ty], [None]
    where the operator is not defined on this tag. *)
Definition operator_result (kind : Bop) (ty : BType) : option BType :=
  match ty, kind with
  | STRING, Add => Some STRING
  | INT, (Add | Sub | Mul | Div) => Some INT
  | INT, (Lt | Le | Gt | Ge) => Some BOOL
  | BOOL, (And | Or) => Some BOOL
  | _, _ => None
  end.

(** An Int wrapper holds an int, a String wrapper a str, a Bool wrapper a
    bool. *)
Definition holds_own_type (x : Value) : Prop :=
  match t x, v x with
  | INT, PInt _ | STRING, PStr _ | BOOL, PBool _ => True
  | INT, _ | STRING, _ | BOOL, _ => False
  | _, _ => True
  end.

(** ** The tables *)

(** The entry of the function table that a declaration makes: the key is
    the name with the parameter signature, the value is the Function
    object built from the declaration. *)
Definition declares (s : State) (fd : FuncDecl)
    (entry : (string * string) * floc) : Prop :=
  fst (fst entry) = fd_name fd /\
  get_parameters_type_signature (fd_args fd) = Ok (snd (fst entry)) /\
  fobjs s !! snd entry =
    Some (Function_init (fd_name fd) (fd_args fd) (fd_statements fd)) /\
  get_return_type (fd_name fd) <> ERROR.

(** The entry of the interface table that a declaration makes. *)
Definition declares_interface (d : InterfaceDecl)
    (entry : string * Interface) : Prop :=
  fst entry = id_name d /\
  snd entry = Interface_init (id_name d) (id_fields d) /\
  (exists c, id_name d = String c EmptyString /\ isupper c = true) /\
  NoDup (map field_name (id_fields d)).

(** One round of the loop of [__create_function_table]. *)
Definition register_function (func : FuncDecl) : M unit :=
  let name := fd_name func in
  param_type_sig <-
    reads (fun _ => get_parameters_type_signature (fd_args func)) ;;
  let func_obj := Function_init name (fd_args func) (fd_statements func) in
  (if bool_decide (return_type func_obj = ERROR) then error TYPE_ERROR
   else ret tt) ;;
  let type_sig := (name, param_type_sig) in
  known <- gets funcs ;;
  (if Dict.mem type_sig known then error NAME_ERROR else ret tt) ;;
  f <- new_fobj func_obj ;;
  modify (fun s => set_funcs s (Dict.set type_sig f (funcs s))).

(** One round of the loop of [__create_interface_table]. *)
Definition register_interface (interface : InterfaceDecl) : M unit :=
  let name := id_name interface in
  (if negb (is_upper_letter_name name) then error NAME_ERROR
   else ret tt) ;;
  known <- gets interfaces ;;
  (if Dict.mem name known then error NAME_ERROR else ret tt) ;;
  let fields := id_fields interface in
  (if has_duplicate_names fields [] then error NAME_ERROR
   else ret tt) ;;
  modify (fun s =>
    set_interfaces s
      (Dict.set name (Interface_init name fields) (interfaces s))).

(** [def main(xi) {} def gi() {}] and [def gi() {}]: no [main] without
    parameters. *)
Definition no_entry_program (with_main : bool) : Program :=
  mkProgram None
    ((if with_main then [mkFuncDecl "main" [mkArg "xi" false] []] else [])
     ++ [mkFuncDecl "gi" [] []]).

(** ** The value of a [return] *)

(** A statement list that ended in a [return] hands over a wrapper of
    the store, tagged with the return type of [fd]. *)
Definition returns_typed (fd : FuncObj) (r : loc * bool) (s : State) : Prop :=
  snd r = true ->
  exists x, cells s !! fst r = Some x /\ t x = return_type fd.

(** ** Conversions *)


(** ** Paths through objects *)

(** A segment that may be followed by another one: its last letter is
    [o] or an uppercase letter. *)
Definition object_named (sub : string) : bool :=
  match last_char sub with
  | Some c => ascii_eqb c "o" || isupper c
  | None => false
  end.

(** From the wrapper [l], the fields [subs], each in a non-nil object and
    each named as an object, lead to the wrapper [l']. *)
Inductive reaches (s : State) : loc -> list string -> loc -> Prop :=
  | reaches_here l : reaches s l [] l
  | reaches_field l sub rest x o d next l' :
      cells s !! l = Some x -> v x = PObj o -> objs s !! o = Some d ->
      Dict.get sub d = Some next -> object_named sub = true ->
      reaches s next rest l' ->
      reaches s l (sub :: rest) l'.

(** A state in which the variable [ao] holds an object whose field [bo]
    is nil and whose field [xi] is 1. *)
Definition path_state : State :=
  mkState [mkValue OBJECT (PObj 0%nat); mkValue OBJECT PNone; VInt 1]
    [[("bo", 1%nat); ("xi", 2%nat)]] [] [] []
    [[[("ao", 0%nat)]]] [] [].

(** A state in which the variable [hf] holds the function [hf(xi)] of
    the table, the variable [nf] holds the nil function, and a function
    [nf()] is declared. *)
Definition function_variable_state : State :=
  mkState [mkValue FUNCTION (PFun 0%nat); mkValue FUNCTION PNone]
    [] [Function_init "hf" [mkArg "xi" false] []; Function_init "nf" [] []]
    [(("hf", "i"), 0%nat); (("nf", ""), 1%nat)] []
    [[[("hf", 0%nat); ("nf", 1%nat)]]] [] [].

(** A state in which the function [gv(po)] is declared and the variable
    [ao] holds an object. *)
Definition value_call_state : State :=
  mkState [mkValue OBJECT (PObj 0%nat)] [[]]
    [Function_init "gv" [mkArg "po" false] []]
    [(("gv", "o"), 0%nat)] [] [[[("ao", 0%nat)]]] [] [].

(** ** The objects built from declarations *)

(** The entry of [field_vars] that a field of an interface makes, and the
    entry of [field_funcs]. *)
Definition var_entry (f : Field) : option (string * BType) :=
  match f with
  | FIELD_VAR name => Some (name, get_type name)
  | FIELD_FUNC _ _ => None
  end.

Definition func_entry (f : Field) : option (string * list (BType * bool)) :=
  match f with
  | FIELD_VAR _ => None
  | FIELD_FUNC name params =>
      Some (name, map (fun p => (get_type (arg_name p), arg_ref p)) params)
  end.

(** ** Method calls *)

(** As [reaches], through fields whose names end in [o]: the segments
    that [__run_method_call] walks. *)
Inductive reaches_receiver (s : State) : loc -> list string -> loc -> Prop :=
  | receiver_here l : reaches_receiver s l [] l
  | receiver_field l sub rest x o d next l' :
      cells s !! l = Some x -> v x = PObj o -> objs s !! o = Some d ->
      Dict.get sub d = Some next -> last_char sub = Some "o"%char ->
      reaches_receiver s next rest l' ->
      reaches_receiver s l (sub :: rest) l'.

(** A state in which the variable [ao] holds an object whose field [mf]
    is a lambda without parameters that captured a variable [selfo]. *)
Definition method_state : State :=
  mkState [mkValue OBJECT (PObj 0%nat); mkValue FUNCTION (PFun 0%nat); VInt 7]
    [[("mf", 1%nat)]]
    [Lambda_init "mf" [] [] [("selfo", 2%nat)]]
    [] [] [[[("ao", 0%nat)]]] [] [].

(** * Properties *)

(** ** Dictionaries *)

Section DictFacts.
Context {K : Type} `{EqDecision K} {V : Type}.
Implicit Types (d : Dict.dict K V) (k : K) (x : V).

Lemma get_set_eq k x d : Dict.get k (Dict.set k x d) = Some x.
Proof.
  induction d as [|[k' y] r IH]; simpl.
  - destruct (decide (k = k)); congruence.
  - destruct (decide (k = k')) as [->|Hne]; simpl.
    + destruct (decide (k' = k')); congruence.
    + destruct (decide (k = k')); congruence.
Qed.

Lemma get_set_ne k k' x d :
  k <> k' -> Dict.get k' (Dict.set k x d) = Dict.get k' d.
Proof.
  intros Hne. induction d as [|[k0 y] r IH]; simpl.
  - destruct (decide (k' = k)); congruence.
  - destruct (decide (k = k0)) as [->|Hne0]; simpl.
    + destruct (decide (k' = k0)); congruence.
    + destruct (decide (k' = k0)); congruence.
Qed.

Lemma mem_true k d : Dict.mem k d = true <-> exists x, Dict.get k d = Some x.
Proof.
  unfold Dict.mem. destruct (Dict.get k d); split; intros Hm; eauto;
    try discriminate.
  destruct Hm as [? Hm]; discriminate.
Qed.

Lemma mem_false k d : Dict.mem k d = false <-> Dict.get k d = None.
Proof. unfold Dict.mem. destruct (Dict.get k d); split; congruence. Qed.

Lemma get_In k x d : Dict.get k d = Some x -> In (k, x) d.
Proof.
  induction d as [|[k' y] r IH]; simpl; [discriminate|].
  destruct (decide (k = k')) as [->|]; intros Hg.
  - left; congruence.
  - right; auto.
Qed.

Lemma In_keys_get k d : In k (Dict.keys d) -> exists x, Dict.get k d = Some x.
Proof.
  induction d as [|[k' y] r IH]; simpl; [tauto|].
  intros [Heq|Hin]; destruct (decide (k = k')); eauto; congruence.
Qed.

Lemma get_None_keys k d : Dict.get k d = None -> ~ In k (Dict.keys d).
Proof.
  intros Hg Hin. apply In_keys_get in Hin as [x Hx]. congruence.
Qed.

(** In a dictionary every key occurs once, so an item is what [get]
    returns. *)
Lemma In_get k x d : NoDup (Dict.keys d) -> In (k, x) d -> Dict.get k d = Some x.
Proof.
  induction d as [|[k' y] r IH]; simpl; [tauto|].
  intros Hnd [Heq|Hin].
  - inversion Heq; subst. destruct (decide (k = k)); congruence.
  - apply NoDup_cons in Hnd as [Hnotin Hnd].
    destruct (decide (k = k')) as [->|]; auto.
    exfalso. apply Hnotin. apply list_elem_of_In.
    change (In (fst (k', x)) (map fst r)). now apply in_map.
Qed.

Lemma keys_set_old k x d :
  Dict.mem k d = true -> Dict.keys (Dict.set k x d) = Dict.keys d.
Proof.
  induction d as [|[k' y] r IH]; simpl; [discriminate|].
  unfold Dict.mem; simpl. destruct (decide (k = k')); simpl; [easy|].
  intros Hm. f_equal. apply IH. exact Hm.
Qed.

Lemma keys_set_new k x d :
  Dict.mem k d = false -> Dict.keys (Dict.set k x d) = Dict.keys d ++ [k].
Proof.
  induction d as [|[k' y] r IH]; simpl; [easy|].
  unfold Dict.mem; simpl. destruct (decide (k = k')); simpl; [discriminate|].
  intros Hm. f_equal. apply IH. exact Hm.
Qed.

Lemma set_NoDup k x d : NoDup (Dict.keys d) -> NoDup (Dict.keys (Dict.set k x d)).
Proof.
  intros Hnd. destruct (Dict.mem k d) eqn:Hm.
  - now rewrite keys_set_old.
  - rewrite keys_set_new by exact Hm.
    apply NoDup_app. split; [exact Hnd|]. split.
    + intros y Hy Hin. apply list_elem_of_In in Hin. simpl in Hin.
      destruct Hin as [->|[]].
      apply mem_false in Hm. apply get_None_keys in Hm.
      apply Hm. now apply list_elem_of_In.
    + apply NoDup_singleton.
Qed.
End DictFacts.

(** ** The monad *)

Lemma bind_Ok {A B} (m : M A) (k : A -> M B) s a s' :
  m s = Ok (a, s') -> bind m k s = k a s'.
Proof. unfold bind. now intros ->. Qed.

Lemma bind_Err {A B} (m : M A) (k : A -> M B) s e :
  m s = Err e -> bind m k s = Err e.
Proof. unfold bind. now intros ->. Qed.

Lemma bind_HostExn {A B} (m : M A) (k : A -> M B) s :
  m s = HostExn -> bind m k s = HostExn.
Proof. unfold bind. now intros ->. Qed.

Lemma bind_inv {A B} (m : M A) (k : A -> M B) s b s2 :
  bind m k s = Ok (b, s2) ->
  exists a s1, m s = Ok (a, s1) /\ k a s1 = Ok (b, s2).
Proof.
  unfold bind. destruct (m s) as [[a s1]| | |]; try discriminate. eauto.
Qed.

Lemma reads_Ok {A} (f : State -> Res A) s a :
  f s = Ok a -> reads f s = Ok (a, s).
Proof. unfold reads. now intros ->. Qed.

Lemma rd_Ok s l x : cells s !! l = Some x -> rd l s = Ok (x, s).
Proof. intros Hl. unfold rd, reads, cell. now rewrite Hl. Qed.

Lemma when_false m s : when_ false m s = Ok (tt, s).
Proof. reflexivity. Qed.

(** Rewriting a computation step by step along known results. *)
Ltac step H := first
  [ rewrite (bind_Ok _ _ _ _ _ H)
  | rewrite (bind_Err _ _ _ _ H)
  | rewrite (bind_HostExn _ _ _ H) ].

(** ** Names *)

#[local] Arguments String.append !_ _ / : simpl nomatch.

Lemma append_empty_r (cur : string) : (cur ++ "")%string = cur.
Proof. induction cur as [|a cur IH]; simpl; congruence. Qed.

Lemma append_snoc (cur r : string) (c : ascii) :
  ((cur ++ String c "") ++ r)%string = (cur ++ String c r)%string.
Proof. induction cur as [|a cur IH]; simpl; congruence. Qed.

Lemma split_dot_aux_plain s cur :
  has_dot s = false -> split_dot_aux s cur = [(cur ++ s)%string].
Proof.
  revert cur. induction s as [|c r IH]; intros cur; simpl.
  - intros _. now rewrite append_empty_r.
  - destruct (ascii_eqb c ".") eqn:Hc; simpl; [discriminate|].
    intros Hr. rewrite IH by exact Hr. now rewrite append_snoc.
Qed.

(** A name without a dot is its own single segment. *)
Lemma split_dot_plain name : has_dot name = false -> split_dot name = [name].
Proof. intros Hd. unfold split_dot. now rewrite split_dot_aux_plain. Qed.

(** ** Wrappers *)

Lemma alloc_Ok x s :
  alloc x s = Ok (length (cells s), set_cells s (cells s ++ [x])).
Proof. reflexivity. Qed.

Lemma new_Value_Ok ty p x s :
  Value_init ty p = Some x ->
  new_Value ty p s = Ok (length (cells s), set_cells s (cells s ++ [x])).
Proof. intros Hx. unfold new_Value. now rewrite Hx. Qed.

Lemma lookup_snoc_last {A} (l : list A) (x : A) : (l ++ [x]) !! length l = Some x.
Proof.
  rewrite lookup_app_r by lia. now replace (length l - length l)%nat with 0%nat by lia.
Qed.

Lemma lookup_snoc_old {A} (l : list A) (x : A) (i : nat) :
  (i < length l)%nat -> (l ++ [x]) !! i = l !! i.
Proof. intros Hi. now rewrite lookup_app_l. Qed.

Lemma eval_EInt n a s :
  eval_expr (S n) (EInt a) s =
    Ok (length (cells s), set_cells s (cells s ++ [VInt a])).
Proof. reflexivity. Qed.

(** ** Integer division (C8) *)

Lemma Div_Int a b :
  b <> 0 -> eval_binary_op Div (VInt a) (VInt b) = Ok (VInt (a / b)).
Proof.
  intros Hb. unfold eval_binary_op, VInt; simpl.
  destruct (Z.eqb_spec b 0); [contradiction|reflexivity].
Qed.

(** The value of an operator expression on two integer literals. *)
Lemma eval_Bop_literals kind a b q fuel s :
  eval_binary_op kind (VInt a) (VInt b) = Ok q ->
  eval_expr (S (S fuel)) (EBop kind (EInt a) (EInt b)) s =
    Ok (S (S (length (cells s))),
        set_cells s (cells s ++ [VInt a; VInt b; q])).
Proof.
  intros Hop. cbn [eval_expr eval_expr_body].
  step (eval_EInt fuel a s).
  step (eval_EInt fuel b (set_cells s (cells s ++ [VInt a]))).
  cbn [cells set_cells].
  erewrite (bind_Ok (rd _));
    [|apply rd_Ok; cbn [cells set_cells]; rewrite lookup_snoc_old;
      [apply lookup_snoc_last | rewrite length_app; simpl; lia]].
  erewrite (bind_Ok (rd _));
    [|apply rd_Ok; cbn [cells set_cells]; apply lookup_snoc_last].
  erewrite (bind_Ok (reads _)); [|apply reads_Ok; exact Hop].
  rewrite alloc_Ok. unfold set_cells; cbn.
  rewrite !length_app. simpl. rewrite <- !app_assoc. simpl.
  repeat f_equal; lia.
Qed.

(** C8.  For Int operands [a] and [b] with [b] not zero, the operator [/]
    returns the Int [q] that is the floor of the rational a/b: [q] is the
    one integer with [q*b <= a < (q+1)*b] for a positive divisor and with
    [(q+1)*b < a <= q*b] for a negative one; the same holds when the
    operands are the integer literals of a division expression, whose
    value is a new Int wrapper.  [-7 / 2] is [-4]. *)
Theorem C8_division_is_floor (a b : Z) (fuel : nat) (s : State) :
  b <> 0 ->
  exists q,
    eval_binary_op Div (VInt a) (VInt b) = Ok (VInt q) /\
    (0 < b -> q * b <= a < (q + 1) * b) /\
    (b < 0 -> (q + 1) * b < a <= q * b) /\
    eval_expr (S (S fuel)) (EBop Div (EInt a) (EInt b)) s =
      Ok (S (S (length (cells s))),
          set_cells s (cells s ++ [VInt a; VInt b; VInt q])) /\
    eval_binary_op Div (VInt (-7)) (VInt 2) = Ok (VInt (-4)).
Proof.
  intros Hb. exists (a / b).
  pose proof (Div_Int a b Hb) as Hop.
  split; [exact Hop|].
  split; [|split; [|split]].
  - intros Hpos. pose proof (Z.mod_pos_bound a b Hpos) as Hm.
    pose proof (Z.div_mod a b Hb) as Hd. nia.
  - intros Hneg. pose proof (Z.mod_neg_bound a b Hneg) as Hm.
    pose proof (Z.div_mod a b Hb) as Hd. nia.
  - now apply eval_Bop_literals.
  - reflexivity.
Qed.

Lemma C8_division_is_floor_witness :
  exists q,
    eval_binary_op Div (VInt (-7)) (VInt 2) = Ok (VInt q) /\
    (0 < 2 -> q * 2 <= -7 < (q + 1) * 2) /\
    (2 < 0 -> (q + 1) * 2 < -7 <= q * 2) /\
    eval_expr 2 (EBop Div (EInt (-7)) (EInt 2)) (initial_state []) =
      Ok (2%nat,
          set_cells (initial_state []) [VInt (-7); VInt 2; VInt q]) /\
    eval_binary_op Div (VInt (-7)) (VInt 2) = Ok (VInt (-4)).
Proof.
  apply (C8_division_is_floor (-7) 2 0 (initial_state [])). lia.
Defined.

(** ** Equality (C3) *)

(** C3, as the claim states it, fails: a Function value whose payload is
    nil compared against a nil Object is equal, since the test for two nil
    payloads comes first. *)
Lemma C3_nil_function_equals_nil :
  eval_binary_op Eq (mkValue FUNCTION PNone) (mkValue OBJECT PNone)
    = Ok (VBool true) /\
  eval_binary_op Ne (mkValue FUNCTION PNone) (mkValue OBJECT PNone)
    = Ok (VBool false) /\
  run_program 10 nil_function_program [] = Ok ["true"; "false"].
Proof. repeat split; vm_compute; reflexivity. Qed.

(** C3, amended.  Two values whose payloads are both nil are equal
    whatever their tags.  A Function value with a non-nil payload and a
    nil Object are unequal, in either order.  Two Object values, and two
    Function values, are equal exactly when their payloads are the same
    reference; the field dictionaries behind the references are not
    looked at. *)
Theorem C3_equality (vl vr : Value) :
  (v vl = PNone -> v vr = PNone ->
     eval_binary_op Eq vl vr = Ok (VBool true) /\
     eval_binary_op Ne vl vr = Ok (VBool false)) /\
  (t vl = FUNCTION -> v vl <> PNone -> t vr = OBJECT -> v vr = PNone ->
     eval_binary_op Eq vl vr = Ok (VBool false) /\
     eval_binary_op Ne vl vr = Ok (VBool true) /\
     eval_binary_op Eq vr vl = Ok (VBool false) /\
     eval_binary_op Ne vr vl = Ok (VBool true)) /\
  ((t vl = OBJECT /\ t vr = OBJECT) \/ (t vl = FUNCTION /\ t vr = FUNCTION) ->
     eval_binary_op Eq vl vr = Ok (VBool (bool_decide (v vl = v vr))) /\
     eval_binary_op Ne vl vr = Ok (VBool (negb (bool_decide (v vl = v vr))))) /\
  (forall o1 o2, vl = mkValue OBJECT (PObj o1) -> vr = mkValue OBJECT (PObj o2) ->
     eval_binary_op Eq vl vr = Ok (VBool (bool_decide (o1 = o2)))) /\
  (forall f1 f2, vl = mkValue FUNCTION (PFun f1) -> vr = mkValue FUNCTION (PFun f2) ->
     eval_binary_op Eq vl vr = Ok (VBool (bool_decide (f1 = f2)))) /\
  run_program 10 object_identity_program [] = Ok ["true"; "false"; "false"].
Proof.
  destruct vl as [tl pl], vr as [tr pr]; simpl.
  split; [|split; [|split; [|split; [|split]]]].
  - intros -> ->. split; reflexivity.
  - intros -> Hl -> ->. destruct pl; try congruence; repeat split; reflexivity.
  - intros [[-> ->]|[-> ->]]; unfold eval_binary_op, py_is; simpl;
      destruct pl, pr; simpl; split; reflexivity.
  - intros o1 o2 Hl Hr. inversion Hl; inversion Hr; subst.
    unfold eval_binary_op, py_is; simpl. do 2 f_equal.
    destruct (decide (o1 = o2)) as [->|Hne].
    + rewrite !bool_decide_eq_true_2; auto.
    + rewrite !bool_decide_eq_false_2; auto. congruence.
  - intros f1 f2 Hl Hr. inversion Hl; inversion Hr; subst.
    unfold eval_binary_op, py_is; simpl. do 2 f_equal.
    destruct (decide (f1 = f2)) as [->|Hne].
    + rewrite !bool_decide_eq_true_2; auto.
    + rewrite !bool_decide_eq_false_2; auto. congruence.
  - vm_compute. reflexivity.
Qed.

Lemma C3_equality_witness :
  eval_binary_op Eq (mkValue FUNCTION (PFun 0%nat)) (mkValue OBJECT PNone)
    = Ok (VBool false) /\
  eval_binary_op Eq (mkValue OBJECT PNone) (mkValue FUNCTION PNone)
    = Ok (VBool true) /\
  eval_binary_op Eq (mkValue OBJECT (PObj 0%nat)) (mkValue OBJECT (PObj 1%nat))
    = Ok (VBool false).
Proof.
  split; [|split].
  - destruct (C3_equality (mkValue FUNCTION (PFun 0%nat)) (mkValue OBJECT PNone))
      as (_ & H & _).
    apply H; [reflexivity|discriminate|reflexivity|reflexivity].
  - destruct (C3_equality (mkValue OBJECT PNone) (mkValue FUNCTION PNone))
      as (H & _).
    apply H; reflexivity.
  - destruct (C3_equality (mkValue OBJECT (PObj 0%nat)) (mkValue OBJECT (PObj 1%nat)))
      as (_ & _ & _ & H & _).
    apply (H 0%nat 1%nat); reflexivity.
Defined.

(** ** Names of declared functions as values (C10) *)

(** C10.  Evaluating a single-segment name borne by exactly one declared
    function yields a new Function wrapper around that function's
    descriptor, whatever the environment holds under the name; when two or
    more declared overloads bear the name the evaluation ends in NameError,
    whatever the environment holds.  In [function_name_program] the nil
    variable [gf] compared with nil prints false, because the name is
    read as the declared function. *)
Theorem C10_function_name (s : State) (name : string) (fuel : nat) :
  has_dot name = false ->
  (forall key, overloads s name = [key] ->
     exists f,
       Dict.get key (funcs s) = Some f /\
       eval_expr (S fuel) (EQName name) s =
         Ok (length (cells s),
             set_cells s (cells s ++ [mkValue FUNCTION (PFun f)]))) /\
  (forall key1 key2 more, overloads s name = key1 :: key2 :: more ->
     eval_expr (S fuel) (EQName name) s = Err NAME_ERROR) /\
  run_program 10 function_name_program [] = Ok ["false"].
Proof.
  intros Hplain. split; [|split; [|vm_compute; reflexivity]].
  - intros key Hone.
    assert (Hin : In key (Dict.keys (funcs s))).
    { assert (Hk : key ∈ overloads s name) by (rewrite Hone; left).
      unfold overloads in Hk. apply list_elem_of_filter in Hk as [_ Hk].
      now apply list_elem_of_In. }
    apply In_keys_get in Hin as [f Hf]. exists f. split; [exact Hf|].
    cbn [eval_expr eval_expr_body]. unfold get_var_value.
    rewrite (split_dot_plain name Hplain).
    unfold bind at 1. cbn [gets id]. rewrite Hone.
    unfold bind at 1. rewrite Hf. reflexivity.
  - intros key1 key2 more Hmany.
    cbn [eval_expr eval_expr_body]. unfold get_var_value.
    rewrite (split_dot_plain name Hplain).
    unfold bind at 1. cbn [gets id]. rewrite Hmany. reflexivity.
Qed.

Lemma C10_function_name_witness :
  Environment.get "gf" (env shadowed_function_state) = Some (Some 0%nat) /\
  eval_expr 1 (EQName "gf") shadowed_function_state =
    Ok (1%nat,
        set_cells shadowed_function_state
          [VInt 5; mkValue FUNCTION (PFun 0%nat)]).
Proof.
  split; [reflexivity|].
  destruct (C10_function_name shadowed_function_state "gf" 0 eq_refl) as [H _].
  destruct (H ("gf", "") eq_refl) as (f & Hf & He).
  vm_compute in Hf. injection Hf as <-. exact He.
Defined.

(** ** The environment *)

Lemma top_set_top fr e : Environment.top (Environment.set_top fr e) = Some fr.
Proof. unfold Environment.top, Environment.set_top. apply last_snoc. Qed.

Lemma get_in_app name outer b :
  Environment.get_in name (rev (outer ++ [b])) =
    match Dict.get name b with
    | Some l => Some l
    | None => Environment.get_in name (rev outer)
    end.
Proof. rewrite rev_app_distr. reflexivity. Qed.

Lemma exit_block_snoc outer b e :
  outer <> [] ->
  Environment.top e = Some (outer ++ [b]) ->
  Environment.exit_block e = Some (Environment.set_top outer e).
Proof.
  intros Hne Htop. unfold Environment.exit_block. rewrite Htop.
  rewrite removelast_last. destruct outer; [congruence|reflexivity].
Qed.

(** ** Variable definitions (C9) *)

(** A declared type that [__run_vardef] accepts has a default value. *)
Lemma vardef_default name :
  get_type name <> ERROR -> get_type name <> VOID ->
  exists d, default_value_for_type (get_type name) = Some d /\
            Value_init (get_type name) PNone = Some (mkValue (get_type name) d).
Proof.
  intros He Hv. unfold Value_init; simpl.
  destruct (get_type name); try congruence; eexists; split; reflexivity.
Qed.

Lemma run_vardef_type_ok name block_def s :
  get_type name <> ERROR -> get_type name <> VOID ->
  exists d,
    default_value_for_type (get_type name) = Some d /\
    run_vardef name block_def s =
      (let s1 := set_cells s (cells s ++ [mkValue (get_type name) d]) in
       if block_def then
         bind (env_bdef name (length (cells s)))
           (fun ok => when_ (negb ok) (error NAME_ERROR)) s1
       else
         bind (env_fdef name (length (cells s)))
           (fun ok => when_ (negb ok) (error NAME_ERROR)) s1).
Proof.
  intros He Hv. destruct (vardef_default name He Hv) as (d & Hd & Hi).
  exists d. split; [exact Hd|]. unfold run_vardef.
  rewrite !bool_decide_eq_false_2 by assumption. cbn [orb].
  rewrite (bind_Ok _ _ _ _ _ (when_false _ s)).
  rewrite (bind_Ok _ _ _ _ _ (new_Value_Ok _ _ _ s Hi)).
  destruct block_def; reflexivity.
Qed.

(** C9.  In a frame, a function-scoped definition of a name that the
    function scope already holds ends in NameError, and so does a second
    definition after a first one that succeeded.  A block-scoped definition
    of a name that an enclosing block of the frame holds, and the innermost
    block does not, succeeds; while the block is active the name denotes
    the new wrapper, the outer wrapper is untouched, and after the block
    exits the name denotes the outer wrapper again.  [scoping_program]
    prints 2 inside the block and 1 after it, and a second [var xi] in a
    later statement of [main] ends the run in NameError. *)
Theorem C9_redefinition_and_shadowing (s : State) (name : string)
    (fr : Environment.frame) :
  Environment.top (env s) = Some fr ->
  get_type name <> ERROR -> get_type name <> VOID ->
  (forall b0 rest, fr = b0 :: rest -> Dict.mem name b0 = true ->
     run_vardef name false s = Err NAME_ERROR) /\
  (forall b0 rest, fr = b0 :: rest -> Dict.mem name b0 = false ->
     exists s', run_vardef name false s = Ok (tt, s') /\
                run_vardef name false s' = Err NAME_ERROR) /\
  (forall outer b l_outer,
     fr = outer ++ [b] ->
     Environment.get_in name (rev outer) = Some l_outer ->
     Dict.mem name b = false ->
     exists s' l_new e_after,
       run_vardef name true s = Ok (tt, s') /\
       Environment.get name (env s') = Some (Some l_new) /\
       cells s !! l_new = None /\
       (exists d, cells s' !! l_new = Some (mkValue (get_type name) d)) /\
       (forall l, (l < length (cells s))%nat -> cells s' !! l = cells s !! l) /\
       Environment.exit_block (env s') = Some e_after /\
       Environment.get name e_after = Some (Some l_outer)) /\
  run_program 10 (scoping_program false) [] = Ok ["2"; "1"] /\
  run_program 10 (scoping_program true) [] = Err NAME_ERROR.
Proof.
  intros Htop He Hv.
  split; [|split; [|split; [|split; vm_compute; reflexivity]]].
  - intros b0 rest -> Hin.
    destruct (run_vardef_type_ok name false s He Hv) as (d & _ & ->).
    cbn zeta. unfold bind, env_fdef, env_update, Environment.fdef.
    cbn [env set_cells]. rewrite Htop, Hin. reflexivity.
  - intros b0 rest -> Hnotin.
    destruct (run_vardef_type_ok name false s He Hv) as (d & _ & Hrun).
    eexists. split.
    + rewrite Hrun. cbn zeta.
      unfold bind, env_fdef, env_update, Environment.fdef.
      cbn [env set_cells]. rewrite Htop, Hnotin. reflexivity.
    + match goal with |- run_vardef _ _ ?s1 = _ => set (s' := s1) end.
      destruct (run_vardef_type_ok name false s' He Hv) as (d' & _ & ->).
      cbn zeta. unfold bind, env_fdef, env_update, Environment.fdef.
      subst s'. cbn [env set_cells set_env]. rewrite top_set_top.
      unfold Dict.mem. rewrite get_set_eq. reflexivity.
  - intros outer b l_outer -> Houter Hnotin.
    destruct (run_vardef_type_ok name true s He Hv) as (d & _ & Hrun).
    assert (Hlast : last (outer ++ [b]) = Some b) by apply last_snoc.
    assert (Hne : outer <> []).
    { intros ->. simpl in Houter. discriminate. }
    eexists. exists (length (cells s)). eexists.
    split; [|split; [|split; [|split; [|split; [|split]]]]].
    + rewrite Hrun. cbn zeta.
      unfold bind, env_bdef, env_update, Environment.bdef.
      cbn [env set_cells]. rewrite Htop, Hlast, Hnotin. reflexivity.
    + cbn [env set_env set_cells]. unfold Environment.get.
      rewrite top_set_top, removelast_last, get_in_app, get_set_eq.
      reflexivity.
    + apply lookup_ge_None. lia.
    + exists d. cbn [cells set_env set_cells]. apply lookup_snoc_last.
    + intros l Hl. cbn [cells set_env set_cells]. now apply lookup_snoc_old.
    + cbn [env set_env set_cells]. rewrite removelast_last.
      apply (exit_block_snoc outer (Dict.set name (length (cells s)) b));
        [exact Hne|apply top_set_top].
    + unfold Environment.get. rewrite top_set_top. now rewrite Houter.
Qed.

Lemma C9_redefinition_and_shadowing_witness :
  run_vardef "xi" false nested_block_state = Err NAME_ERROR /\
  exists s' l_new e_after,
    run_vardef "xi" true nested_block_state = Ok (tt, s') /\
    Environment.get "xi" (env s') = Some (Some l_new) /\
    cells nested_block_state !! l_new = None /\
    Environment.exit_block (env s') = Some e_after /\
    Environment.get "xi" e_after = Some (Some 0%nat).
Proof.
  assert (He : get_type "xi" <> ERROR) by (vm_compute; discriminate).
  assert (Hv : get_type "xi" <> VOID) by (vm_compute; discriminate).
  destruct (C9_redefinition_and_shadowing nested_block_state "xi"
              [[("xi", 0%nat)]; []] eq_refl He Hv) as (H1 & _ & H3 & _).
  split.
  - apply (H1 [("xi", 0%nat)] [[]]); reflexivity.
  - destruct (H3 [[("xi", 0%nat)]] [] 0%nat eq_refl eq_refl eq_refl)
      as (s' & l_new & e_after & Hrun & Hget & Hfresh & _ & _ & Hexit & Hout).
    exists s', l_new, e_after. repeat split; assumption.
Defined.

(** ** Method calls through a nil receiver (C2) *)

Lemma env_exists_Ok s name fr :
  Environment.top (env s) = Some fr ->
  env_exists name s = Ok (existsb (Dict.mem name) fr, s).
Proof.
  intros Htop. unfold env_exists, env_read, reads, Environment.exists_.
  now rewrite Htop.
Qed.

Lemma env_get_Ok s name fr :
  Environment.top (env s) = Some fr ->
  env_get name s = Ok (Environment.get_in name (rev fr), s).
Proof.
  intros Htop. unfold env_get, env_read, reads, Environment.get.
  now rewrite Htop.
Qed.

Lemma get_in_mem name (blocks : list (dict loc)) l :
  Environment.get_in name blocks = Some l ->
  existsb (Dict.mem name) blocks = true.
Proof.
  induction blocks as [|b r IH]; simpl; [discriminate|].
  unfold Dict.mem at 1. destruct (Dict.get name b); [reflexivity|].
  intros Hr. simpl. auto.
Qed.

Lemma get_in_exists name (fr : Environment.frame) l :
  Environment.get_in name (rev fr) = Some l ->
  existsb (Dict.mem name) fr = true.
Proof.
  intros Hg. apply get_in_mem in Hg.
  apply existsb_exists in Hg as (b & Hb & Hm).
  apply existsb_exists. exists b. split; [|exact Hm].
  now apply in_rev.
Qed.

(** The last lookup of [__run_method_call] has no nil test: when the
    receiver's payload is nil, [method_name not in value.v] is a Python
    TypeError, not a FaultError of the interpreter. *)
Lemma method_call_nil_receiver ev rs path root method args s fr l x :
  split_dot path = [root; method] ->
  Environment.top (env s) = Some fr ->
  Environment.get_in root (rev fr) = Some l ->
  cells s !! l = Some x -> v x = PNone ->
  run_method_call ev rs path args s = HostExn.
Proof.
  intros Hsplit Htop Hget Hl Hx. unfold run_method_call. rewrite Hsplit.
  step (env_exists_Ok s root fr Htop).
  rewrite (get_in_exists _ _ _ Hget). cbn [negb].
  step (when_false (error NAME_ERROR) s).
  step (env_get_Ok s root fr Htop). rewrite Hget.
  cbn [lift_opt removelast walk_method].
  unfold bind at 1. cbn [ret]. unfold bind at 1. cbn [ret].
  unfold bind at 1. cbn [lift_opt last ret].
  step (rd_Ok s l x Hl).
  apply bind_HostExn. unfold reads, contains. now rewrite Hx.
Qed.

(** C2 (the code departs from the claim).  The program
    [def main() { var ao; ao.mf(); }] calls a method on the nil variable
    [ao]; the run ends in an uncaught host exception, not in FaultError. *)
Theorem C2_nil_receiver_is_host_exception (fuel : nat) :
  run_program (S fuel) nil_receiver_program [] = HostExn.
Proof. vm_compute. reflexivity. Qed.

(** ** Overload resolution (C4) *)

Lemma mapM_rd_Ok s ls vals :
  Forall2 (fun l x => cells s !! l = Some x) ls vals ->
  mapM rd ls s = Ok (vals, s).
Proof.
  induction 1 as [|l x ls vals Hl _ IH]; [reflexivity|].
  cbn [mapM]. step (rd_Ok s l x Hl). step IH. reflexivity.
Qed.

Lemma arguments_sig_ok vals acc :
  (forall x, In x vals -> t x <> VOID /\ t x <> ERROR) ->
  arguments_sig vals acc = Ok (acc ++ signature_of vals)%string.
Proof.
  revert acc. induction vals as [|x r IH]; intros acc Hall; simpl.
  - now rewrite append_empty_r.
  - destruct (Hall x (or_introl eq_refl)) as [Hv He].
    assert (Hr : forall y, In y r -> t y <> VOID /\ t y <> ERROR)
      by (intros y Hy; apply Hall; now right).
    destruct (t x); try congruence; rewrite IH by exact Hr;
      now rewrite append_snoc.
Qed.

Lemma arguments_sig_void vals acc :
  (exists x, In x vals /\ t x = VOID) ->
  (forall x, In x vals -> t x <> ERROR) ->
  arguments_sig vals acc = Err TYPE_ERROR.
Proof.
  revert acc. induction vals as [|x r IH]; intros acc [y [Hy Hvoid]] Hne.
  - destruct Hy.
  - simpl. pose proof (Hne x (or_introl eq_refl)) as Hx.
    assert (Hr : forall z, In z r -> t z <> ERROR)
      by (intros z Hz; apply Hne; now right).
    destruct Hy as [->|Hy].
    + now rewrite Hvoid.
    + destruct (t x); try congruence; try reflexivity; apply IH; eauto.
Qed.

(** A call that is neither an intrinsic, nor dotted, nor through a
    function-valued variable is the ordinary call. *)
Lemma run_fcall_ordinary ev rs name args s :
  name <> "inputi" -> name <> "inputs" -> name <> "print" ->
  has_dot name = false ->
  (forall l, Environment.get name (env s) = Some (Some l) ->
     exists x, cells s !! l = Some x /\ t x <> FUNCTION) ->
  run_fcall ev rs name args s = ordinary_call ev rs name args s.
Proof.
  intros H1 H2 H3 Hdot Hvar. unfold run_fcall.
  apply String.eqb_neq in H1, H2, H3. rewrite H1, H2, H3, Hdot. cbn [orb].
  unfold bind at 1. cbn [gets].
  destruct (env s) as [|f0 e0] eqn:He.
  - reflexivity.
  - rewrite <- He in *.
    destruct (Environment.top (env s)) as [fr|] eqn:Htop.
    2:{ exfalso. unfold Environment.top in Htop. rewrite He in Htop.
        apply last_None in Htop. discriminate. }
    step (env_get_Ok s name fr Htop).
    destruct (Environment.get_in name (rev fr)) as [l|] eqn:Hg; [|reflexivity].
    destruct (Hvar l) as (x & Hx & Ht).
    { unfold Environment.get. now rewrite Htop, Hg. }
    step (rd_Ok s l x Hx).
    now rewrite bool_decide_eq_false_2.
Qed.

(** An ordinary call whose arguments carry no Void value and whose
    signature is in the table runs the descriptor stored there. *)
Lemma run_fcall_resolved ev rs name args s s1 ls vals f func_def :
  name <> "inputi" -> name <> "inputs" -> name <> "print" ->
  has_dot name = false ->
  (forall l, Environment.get name (env s) = Some (Some l) ->
     exists x, cells s !! l = Some x /\ t x <> FUNCTION) ->
  mapM ev args s = Ok (ls, s1) ->
  Forall2 (fun l x => cells s1 !! l = Some x) ls vals ->
  (forall x, In x vals -> t x <> VOID /\ t x <> ERROR) ->
  Dict.get (name, signature_of vals) (funcs s1) = Some f ->
  fobjs s1 !! f = Some func_def ->
  run_fcall ev rs name args s =
    (let bound := combine (Dict.keys (formal_args func_def)) ls in
     forM_ (fun fa => check_interface_arg (fst fa) (snd fa)) bound ;;
     env_enter_func ;;
     forM_ (bind_formal func_def) bound ;;
     r <- rs func_def (fstatements func_def) ;;
     env_exit_func ;;
     ret (fst r))%M s1.
Proof.
  intros H1 H2 H3 Hdot Hvar Hargs Hcells Htags Hf Hfd.
  rewrite (run_fcall_ordinary ev rs name args s H1 H2 H3 Hdot Hvar).
  unfold ordinary_call. step Hargs. step (mapM_rd_Ok s1 ls vals Hcells).
  assert (Hsig : get_arguments_type_signature vals = Ok (signature_of vals)).
  { unfold get_arguments_type_signature.
    now rewrite arguments_sig_ok. }
  erewrite (bind_Ok (reads _)); [|apply reads_Ok; exact Hsig].
  erewrite (bind_Ok (resolve _ _)).
  2:{ unfold resolve, bind, gets, id. rewrite Hf. reflexivity. }
  erewrite (bind_Ok (reads _)).
  2:{ apply reads_Ok. unfold fobj. rewrite Hfd. reflexivity. }
  reflexivity.
Qed.

(** C4, as the claim states it, fails: the call [gi(print())] passes a
    Void value; no declared function is named [gi], and the run ends in
    TypeError, not in NameError. *)
Lemma C4_void_argument_is_type_error :
  (forall fd, In fd (functions_ast void_argument_program) -> fd_name fd <> "gi") /\
  run_program 10 void_argument_program [] = Err TYPE_ERROR.
Proof.
  split.
  - intros fd [<-|[]]. discriminate.
  - vm_compute. reflexivity.
Qed.

(** C4, amended.  For a call that is not an intrinsic, not dotted and not
    through a function-valued variable, whose arguments have been
    evaluated to wrappers none of which is tagged Void: the table is looked
    up at the pair of the name and the signature made of the letters of the
    arguments' runtime tags, and at nothing else.  When the pair is
    present the call runs the descriptor stored under it; when it is absent
    the run ends in TypeError if some declared function has the name, and
    in NameError if none has.  A Void argument ends the run in TypeError
    before any lookup. *)
Theorem C4_overload_resolution (ev : Expr -> M loc)
    (rs : FuncObj -> list Stmt -> M (loc * bool))
    (name : string) (args : list Expr) (s s1 : State)
    (ls : list loc) (vals : list Value) :
  name <> "inputi" -> name <> "inputs" -> name <> "print" ->
  has_dot name = false ->
  (forall l, Environment.get name (env s) = Some (Some l) ->
     exists x, cells s !! l = Some x /\ t x <> FUNCTION) ->
  mapM ev args s = Ok (ls, s1) ->
  Forall2 (fun l x => cells s1 !! l = Some x) ls vals ->
  (forall x, In x vals -> t x <> ERROR) ->
  ((exists x, In x vals /\ t x = VOID) ->
     run_fcall ev rs name args s = Err TYPE_ERROR) /\
  ((forall x, In x vals -> t x <> VOID) ->
     (forall f func_def,
        Dict.get (name, signature_of vals) (funcs s1) = Some f ->
        fobjs s1 !! f = Some func_def ->
        run_fcall ev rs name args s =
          (let bound := combine (Dict.keys (formal_args func_def)) ls in
           forM_ (fun fa => check_interface_arg (fst fa) (snd fa)) bound ;;
           env_enter_func ;;
           forM_ (bind_formal func_def) bound ;;
           r <- rs func_def (fstatements func_def) ;;
           env_exit_func ;;
           ret (fst r))%M s1) /\
     (Dict.get (name, signature_of vals) (funcs s1) = None ->
      (exists sig, In (name, sig) (Dict.keys (funcs s1))) ->
      run_fcall ev rs name args s = Err TYPE_ERROR) /\
     (Dict.get (name, signature_of vals) (funcs s1) = None ->
      (forall sig, ~ In (name, sig) (Dict.keys (funcs s1))) ->
      run_fcall ev rs name args s = Err NAME_ERROR)).
Proof.
  intros H1 H2 H3 Hdot Hvar Hargs Hcells Hnoerr.
  pose proof (mapM_rd_Ok s1 ls vals Hcells) as Hvals.
  rewrite (run_fcall_ordinary ev rs name args s H1 H2 H3 Hdot Hvar).
  unfold ordinary_call. step Hargs. step Hvals.
  split.
  - intros Hvoid. apply bind_Err. unfold reads, get_arguments_type_signature.
    now rewrite (arguments_sig_void vals "" Hvoid Hnoerr).
  - intros Hnovoid.
    assert (Hsig : get_arguments_type_signature vals = Ok (signature_of vals)).
    { unfold get_arguments_type_signature. rewrite arguments_sig_ok; [reflexivity|].
      intros x Hx. split; auto. }
    erewrite (bind_Ok (reads _)); [|apply reads_Ok; exact Hsig].
    split; [|split].
    + intros f func_def Hf Hfd.
      erewrite (bind_Ok (resolve _ _)).
      2:{ unfold resolve, bind, gets, id. rewrite Hf. reflexivity. }
      erewrite (bind_Ok (reads _)).
      2:{ apply reads_Ok. unfold fobj. rewrite Hfd. reflexivity. }
      reflexivity.
    + intros Hnone [sig Hin]. apply bind_Err.
      unfold resolve, bind, gets, id. rewrite Hnone.
      destruct (filter _ _) as [|k r] eqn:Hfil; [|reflexivity].
      exfalso.
      assert (Hk : elem_of (name, sig) (filter (fun key : string * string => fst key = name) (Dict.keys (funcs s1)))).
      { apply list_elem_of_filter. split; [reflexivity|now apply list_elem_of_In]. }
      rewrite Hfil in Hk. inversion Hk.
    + intros Hnone Hnot. apply bind_Err.
      unfold resolve, bind, gets, id. rewrite Hnone.
      destruct (filter _ _) as [|k r] eqn:Hfil; [reflexivity|].
      exfalso.
      assert (Hk : elem_of k (filter (fun key : string * string => fst key = name) (Dict.keys (funcs s1)))).
      { rewrite Hfil. left. }
      apply list_elem_of_filter in Hk as [Hname Hk]. destruct k as [n sig].
      simpl in Hname. subst n. apply (Hnot sig). now apply list_elem_of_In.
Qed.

Lemma C4_overload_resolution_witness :
  run_fcall (eval_expr 1) (run_statements 1) "ff" [EInt 1; EBool true]
    overloaded_state = Err TYPE_ERROR /\
  run_fcall (eval_expr 1) (run_statements 1) "gi" [EInt 1]
    overloaded_state = Err NAME_ERROR /\
  run_fcall (eval_expr 2) (run_statements 2) "ff" [EFcall "print" []]
    overloaded_state = Err TYPE_ERROR.
Proof.
  assert (Hvar : forall name l,
            Environment.get name (env overloaded_state) = Some (Some l) ->
            exists x, cells overloaded_state !! l = Some x /\ t x <> FUNCTION).
  { intros name l Hg. vm_compute in Hg. discriminate. }
  split; [|split].
  - pose proof (C4_overload_resolution (eval_expr 1) (run_statements 1) "ff"
             [EInt 1; EBool true] overloaded_state
             (set_cells overloaded_state [VInt 1; mkValue BOOL (PBool true)])
             [0%nat; 1%nat] [VInt 1; mkValue BOOL (PBool true)]
             ltac:(discriminate) ltac:(discriminate) ltac:(discriminate)
             eq_refl (Hvar _) eq_refl ltac:(repeat constructor)
             ltac:(intros x [<-|[<-|[]]]; discriminate))
      as [_ Hok].
    destruct Hok as (_ & Hty & _).
    + intros x [<-|[<-|[]]]; discriminate.
    + apply Hty; [reflexivity|]. exists "i". vm_compute. auto.
  - pose proof (C4_overload_resolution (eval_expr 1) (run_statements 1) "gi"
             [EInt 1] overloaded_state
             (set_cells overloaded_state [VInt 1]) [0%nat] [VInt 1]
             ltac:(discriminate) ltac:(discriminate) ltac:(discriminate)
             eq_refl (Hvar _) eq_refl ltac:(repeat constructor)
             ltac:(intros x [<-|[]]; discriminate))
      as [_ Hok].
    destruct Hok as (_ & _ & Hname).
    + intros x [<-|[]]; discriminate.
    + apply Hname; [reflexivity|].
      intros sig Hin. vm_compute in Hin. intuition congruence.
  - pose proof (C4_overload_resolution (eval_expr 2) (run_statements 2) "ff"
             [EFcall "print" []] overloaded_state
             (set_output (set_cells overloaded_state [mkValue VOID PNone]) [""])
             [0%nat] [mkValue VOID PNone]
             ltac:(discriminate) ltac:(discriminate) ltac:(discriminate)
             eq_refl (Hvar _) eq_refl ltac:(repeat constructor)
             ltac:(intros x [<-|[]]; discriminate))
      as [Hvoid _].
    apply Hvoid. exists (mkValue VOID PNone). split; [now left|reflexivity].
Defined.

(** ** Structural interface satisfaction (C6) *)

Lemma has_field_lookup s p name l :
  has_field s p name l <->
  contains s name p = Ok true /\ getitem s p name = Ok l.
Proof.
  unfold has_field, contains, getitem, fields. split.
  - intros (o & d & -> & Ho & Hg). rewrite Ho. simpl.
    unfold Dict.mem. rewrite Hg. split; reflexivity.
  - intros [_ Hget]. destruct p; try discriminate.
    destruct (objs s !! o) as [d|] eqn:Ho; simpl in Hget; [|discriminate].
    destruct (Dict.get name d) as [l'|] eqn:Hg; simpl in Hget; [|discriminate].
    inversion Hget; subst. eauto.
Qed.

Lemma check_field_vars_true s p items :
  check_field_vars s p items = Ok true <->
  (forall name ty, In (name, ty) items ->
     exists l x, has_field s p name l /\ cells s !! l = Some x /\ t x = ty).
Proof.
  induction items as [|[name ty] r IH]; simpl.
  - split; [intros _ ? ? []|reflexivity].
  - split.
    + intros Hrun.
      destruct (contains s name p) as [[|]| | |] eqn:Hc; simpl in Hrun;
        try discriminate.
      destruct (getitem s p name) as [l| | |] eqn:Hg; simpl in Hrun;
        try discriminate.
      unfold cell in Hrun.
      destruct (cells s !! l) as [x|] eqn:Hl; simpl in Hrun; try discriminate.
      destruct (decide (t x = ty)) as [Ht|Ht].
      2:{ rewrite bool_decide_eq_false_2 in Hrun by exact Ht. discriminate. }
      rewrite bool_decide_eq_true_2 in Hrun by exact Ht. simpl in Hrun.
      intros n ty' [Heq|Hin].
      * inversion Heq; subst. exists l, x. split; [|auto].
        apply has_field_lookup. auto.
      * apply IH; assumption.
    + intros Hall.
      destruct (Hall name ty (or_introl eq_refl)) as (l & x & Hf & Hl & Ht).
      apply has_field_lookup in Hf as [Hc Hg].
      rewrite Hc. simpl. rewrite Hg. simpl. unfold cell. rewrite Hl. simpl.
      rewrite bool_decide_eq_true_2 by exact Ht. simpl.
      apply IH. intros n ty' Hin. apply Hall. now right.
Qed.

Lemma Forall_combine_lookup {A B} (P : A * B -> Prop) (l1 : list A) (l2 : list B) :
  Forall P (combine l1 l2) <->
  (forall i a b, l1 !! i = Some a -> l2 !! i = Some b -> P (a, b)).
Proof.
  revert l2. induction l1 as [|a l1 IH]; intros l2; simpl.
  - split; [intros _ i a b Hi; destruct i; discriminate|constructor].
  - destruct l2 as [|b l2].
    + split; [intros _ i a' b' _ Hi; destruct i; discriminate|constructor].
    + split.
      * intros Hall i a' b' Ha Hb. inversion Hall as [|? ? Hp Hrest]; subst.
        destruct i as [|i]; simpl in *.
        -- inversion Ha; inversion Hb; subst. exact Hp.
        -- apply (proj1 (IH l2) Hrest i); assumption.
      * intros Hall. constructor.
        -- apply (Hall 0%nat); reflexivity.
        -- apply IH. intros i a' b' Ha Hb. apply (Hall (S i)); assumption.
Qed.

Lemma check_params_true fa pairs :
  check_params fa pairs = true <->
  Forall (fun p => get_type (fst p) = fst (snd p) /\
                   Dict.get (fst p) fa = Some (snd (snd p))) pairs.
Proof.
  induction pairs as [|[n [ty r]] rest IH]; simpl.
  - split; [constructor|reflexivity].
  - split.
    + intros Hrun.
      destruct (decide (get_type n = ty)) as [Ht|Ht].
      2:{ rewrite bool_decide_eq_false_2 in Hrun by exact Ht. discriminate. }
      rewrite bool_decide_eq_true_2 in Hrun by exact Ht. simpl in Hrun.
      destruct (Dict.get n fa) as [fr|] eqn:Hg; [|discriminate].
      destruct (Bool.eqb fr r) eqn:Hr; simpl in Hrun; [|discriminate].
      apply Bool.eqb_prop in Hr. subst fr.
      constructor; [simpl; auto|]. now apply IH.
    + intros Hall. inversion Hall as [|? ? [Ht Hg] Hrest]; subst. simpl in *.
      rewrite bool_decide_eq_true_2 by exact Ht. simpl. rewrite Hg.
      rewrite Bool.eqb_reflx. simpl. now apply IH.
Qed.

Lemma check_function_signatures_true fo sig :
  check_function_signatures fo sig = true <-> signature_matches fo sig.
Proof.
  unfold check_function_signatures, signature_matches.
  destruct (Nat.eqb_spec (length (formal_args fo)) (length sig)) as [Hlen|Hlen];
    simpl.
  - rewrite check_params_true, Forall_combine_lookup. split.
    + intros Hall. split; [exact Hlen|].
      intros i n ty r Hn Hs. apply (Hall i n (ty, r)); assumption.
    + intros [_ Hall] i n [ty r] Hn Hs. simpl. eapply Hall; eassumption.
  - split; [discriminate|]. intros [Hl _]. contradiction.
Qed.

Lemma check_field_funcs_true s p items :
  check_field_funcs s p items = Ok true <->
  (forall name sig, In (name, sig) items ->
     exists l x f fo,
       has_field s p name l /\ cells s !! l = Some x /\
       t x = FUNCTION /\ v x = PFun f /\ fobjs s !! f = Some fo /\
       signature_matches fo sig).
Proof.
  induction items as [|[name sig] r IH]; simpl.
  - split; [intros _ ? ? []|reflexivity].
  - split.
    + intros Hrun.
      destruct (contains s name p) as [[|]| | |] eqn:Hc; simpl in Hrun;
        try discriminate.
      destruct (getitem s p name) as [l| | |] eqn:Hg; simpl in Hrun;
        try discriminate.
      unfold cell in Hrun.
      destruct (cells s !! l) as [x|] eqn:Hl; simpl in Hrun; try discriminate.
      destruct (decide (t x = FUNCTION)) as [Ht|Ht].
      2:{ rewrite bool_decide_eq_false_2 in Hrun by exact Ht. discriminate. }
      rewrite bool_decide_eq_true_2 in Hrun by exact Ht. simpl in Hrun.
      destruct (v x) as [| | | | |f] eqn:Hv; try discriminate.
      unfold fobj in Hrun.
      destruct (fobjs s !! f) as [fo|] eqn:Hf; simpl in Hrun; try discriminate.
      destruct (check_function_signatures fo sig) eqn:Hsig; simpl in Hrun;
        try discriminate.
      intros n sig' [Heq|Hin].
      * inversion Heq; subst. exists l, x, f, fo.
        exact (conj (proj2 (has_field_lookup _ _ _ _) (conj Hc Hg))
                 (conj Hl (conj Ht (conj Hv (conj Hf
                    (proj1 (check_function_signatures_true _ _) Hsig)))))).
      * apply IH; assumption.
    + intros Hall.
      destruct (Hall name sig (or_introl eq_refl))
        as (l & x & f & fo & Hfld & Hl & Ht & Hv & Hf & Hm).
      apply has_field_lookup in Hfld as [Hc Hg].
      rewrite Hc. simpl. rewrite Hg. simpl. unfold cell. rewrite Hl. simpl.
      rewrite bool_decide_eq_true_2 by exact Ht. simpl. rewrite Hv.
      unfold fobj. rewrite Hf. simpl.
      apply check_function_signatures_true in Hm. rewrite Hm. simpl.
      apply IH. intros n sig' Hin. apply Hall. now right.
Qed.

Lemma interface_satisfaction_true s obj interface_name iface :
  Dict.get interface_name (interfaces s) = Some iface ->
  v obj <> PNone ->
  interface_satisfaction s obj interface_name = Ok true <-> satisfies s iface obj.
Proof.
  intros Hi Hnn. unfold interface_satisfaction, satisfies. rewrite Hi.
  assert (Hn : is_None (v obj) = false) by (destruct (v obj); simpl; congruence).
  rewrite Hn.
  destruct (decide (t obj = OBJECT)) as [Ht|Ht].
  2:{ rewrite bool_decide_eq_false_2 by exact Ht. simpl.
      split; [discriminate|]. intros [Ht' _]. contradiction. }
  rewrite bool_decide_eq_true_2 by exact Ht. simpl.
  split.
  - intros Hrun.
    destruct (check_field_vars s (v obj) (field_vars iface)) as [[|]| | |] eqn:Hv;
      simpl in Hrun; try discriminate.
    split; [exact Ht|]. split.
    + now apply check_field_vars_true.
    + now apply check_field_funcs_true.
  - intros (_ & Hv & Hf).
    apply check_field_vars_true in Hv. rewrite Hv. simpl.
    now apply check_field_funcs_true.
Qed.

(** Every field of the object [d] is held by a wrapper of the store. *)
Lemma check_field_vars_missing s o d items name ty :
  objs s !! o = Some d ->
  (forall k l, Dict.get k d = Some l -> exists x, cells s !! l = Some x) ->
  In (name, ty) items -> Dict.get name d = None ->
  check_field_vars s (PObj o) items = Ok false.
Proof.
  intros Ho Hwf Hin Hmiss.
  induction items as [|[n ty'] r IH]; [destruct Hin|].
  simpl. unfold fields. rewrite Ho. simpl.
  unfold Dict.mem. destruct (Dict.get n d) as [l|] eqn:Hg; simpl; [|reflexivity].
  destruct (Hwf n l Hg) as [x Hx]. unfold cell. rewrite Hx. simpl.
  destruct (bool_decide (t x = ty')); simpl; [|reflexivity].
  destruct Hin as [Heq|Hin]; [inversion Heq; subst; congruence|].
  now apply IH.
Qed.

(** C6.  For a declared interface: a candidate whose payload is nil
    satisfies it; a candidate whose payload is not nil satisfies it exactly
    when it is tagged Object, has every required field with the required
    runtime tag, and has every required method as a Function-tagged field
    whose descriptor matches the recorded parameter count, declared types
    and reference flags in order (the return type is not looked at).  A nil
    Object binds to an interface-typed variable and parameter; an object
    missing a required field ends the binding in TypeError. *)
Theorem C6_interface_satisfaction (s : State) (obj : Value)
    (interface_name : string) (iface : Interface) :
  Dict.get interface_name (interfaces s) = Some iface ->
  (v obj = PNone -> interface_satisfaction s obj interface_name = Ok true) /\
  (v obj <> PNone ->
     (interface_satisfaction s obj interface_name = Ok true <->
      satisfies s iface obj)) /\
  (forall var_name l,
     get_interface_name var_name = Some interface_name ->
     cells s !! l = Some obj ->
     (t obj = OBJECT -> v obj = PNone ->
        check_assign_type var_name obj s = Ok (tt, s) /\
        check_interface_arg var_name l s = Ok (tt, s)) /\
     (forall o d name ty,
        t obj = OBJECT -> v obj = PObj o -> objs s !! o = Some d ->
        (forall k l', Dict.get k d = Some l' -> exists x, cells s !! l' = Some x) ->
        In (name, ty) (field_vars iface) -> Dict.get name d = None ->
        check_assign_type var_name obj s = Err TYPE_ERROR /\
        check_interface_arg var_name l s = Err TYPE_ERROR)) /\
  run_program 10 (interface_binding_program ENil) [] = Ok ["bound"] /\
  run_program 10 (interface_binding_program (EQName "ao")) [] = Err TYPE_ERROR /\
  run_program 10 (interface_binding_program (EQName "bo")) [] = Ok ["bound"].
Proof.
  intros Hi.
  assert (Hnil : v obj = PNone ->
                 interface_satisfaction s obj interface_name = Ok true).
  { intros Hv. unfold interface_satisfaction. now rewrite Hi, Hv. }
  split; [exact Hnil|].
  split; [intros Hnn; now apply interface_satisfaction_true|].
  split; [|repeat split; vm_compute; reflexivity].
  intros var_name l Hname Hl. split.
  - intros Ht Hv. unfold check_assign_type, check_interface_arg.
    rewrite Hname. step (rd_Ok s l obj Hl).
    rewrite bool_decide_eq_true_2 by exact Ht. cbn [negb].
    erewrite !(bind_Ok (reads _)) by (apply reads_Ok; exact (Hnil Hv)).
    split; reflexivity.
  - intros o d name ty Ht Hv Ho Hwf Hin Hmiss.
    assert (Hsat : interface_satisfaction s obj interface_name = Ok false).
    { unfold interface_satisfaction. rewrite Hi, Hv. cbn [is_None].
      rewrite bool_decide_eq_true_2 by exact Ht. cbn [negb].
      now rewrite (check_field_vars_missing s o d _ name ty Ho Hwf Hin Hmiss). }
    unfold check_assign_type, check_interface_arg.
    rewrite Hname. step (rd_Ok s l obj Hl).
    rewrite bool_decide_eq_true_2 by exact Ht. cbn [negb].
    erewrite !(bind_Ok (reads _)) by (apply reads_Ok; exact Hsat).
    split; reflexivity.
Qed.

Lemma C6_interface_satisfaction_witness :
  interface_satisfaction interface_state (mkValue OBJECT PNone) "Q" = Ok true /\
  check_assign_type "pQ" (mkValue OBJECT PNone) interface_state
    = Ok (tt, interface_state) /\
  check_assign_type "pQ" (mkValue OBJECT (PObj 0%nat)) interface_state
    = Err TYPE_ERROR.
Proof.
  pose proof (C6_interface_satisfaction interface_state (mkValue OBJECT PNone)
                "Q" (Interface_init "Q" [FIELD_VAR "xi"]) eq_refl)
    as (Hnil & _ & Hbind & _).
  pose proof (C6_interface_satisfaction interface_state
                (mkValue OBJECT (PObj 0%nat))
                "Q" (Interface_init "Q" [FIELD_VAR "xi"]) eq_refl)
    as (_ & _ & Hbind' & _).
  split; [|split].
  - apply Hnil. reflexivity.
  - destruct (Hbind "pQ" 1%nat eq_refl eq_refl) as [Hok _].
    apply Hok; reflexivity.
  - destruct (Hbind' "pQ" 0%nat eq_refl eq_refl) as [_ Hmiss].
    apply (Hmiss 0%nat [] "xi" INT); try reflexivity.
    + intros k l' Hk. discriminate.
    + left. reflexivity.
Defined.

(** ** Assignment to a dotted path (C7) *)

Lemma reads_inv {A} (f : State -> Res A) s a s' :
  reads f s = Ok (a, s') -> s' = s /\ f s = Ok a.
Proof.
  unfold reads. destruct (f s); simpl; intros H; inversion H; auto.
Qed.

Lemma rd_inv l s x s' :
  rd l s = Ok (x, s') -> s' = s /\ cells s !! l = Some x.
Proof.
  intros H. unfold rd in H. apply reads_inv in H as [-> H].
  split; [reflexivity|].
  unfold cell in H. destruct (cells s !! l); inversion H; auto.
Qed.

Lemma when_error_inv b e s u s' :
  when_ b (error e) s = Ok (u, s') -> s' = s /\ b = false.
Proof. destruct b; simpl; intros H; inversion H; auto. Qed.

Lemma walk_assign_readonly subs : forall l s l' s',
  walk_assign l subs s = Ok (l', s') -> s' = s.
Proof.
  induction subs as [|sub r IH]; intros l s l' s' H; simpl in H.
  - inversion H; auto.
  - apply bind_inv in H as (x & s1 & H1 & H).
    apply rd_inv in H1 as [-> _].
    apply bind_inv in H as (present & s1 & H1 & H).
    apply reads_inv in H1 as [-> _].
    apply bind_inv in H as (u & s1 & H1 & H).
    apply when_error_inv in H1 as [-> _].
    apply bind_inv in H as (c & s1 & H1 & H).
    assert (Hs : s1 = s).
    { unfold last_of, lift_opt in H1.
      destruct (last_char sub); inversion H1; auto. }
    subst s1. clear H1.
    apply bind_inv in H as (u' & s1 & H1 & H).
    apply when_error_inv in H1 as [-> _].
    apply bind_inv in H as (next & s1 & H1 & H).
    apply reads_inv in H1 as [-> _].
    apply bind_inv in H as (y & s1 & H1 & H).
    apply rd_inv in H1 as [-> _].
    apply bind_inv in H as (u'' & s1 & H1 & H).
    apply when_error_inv in H1 as [-> _].
    eapply IH; eauto.
Qed.

Lemma last_snoc_default {A} (l : list A) (x d : A) : List.last (l ++ [x]) d = x.
Proof. apply List.last_last. Qed.

Lemma setitem_Ok s o d sub l :
  objs s !! o = Some d ->
  setitem (PObj o) sub l s = Ok (tt, set_objs s (<[o := Dict.set sub l d]> (objs s))).
Proof.
  intros Ho. unfold setitem.
  erewrite (bind_Ok (reads _)); [reflexivity|].
  apply reads_Ok. unfold fields. now rewrite Ho.
Qed.

Lemma accepts_check last_name rv s :
  get_interface_name last_name = None ->
  accepts (get_type last_name) rv ->
  check_assign_type last_name rv s = Ok (tt, s).
Proof.
  intros Hi Hacc. unfold check_assign_type. rewrite Hi.
  destruct Hacc as [[Hv Hty]|[Hv Hty]].
  - rewrite Hv. cbn [is_None].
    destruct Hty as [-> | ->]; reflexivity.
  - assert (Hn : is_None (v rv) = false) by (destruct (v rv); simpl; congruence).
    rewrite Hn. now rewrite bool_decide_eq_true_2.
Qed.

Lemma not_accepts_check last_name rv s :
  get_interface_name last_name = None ->
  ~ accepts (get_type last_name) rv ->
  check_assign_type last_name rv s = Err TYPE_ERROR.
Proof.
  intros Hi Hacc. unfold check_assign_type, accepts in *. rewrite Hi.
  destruct (v rv) eqn:Hv; cbn [is_None].
  1:{ destruct (decide (get_type last_name = OBJECT)) as [Ho|Ho];
        [exfalso; apply Hacc; auto|].
      destruct (decide (get_type last_name = FUNCTION)) as [Hf|Hf];
        [exfalso; apply Hacc; auto|].
      now rewrite !bool_decide_eq_false_2. }
  all: rewrite bool_decide_eq_false_2; [reflexivity|];
    intros Ht; apply Hacc; right; split; [discriminate|congruence].
Qed.

Lemma accepted_check last_name rv s :
  accepted s last_name rv -> check_assign_type last_name rv s = Ok (tt, s).
Proof.
  unfold accepted. destruct (get_interface_name last_name) as [i|] eqn:Hi.
  - intros [Ht Hsat]. unfold check_assign_type. rewrite Hi.
    rewrite bool_decide_eq_true_2 by exact Ht. cbn [negb].
    erewrite (bind_Ok (reads _)) by (apply reads_Ok; exact Hsat).
    reflexivity.
  - now apply accepts_check.
Qed.

Lemma rejected_check last_name rv s :
  rejected s last_name rv -> check_assign_type last_name rv s = Err TYPE_ERROR.
Proof.
  unfold rejected. destruct (get_interface_name last_name) as [i|] eqn:Hi.
  - intros Hrej. unfold check_assign_type. rewrite Hi.
    destruct (decide (t rv = OBJECT)) as [Ht|Ht].
    + destruct Hrej as [Hno|Hsat]; [contradiction|].
      rewrite bool_decide_eq_true_2 by exact Ht. cbn [negb].
      erewrite (bind_Ok (reads _)) by (apply reads_Ok; exact Hsat).
      reflexivity.
    + now rewrite bool_decide_eq_false_2.
  - now apply not_accepts_check.
Qed.

(** C7, as the claim states it, fails: the reference parameter [xi] of
    [fv] is the wrapper that is the field [xi] of the object when [fv] is
    called; after [po.xi = 7] the field reads 7 and that wrapper still
    reads 1, so the assignment did not mutate the existing field cell. *)
Lemma C7_field_cell_is_replaced :
  run_program 10 field_alias_program [] = Ok ["1"; "7"; "7"].
Proof. vm_compute. reflexivity. Qed.

(** C7, amended.  An assignment to a dotted path walks all segments but
    the last; the type check is made against the last segment, and a
    value it rejects ends the run in TypeError.  A value it accepts is
    stored under the last segment in the field dictionary of the object
    the walk ends at: the right-hand wrapper itself when it is tagged
    Object, a new wrapper with the same attributes otherwise.  The
    dictionary is updated in place, so every alias of the object sees the
    field; no wrapper that existed before is written, so the wrapper that
    was the field before keeps its old attributes. *)
Theorem C7_dotted_assignment (ev : Expr -> M loc)
    (name root last_name : string) (mids : list string) (expression : Expr)
    (s s1 : State) (r l0 : loc) (rvalue x0 : Value) (fr : Environment.frame) :
  split_dot name = root :: mids ++ [last_name] ->
  ev expression s = Ok (r, s1) ->
  cells s1 !! r = Some rvalue ->
  constructed rvalue ->
  Environment.top (env s1) = Some fr ->
  Environment.get_in root (rev fr) = Some l0 ->
  cells s1 !! l0 = Some x0 ->
  (rejected s1 last_name rvalue ->
     run_assign ev name expression s = Err TYPE_ERROR) /\
  (accepted s1 last_name rvalue ->
   t x0 = OBJECT -> v x0 <> PNone ->
   forall lt s' target o d,
     walk_assign l0 mids s1 = Ok (lt, s') ->
     cells s1 !! lt = Some target ->
     v target = PObj o ->
     objs s1 !! o = Some d ->
     exists l_new s2,
       run_assign ev name expression s = Ok (tt, s2) /\
       objs s2 = <[o := Dict.set last_name l_new d]> (objs s1) /\
       env s2 = env s1 /\
       (forall l, (l < length (cells s1))%nat -> cells s2 !! l = cells s1 !! l) /\
       cells s2 !! l_new = Some rvalue /\
       (t rvalue = OBJECT -> l_new = r /\ cells s2 = cells s1) /\
       (t rvalue <> OBJECT -> l_new = length (cells s1) /\ cells s2 = cells s1 ++ [rvalue])).
Proof.
  intros Hsplit Hev Hr Hcons Htop Hget Hl0.
  assert (Hex : existsb (Dict.mem root) fr = true)
    by (eapply get_in_exists; eauto).
  assert (Hstart :
            run_assign ev name expression s =
            (check_assign_type last_name rvalue ;;
             match mids ++ [last_name] with
             | [] =>
                 found <- env_get name ;;
                 value <- lift_opt found ;;
                 Value_set value r
             | _ :: _ =>
                 found <- env_get root ;;
                 lvalue <- lift_opt found ;;
                 x <- rd lvalue ;;
                 when_ (negb (bool_decide (t x = OBJECT))) (error TYPE_ERROR) ;;
                 when_ (is_None (v x)) (error FAULT_ERROR) ;;
                 lvalue <- walk_assign lvalue (removelast (mids ++ [last_name])) ;;
                 target <- rd lvalue ;;
                 if bool_decide (t rvalue = OBJECT) then
                   setitem (v target) last_name r
                 else
                   fresh <- new_Value (t rvalue) (v rvalue) ;;
                   setitem (v target) last_name fresh
             end) s1).
  { unfold run_assign. rewrite Hsplit.
    rewrite last_snoc_default.
    step Hev. step (env_exists_Ok s1 root fr Htop). rewrite Hex. cbn [negb].
    step (when_false (error NAME_ERROR) s1).
    step (rd_Ok s1 r rvalue Hr). reflexivity. }
  rewrite Hstart. clear Hstart.
  split.
  - intros Hrej. apply bind_Err. now apply rejected_check.
  - intros Hacc Hobj Hnn lt s' target o d Hwalk Htarget Hpay Ho.
    pose proof (walk_assign_readonly _ _ _ _ _ Hwalk) as ->.
    step (accepted_check last_name rvalue s1 Hacc).
    assert (Hshape : exists m ms, mids ++ [last_name] = m :: ms).
    { destruct mids; simpl; eauto. }
    destruct Hshape as (m & ms & Hshape). rewrite Hshape. rewrite <- Hshape.
    rewrite removelast_last.
    step (env_get_Ok s1 root fr Htop). rewrite Hget. cbn [lift_opt].
    unfold bind at 1. cbn [ret].
    step (rd_Ok s1 l0 x0 Hl0).
    rewrite bool_decide_eq_true_2 by exact Hobj. cbn [negb].
    step (when_false (error TYPE_ERROR) s1).
    assert (Hn : is_None (v x0) = false) by (destruct (v x0); simpl; congruence).
    rewrite Hn. step (when_false (error FAULT_ERROR) s1).
    step Hwalk. step (rd_Ok s1 lt target Htarget). rewrite Hpay.
    destruct (decide (t rvalue = OBJECT)) as [Hto|Hto].
    + rewrite bool_decide_eq_true_2 by exact Hto.
      exists r. eexists. split; [apply setitem_Ok; exact Ho|].
      cbn [objs env cells set_objs].
      repeat split; auto; contradiction.
    + rewrite bool_decide_eq_false_2 by exact Hto.
      step (new_Value_Ok _ _ _ s1 Hcons).
      exists (length (cells s1)). eexists.
      split; [apply setitem_Ok; exact Ho|].
      cbn [objs env cells set_objs set_cells].
      split; [reflexivity|]. split; [reflexivity|].
      split; [intros l Hl; now apply lookup_snoc_old|].
      split; [apply lookup_snoc_last|].
      split; [contradiction|auto].
Qed.

Lemma C7_dotted_assignment_witness :
  exists l_new s2,
    run_assign (eval_expr 1) "po.xi" (EInt 7) object_state = Ok (tt, s2) /\
    objs s2 = [[("xi", l_new)]] /\
    l_new = 3%nat /\
    cells s2 !! l_new = Some (VInt 7) /\
    cells s2 !! 1%nat = Some (VInt 1).
Proof.
  assert (H1 : split_dot "po.xi" = "po" :: [] ++ ["xi"]) by (vm_compute; reflexivity).
  assert (H2 : eval_expr 1 (EInt 7) object_state = Ok (2%nat, set_cells object_state (cells object_state ++ [VInt 7]))) by reflexivity.
  pose proof (C7_dotted_assignment (eval_expr 1) "po.xi" "po" "xi" []
                (EInt 7) object_state
                (set_cells object_state (cells object_state ++ [VInt 7]))
                2%nat 0%nat (VInt 7) (mkValue OBJECT (PObj 0%nat))
                [[("po", 0%nat)]]
                H1 H2 eq_refl eq_refl eq_refl eq_refl eq_refl)
    as [_ Hset].
  assert (Hacc : accepted (set_cells object_state (cells object_state ++ [VInt 7])) "xi" (VInt 7)).
  { right. split; [discriminate|reflexivity]. }
  destruct (Hset Hacc
              eq_refl ltac:(discriminate)
              0%nat _ (mkValue OBJECT (PObj 0%nat)) 0%nat [("xi", 1%nat)]
              eq_refl eq_refl eq_refl eq_refl)
    as (l_new & s2 & Hrun & Hobjs & _ & Hold & Hnew & _ & Hfresh).
  destruct Hfresh as [Hl _]; [discriminate|].
  exists l_new, s2. split; [exact Hrun|].
  split; [rewrite Hobjs, Hl; reflexivity|].
  split; [exact Hl|].
  split; [exact Hnew|].
  rewrite Hold; [reflexivity|]. simpl. lia.
Defined.

(** ** Lambda capture (C5) *)

Lemma pour_get x block : forall c,
  NoDup (Dict.keys block) ->
  Dict.get x (pour c block) =
    match Dict.get x block with Some l => Some l | None => Dict.get x c end.
Proof.
  induction block as [|[k val] r IH]; intros c Hnd; [reflexivity|].
  apply NoDup_cons in Hnd as [Hk Hnd].
  change (pour c ((k, val) :: r)) with (pour (Dict.set k val c) r).
  rewrite IH by exact Hnd. simpl.
  destruct (decide (x = k)) as [->|Hne].
  - destruct (Dict.get k r) as [l|] eqn:Hg.
    + exfalso. apply Hk. apply list_elem_of_In.
      apply get_In in Hg. apply (in_map fst) in Hg. exact Hg.
    + apply get_set_eq.
  - destruct (Dict.get x r); [reflexivity|]. apply get_set_ne. congruence.
Qed.

Lemma pour_NoDup block : forall c,
  NoDup (Dict.keys c) -> NoDup (Dict.keys (pour c block)).
Proof.
  induction block as [|[k val] r IH]; intros c Hnd; [exact Hnd|].
  change (pour c ((k, val) :: r)) with (pour (Dict.set k val c) r).
  apply IH. now apply set_NoDup.
Qed.

Lemma get_in_app_gen x (l1 l2 : list (dict loc)) :
  Environment.get_in x (l1 ++ l2) =
    match Environment.get_in x l1 with
    | Some l => Some l
    | None => Environment.get_in x l2
    end.
Proof.
  induction l1 as [|b r IH]; simpl; [reflexivity|].
  destruct (Dict.get x b); [reflexivity|exact IH].
Qed.

Lemma capture_fold_get x (fr : Environment.frame) : forall c,
  Forall (fun b => NoDup (Dict.keys b)) fr ->
  Dict.get x (fold_left pour fr c) =
    match Environment.get_in x (rev fr) with
    | Some l => Some l
    | None => Dict.get x c
    end.
Proof.
  induction fr as [|b r IH]; intros c Hwf; [reflexivity|].
  inversion Hwf as [|? ? Hb Hr]; subst.
  simpl. rewrite IH by exact Hr. rewrite get_in_app_gen. simpl.
  destruct (Environment.get_in x (rev r)); [reflexivity|].
  rewrite pour_get by exact Hb. destruct (Dict.get x b); reflexivity.
Qed.

Lemma capture_fold_NoDup (fr : Environment.frame) : forall c,
  NoDup (Dict.keys c) -> NoDup (Dict.keys (fold_left pour fr c)).
Proof.
  induction fr as [|b r IH]; intros c Hnd; [exact Hnd|].
  simpl. apply IH. now apply pour_NoDup.
Qed.

Lemma capture_vars_fold e fr :
  Environment.top e = Some fr ->
  Environment.capture_vars e = Some (fold_left pour fr []).
Proof. intros Htop. unfold Environment.capture_vars. now rewrite Htop. Qed.

Lemma name_in_params_false name params : name_in_params name params = false.
Proof. unfold name_in_params. induction params; simpl; auto. Qed.

Lemma Value_init_reference val :
  t val = OBJECT \/ t val = FUNCTION -> Value_init (t val) (v val) = Some val.
Proof.
  destruct val as [ty p]; simpl. unfold Value_init; simpl.
  intros [-> | ->]; destruct p; reflexivity.
Qed.

Lemma capture_one_Ok params c x l s val :
  cells s !! l = Some val ->
  capture_one params c (x, l) s =
    Ok (Dict.set x (length (cells s)) c, set_cells s (cells s ++ [val])).
Proof.
  intros Hl. unfold capture_one. cbn [fst snd].
  rewrite name_in_params_false. step (rd_Ok s l val Hl).
  assert (Hcopy : copy l s = Ok (length (cells s), set_cells s (cells s ++ [val]))).
  { unfold copy. step (rd_Ok s l val Hl). reflexivity. }
  destruct (t val) eqn:Ht; try (step Hcopy; reflexivity).
  - rewrite <- Ht.
    erewrite (bind_Ok (new_Value _ _));
      [reflexivity|apply new_Value_Ok, Value_init_reference; auto].
  - rewrite <- Ht.
    erewrite (bind_Ok (new_Value _ _));
      [reflexivity|apply new_Value_Ok, Value_init_reference; auto].
Qed.

Lemma capture_all_Ok params items : forall c s,
  NoDup (Dict.keys items) ->
  (forall x l, In (x, l) items -> exists val, cells s !! l = Some val) ->
  exists c' news,
    capture_all params items c s = Ok (c', set_cells s (cells s ++ news)) /\
    (forall x, ~ In x (Dict.keys items) -> Dict.get x c' = Dict.get x c) /\
    (forall x l, In (x, l) items ->
       exists l', Dict.get x c' = Some l' /\ (length (cells s) <= l')%nat /\
                  (cells s ++ news) !! l' = cells s !! l).
Proof.
  induction items as [|[k lk] r IH]; intros c s Hnd Hval.
  - exists c, []. split; [|split].
    + simpl. unfold ret. rewrite app_nil_r. destruct s; reflexivity.
    + reflexivity.
    + intros x l [].
  - apply NoDup_cons in Hnd as [Hk Hnd].
    destruct (Hval k lk (or_introl eq_refl)) as [val Hlk].
    set (s1 := set_cells s (cells s ++ [val])).
    destruct (IH (Dict.set k (length (cells s)) c) s1 Hnd)
      as (c' & news & Hrun & Hkeep & Hget).
    { intros x l Hin. destruct (Hval x l (or_intror Hin)) as [w Hw].
      exists w. subst s1. cbn [cells set_cells].
      rewrite lookup_snoc_old; [exact Hw|]. now apply lookup_lt_Some in Hw. }
    exists c', (val :: news). split; [|split].
    + cbn [capture_all]. step (capture_one_Ok params c k lk s val Hlk).
      fold s1. rewrite Hrun. subst s1. unfold set_cells; cbn.
      now rewrite <- app_assoc.
    + intros x Hx. rewrite Hkeep.
      * apply get_set_ne. intros ->. apply Hx. now left.
      * intros Hin. apply Hx. now right.
    + intros x l [Heq|Hin].
      * inversion Heq; subst x l. exists (length (cells s)).
        split; [|split; [lia|]].
        -- rewrite Hkeep; [apply get_set_eq|].
           intros Hin. apply Hk. now apply list_elem_of_In.
        -- rewrite lookup_app_r by lia.
           replace (length (cells s) - length (cells s))%nat with 0%nat by lia.
           simpl. now rewrite Hlk.
      * destruct (Hget x l Hin) as (l' & Hl' & Hge & Hcell).
        exists l'. subst s1. cbn [cells set_cells] in *.
        rewrite length_app in Hge. simpl in Hge.
        split; [exact Hl'|]. split; [lia|].
        rewrite <- app_assoc in Hcell. simpl in Hcell. rewrite Hcell.
        destruct (Hval x l (or_intror Hin)) as [w Hw].
        apply lookup_snoc_old. now apply lookup_lt_Some in Hw.
Qed.

Lemma Value_set_Ok s l r rv old :
  cells s !! r = Some rv -> cells s !! l = Some old ->
  Value_set l r s = Ok (tt, set_cells s (<[l := rv]> (cells s))).
Proof.
  intros Hr Hl. unfold Value_set.
  step (rd_Ok s r rv Hr). step (rd_Ok s l old Hl). reflexivity.
Qed.

Lemma Value_set_inv s l r u s2 :
  Value_set l r s = Ok (u, s2) ->
  exists rv, cells s !! r = Some rv /\ s2 = set_cells s (<[l := rv]> (cells s)).
Proof.
  unfold Value_set. intros H.
  apply bind_inv in H as (rv & s1 & H1 & H). apply rd_inv in H1 as [-> Hr].
  apply bind_inv in H as (old & s1 & H1 & H). apply rd_inv in H1 as [-> Hl].
  inversion H. eauto.
Qed.

(** C5.  Creating a lambda succeeds in a frame whose visible variables
    are held by wrappers of the store, and yields a new Function wrapper
    around a new Lambda object.  For every variable visible in the frame
    the snapshot has an entry; the entry is a wrapper that did not exist
    before and that has the tag and payload the variable has at that
    moment, so for an Object or Function variable it refers to the same
    field dictionary or descriptor.  Writing the outer variable afterwards
    leaves the captured wrapper as it is.  In [capture_program] the lambda
    prints the captured [xi] as 1 after the outer [xi] became 2, prints the
    field the caller changed to 2, and the field it sets is read by the
    caller. *)
Theorem C5_lambda_capture (s : State) (fr : Environment.frame)
    (name : string) (params : list Arg) (body : list Stmt) :
  Environment.top (env s) = Some fr ->
  Forall (fun b => NoDup (Dict.keys b)) fr ->
  (forall x l, Environment.get_in x (rev fr) = Some l ->
     exists val, cells s !! l = Some val) ->
  exists lf f captured s',
    create_lambda name params body s = Ok (lf, s') /\
    cells s' !! lf = Some (mkValue FUNCTION (PFun f)) /\
    fobjs s' !! f = Some (Lambda_init name params body captured) /\
    env s' = env s /\ objs s' = objs s /\
    (forall l, (l < length (cells s))%nat -> cells s' !! l = cells s !! l) /\
    (forall x l, Environment.get_in x (rev fr) = Some l ->
       exists l',
         Dict.get x captured = Some l' /\
         cells s !! l' = None /\
         cells s' !! l' = cells s !! l /\
         (forall r u s2, Value_set l r s' = Ok (u, s2) ->
            cells s2 !! l' = cells s' !! l')) /\
    run_program 10 capture_program [] = Ok ["1"; "2"; "9"; "2"].
Proof.
  intros Htop Hwf Hval.
  set (inscope := fold_left pour fr []).
  assert (Hnd : NoDup (Dict.keys inscope)).
  { apply capture_fold_NoDup. constructor. }
  assert (Hvis : forall x, Dict.get x inscope = Environment.get_in x (rev fr)).
  { intros x. unfold inscope. rewrite capture_fold_get by exact Hwf.
    destruct (Environment.get_in x (rev fr)); reflexivity. }
  destruct (capture_all_Ok params inscope [] s Hnd)
    as (captured & news & Hrun & _ & Hget).
  { intros x l Hin. apply (Hval x). rewrite <- Hvis. now apply In_get. }
  set (s1 := set_cells s (cells s ++ news)) in *.
  exists (length (cells s1)), (length (fobjs s1)), captured.
  eexists. split.
  - unfold create_lambda.
    erewrite (bind_Ok (env_read _)).
    2:{ unfold env_read. apply reads_Ok.
        rewrite (capture_vars_fold _ _ Htop). reflexivity. }
    fold inscope. step Hrun. fold s1.
    unfold bind at 1. cbn [new_fobj].
    exact (new_Value_Ok FUNCTION (PFun (length (fobjs s1)))
             (mkValue FUNCTION (PFun (length (fobjs s1))))
             (set_fobjs s1 (fobjs s1 ++ [Lambda_init name params body captured]))
             eq_refl).
  - cbn [cells env objs fobjs set_cells set_fobjs]. subst s1.
    cbn [cells env objs fobjs set_cells set_fobjs].
    split; [apply lookup_snoc_last|].
    split; [apply lookup_snoc_last|].
    split; [reflexivity|]. split; [reflexivity|].
    split.
    { intros l Hl. rewrite lookup_snoc_old by (rewrite length_app; lia).
      now apply lookup_app_l. }
    split; [|vm_compute; reflexivity].
    intros x l Hx.
    destruct (Hget x l) as (l' & Hl' & Hge & Hcell).
    { apply get_In. now rewrite Hvis. }
    destruct (Hval x l Hx) as [val Hl].
    assert (Hlt : (l' < length (cells s ++ news))%nat).
    { apply (lookup_lt_Some _ _ val). rewrite Hcell. exact Hl. }
    exists l'. split; [exact Hl'|].
    split; [apply lookup_ge_None; lia|].
    split; [rewrite lookup_snoc_old by exact Hlt; exact Hcell|].
    intros r u s2 Hset. apply Value_set_inv in Hset as (rv & _ & ->).
    cbn [cells set_cells]. apply list_lookup_insert_ne.
    apply lookup_lt_Some in Hl. lia.
Qed.

Lemma C5_lambda_capture_witness :
  exists lf captured s',
    create_lambda "lv" [] [] capture_state = Ok (lf, s') /\
    (exists l', Dict.get "xi" captured = Some l' /\
                cells capture_state !! l' = None /\
                cells s' !! l' = Some (VInt 1)) /\
    (exists l', Dict.get "po" captured = Some l' /\
                cells capture_state !! l' = None /\
                cells s' !! l' = Some (mkValue OBJECT (PObj 0%nat))).
Proof.
  assert (Hwf : Forall (fun b : dict loc => NoDup (Dict.keys b))
                  [[("xi", 0%nat); ("po", 1%nat)]]).
  { constructor; [|constructor]. simpl.
    apply NoDup_cons. split; [|apply NoDup_singleton].
    intros Hin. apply list_elem_of_In in Hin. simpl in Hin.
    destruct Hin as [Heq|[]]. discriminate. }
  assert (Hval : forall x l,
            Environment.get_in x (rev [[("xi", 0%nat); ("po", 1%nat)]]) = Some l ->
            exists val, cells capture_state !! l = Some val).
  { intros x l Hx. simpl in Hx.
    destruct (decide (x = "xi")); [inversion Hx; subst; eexists; reflexivity|].
    destruct (decide (x = "po")); [inversion Hx; subst; eexists; reflexivity|].
    discriminate. }
  destruct (C5_lambda_capture capture_state [[("xi", 0%nat); ("po", 1%nat)]]
              "lv" [] [] eq_refl Hwf Hval)
    as (lf & f & captured & s' & Hrun & _ & _ & _ & _ & _ & Hcap & _).
  exists lf, captured, s'. split; [exact Hrun|]. split.
  - destruct (Hcap "xi" 0%nat eq_refl) as (l' & Hl' & Hnew & Hsame & _).
    exists l'. repeat split; assumption.
  - destruct (Hcap "po" 1%nat eq_refl) as (l' & Hl' & Hnew & Hsame & _).
    exists l'. repeat split; assumption.
Defined.

(** ** Reference parameters (C1) *)

Lemma get_var_value_variable s x fr l :
  has_dot x = false -> overloads s x = [] ->
  Environment.top (env s) = Some fr ->
  Environment.get_in x (rev fr) = Some l ->
  get_var_value x s = Ok (l, s).
Proof.
  intros Hdot Hover Htop Hget. unfold get_var_value.
  rewrite (split_dot_plain x Hdot).
  unfold bind at 1. cbn [gets id]. rewrite Hover.
  step (env_exists_Ok s x fr Htop).
  rewrite (get_in_exists _ _ _ Hget). cbn [negb].
  step (when_false (error NAME_ERROR) s).
  step (env_get_Ok s x fr Htop). rewrite Hget. reflexivity.
Qed.

Lemma top_snoc (e : list Environment.frame) fr :
  Environment.top (e ++ [fr]) = Some fr.
Proof. apply last_snoc. Qed.

Lemma set_top_snoc (e : list Environment.frame) fr fr' :
  Environment.set_top fr' (e ++ [fr]) = e ++ [fr'].
Proof. unfold Environment.set_top. now rewrite removelast_last. Qed.

Lemma exit_func_snoc (e : list Environment.frame) fr :
  Environment.exit_func (e ++ [fr]) = Some e.
Proof.
  unfold Environment.exit_func. rewrite removelast_last.
  destruct e; reflexivity.
Qed.

Lemma check_interface_args_pass s : forall ks ls vals,
  Forall2 (fun l val => cells s !! l = Some val) ls vals ->
  (forall i p val, ks !! i = Some p -> vals !! i = Some val -> arg_passes s p val) ->
  forM_ (fun fa => check_interface_arg (fst fa) (snd fa)) (combine ks ls) s
    = Ok (tt, s).
Proof.
  induction ks as [|k ks IH]; intros ls vals Hcells Hpass; [reflexivity|].
  destruct Hcells as [|l val ls vals Hl Hcells]; [reflexivity|].
  cbn [combine forM_ fst snd].
  erewrite (bind_Ok (check_interface_arg k l)).
  - apply (IH ls vals Hcells). intros i p w Hp Hw. apply (Hpass (S i)); assumption.
  - pose proof (Hpass 0%nat k val eq_refl eq_refl) as Hk.
    unfold arg_passes in Hk. unfold check_interface_arg.
    destruct (get_interface_name k) as [iname|]; [|reflexivity].
    destruct Hk as [Ht Hsat]. step (rd_Ok s l val Hl).
    rewrite bool_decide_eq_true_2 by exact Ht. cbn [negb].
    erewrite (bind_Ok (reads _)) by (apply reads_Ok; exact Hsat).
    reflexivity.
Qed.

(** In a frame that does not hold the formal yet, the binding step of a
    call through a function value is the one of an ordinary call. *)
Lemma bind_ret {A B} (a : A) (k : A -> M B) s : bind (ret a) k s = k a s.
Proof. reflexivity. Qed.

Lemma bind_value_formal_fresh func_def (e : list Environment.frame) k l st b :
  env st = e ++ [[b]] -> Dict.get k b = None ->
  bind_value_formal func_def (k, l) st = bind_formal func_def (k, l) st.
Proof.
  intros Henv Hk. unfold bind_value_formal, bind_formal, ref_flag.
  cbn [fst snd].
  destruct (Dict.get k (formal_args func_def)) as [flag|]; [|reflexivity].
  cbn [lift_opt]. rewrite !bind_ret.
  destruct (clone_for_passing l flag st) as [[actual st1]| | |] eqn:Hclone;
    try (unfold bind; rewrite Hclone; reflexivity).
  assert (Henv1 : env st1 = e ++ [[b]]).
  { unfold clone_for_passing in Hclone. destruct flag.
    - inversion Hclone; subst; exact Henv.
    - unfold copy in Hclone. apply bind_inv in Hclone as (x & s0 & H0 & H1).
      apply rd_inv in H0 as [-> _]. inversion H1; subst. exact Henv. }
  rewrite !(bind_Ok _ _ _ _ _ Hclone).
  erewrite (bind_Ok (env_exists k)).
  2:{ apply env_exists_Ok. rewrite Henv1. apply top_snoc. }
  cbn [existsb]. unfold Dict.mem. rewrite Hk. reflexivity.
Qed.

(** The binding loop of a call, from a frame whose function scope is [b]
    and holds none of the formals: each formal is defined; a by-reference
    formal denotes the wrapper of its argument, a by-value formal a new
    wrapper.  [bf] is the binding step of either kind of call. *)
Lemma bind_formals func_def (e : list Environment.frame)
    (bf : string * loc -> M unit) :
  (forall k l st b, env st = e ++ [[b]] -> Dict.get k b = None ->
     bf (k, l) st = bind_formal func_def (k, l) st) ->
  forall ks ls b st,
  NoDup ks ->
  (forall k, In k ks -> In k (Dict.keys (formal_args func_def))) ->
  (forall k, In k ks -> Dict.get k b = None) ->
  (forall l, In l ls -> exists val, cells st !! l = Some val) ->
  env st = e ++ [[b]] ->
  exists news b',
    forM_ bf (combine ks ls) st =
      Ok (tt, set_env (set_cells st (cells st ++ news)) (e ++ [[b']])) /\
    (forall k l, Dict.get k b = Some l -> Dict.get k b' = Some l) /\
    (forall i p l,
       ks !! i = Some p -> ls !! i = Some l ->
       Dict.get p (formal_args func_def) = Some true ->
       Dict.get p b' = Some l) /\
    (forall i p l,
       ks !! i = Some p -> ls !! i = Some l ->
       Dict.get p (formal_args func_def) = Some false ->
       exists l', Dict.get p b' = Some l' /\ (length (cells st) <= l')%nat /\
                  (cells st ++ news) !! l' = cells st !! l).
Proof.
  intros Hbf.
  induction ks as [|k ks IH]; intros ls b st Hnd Hkeys Hfresh Hvalid Henv.
  - exists [], b. split; [|split; [|split]].
    + cbn. unfold ret. rewrite app_nil_r, <- Henv. destruct st; reflexivity.
    + auto.
    + intros i p l Hp. destruct i; discriminate.
    + intros i p l Hp. destruct i; discriminate.
  - destruct ls as [|l ls].
    { exists [], b. split; [|split; [|split]].
      + cbn. unfold ret. rewrite app_nil_r, <- Henv. destruct st; reflexivity.
      + auto.
      + intros i p l Hp Hl. destruct i; discriminate.
      + intros i p l Hp Hl. destruct i; discriminate. }
    apply NoDup_cons in Hnd as [Hk Hnd].
    destruct (In_keys_get k (formal_args func_def) (Hkeys k (or_introl eq_refl)))
      as [flag Hflag].
    destruct (Hvalid l (or_introl eq_refl)) as [val Hl].
    assert (Hmem : Dict.mem k b = false)
      by (apply mem_false, Hfresh; now left).
    (* one step *)
    set (actual := if flag then l else length (cells st)).
    set (st1 := if flag then st else set_cells st (cells st ++ [val])).
    set (b1 := Dict.set k actual b).
    assert (Hstep : bf (k, l) st = Ok (tt, set_env st1 (e ++ [[b1]]))).
    { rewrite (Hbf k l st b Henv (Hfresh k (or_introl eq_refl))).
      unfold bind_formal, ref_flag. cbn [fst snd]. rewrite Hflag.
      cbn [lift_opt]. unfold bind at 1. cbn [ret].
      assert (Hclone : clone_for_passing l flag st = Ok (actual, st1)).
      { subst actual st1. destruct flag; [reflexivity|].
        unfold clone_for_passing, copy. step (rd_Ok st l val Hl). reflexivity. }
      step Hclone.
      assert (Henv1 : env st1 = e ++ [[b]]).
      { subst st1. destruct flag; exact Henv. }
      unfold bind, env_fdef, env_update, Environment.fdef.
      rewrite Henv1, top_snoc, Hmem, set_top_snoc. reflexivity. }
    assert (Hcells1 : exists pre, cells st1 = cells st ++ pre /\
                        (flag = true -> pre = []) /\ (flag = false -> pre = [val])).
    { subst st1. destruct flag; [exists []|exists [val]];
        (split; [try (now rewrite app_nil_r); reflexivity|split; congruence]). }
    destruct Hcells1 as (pre & Hpre & Hpt & Hpf).
    destruct (IH ls b1 (set_env st1 (e ++ [[b1]])) Hnd)
      as (news & b' & Hrun & Hkeep & Href & Hval).
    + intros k' Hk'. apply Hkeys. now right.
    + intros k' Hk'. subst b1. rewrite get_set_ne.
      * apply Hfresh. now right.
      * intros ->. apply Hk. now apply list_elem_of_In.
    + intros l' Hl'. destruct (Hvalid l' (or_intror Hl')) as [w Hw].
      exists w. cbn [cells set_env]. rewrite Hpre.
      apply lookup_app_l_Some. exact Hw.
    + reflexivity.
    + exists (pre ++ news), b'. split; [|split; [|split]].
      * cbn [combine forM_]. step Hstep. rewrite Hrun.
        cbn [cells set_env set_cells]. rewrite Hpre.
        unfold set_env, set_cells; cbn. rewrite <- app_assoc.
        subst st1. destruct flag; reflexivity.
      * intros k' l' Hk'. apply Hkeep. subst b1. rewrite get_set_ne; [exact Hk'|].
        intros ->. rewrite (Hfresh k' (or_introl eq_refl)) in Hk'. discriminate.
      * intros i p l' Hp Hl' Htrue. destruct i as [|i]; simpl in Hp, Hl'.
        -- inversion Hp; inversion Hl'; subst p l'.
           apply Hkeep. subst b1 actual.
           assert (flag = true) as -> by congruence.
           apply get_set_eq.
        -- eapply Href; eauto.
      * intros i p l' Hp Hl' Hfalse. destruct i as [|i]; simpl in Hp, Hl'.
        -- inversion Hp; inversion Hl'; subst p l'.
           assert (flag = false) as Hf by congruence.
           exists (length (cells st)). split; [|split; [lia|]].
           ++ apply Hkeep. subst b1 actual. rewrite Hf. apply get_set_eq.
           ++ rewrite (Hpf Hf). rewrite lookup_app_r by lia.
              replace (length (cells st) - length (cells st))%nat with 0%nat by lia.
              simpl. now rewrite Hl.
        -- destruct (Hval i p l' Hp Hl' Hfalse) as (l2 & Hl2 & Hge & Hc).
           cbn [cells set_env] in Hge, Hc. rewrite Hpre in Hge, Hc.
           rewrite length_app in Hge.
           exists l2. split; [exact Hl2|]. split; [lia|].
           rewrite app_assoc, Hc.
           assert (Hin : In l' ls).
           { apply list_elem_of_In. eapply list_elem_of_lookup_2; eauto. }
           destruct (Hvalid l' (or_intror Hin)) as [w Hw].
           rewrite Hw. apply lookup_app_l_Some. exact Hw.
Qed.

Lemma assign_variable_in_place (ev : Expr -> M loc) p e s s1 r rv l old fr :
  has_dot p = false ->
  ev e s = Ok (r, s1) ->
  Environment.top (env s1) = Some fr ->
  Environment.get_in p (rev fr) = Some l ->
  cells s1 !! r = Some rv ->
  cells s1 !! l = Some old ->
  accepted s1 p rv ->
  run_assign ev p e s = Ok (tt, set_cells s1 (<[l := rv]> (cells s1))).
Proof.
  intros Hdot Hev Htop Hget Hr Hl Hacc. unfold run_assign.
  rewrite (split_dot_plain p Hdot). cbn [List.last].
  step Hev. step (env_exists_Ok s1 p fr Htop).
  rewrite (get_in_exists _ _ _ Hget). cbn [negb].
  step (when_false (error NAME_ERROR) s1).
  step (rd_Ok s1 r rv Hr).
  step (accepted_check p rv s1 Hacc).
  step (env_get_Ok s1 p fr Htop). rewrite Hget. cbn [lift_opt].
  unfold bind at 1. cbn [ret].
  now apply (Value_set_Ok s1 l r rv old).
Qed.

Lemma check_value_args_pass s : forall ks ls vals,
  Forall2 (fun l val => cells s !! l = Some val) ls vals ->
  (forall i p val, ks !! i = Some p -> vals !! i = Some val ->
     get_type p = t val /\ arg_passes s p val) ->
  forM_ check_value_arg (combine ks ls) s = Ok (tt, s).
Proof.
  induction ks as [|k ks IH]; intros ls vals Hcells Hpass; [reflexivity|].
  destruct Hcells as [|l val ls vals Hl Hcells]; [reflexivity|].
  cbn [combine forM_].
  erewrite (bind_Ok (check_value_arg (k, l))).
  - apply (IH ls vals Hcells). intros i p w Hp Hw. apply (Hpass (S i)); assumption.
  - destruct (Hpass 0%nat k val eq_refl eq_refl) as [Hty Hk].
    unfold arg_passes in Hk. unfold check_value_arg. cbn [fst snd].
    step (rd_Ok s l val Hl).
    rewrite bool_decide_eq_true_2 by exact Hty. cbn [negb].
    step (when_false (error TYPE_ERROR) s).
    destruct (get_interface_name k) as [iname|]; [|reflexivity].
    destruct Hk as [Ht Hsat].
    rewrite bool_decide_eq_true_2 by exact Ht. cbn [negb].
    step (when_false (error TYPE_ERROR) s).
    erewrite (bind_Ok (reads _)) by (apply reads_Ok; exact Hsat).
    reflexivity.
Qed.

Lemma set_env_same st (e : list Environment.frame) :
  env st = e -> set_env st e = st.
Proof. intros <-. destruct st; reflexivity. Qed.

(** Defining the captured variables in the new frame leaves every other
    name of the function scope as it is. *)
Lemma bind_captured (e : list Environment.frame) (captured : dict loc) :
  forall b st,
  env st = e ++ [[b]] ->
  exists b',
    forM_ (fun nv : string * loc => _ <- env_fdef (fst nv) (snd nv) ;; ret tt)
      captured st = Ok (tt, set_env st (e ++ [[b']])) /\
    (forall k, ~ In k (Dict.keys captured) -> Dict.get k b' = Dict.get k b).
Proof.
  induction captured as [|[n l] r IH]; intros b st Henv.
  - exists b. split; [|reflexivity].
    cbn. unfold ret. now rewrite set_env_same.
  - set (b1 := if Dict.mem n b then b else Dict.set n l b).
    assert (Hstep : env_fdef n l st =
                    Ok (negb (Dict.mem n b), set_env st (e ++ [[b1]]))).
    { unfold env_fdef, env_update, Environment.fdef.
      rewrite Henv, top_snoc. subst b1. destruct (Dict.mem n b).
      - rewrite <- Henv. now rewrite set_env_same.
      - now rewrite set_top_snoc. }
    destruct (IH b1 (set_env st (e ++ [[b1]])) eq_refl) as (b' & Hrun & Hkeep).
    exists b'. split.
    + cbn [forM_ fst snd]. unfold bind at 1. unfold bind at 1.
      rewrite Hstep. cbn [ret]. exact Hrun.
    + intros k Hk. rewrite Hkeep by (intros Hin; apply Hk; now right).
      subst b1. destruct (Dict.mem n b); [reflexivity|].
      apply get_set_ne. intros ->. apply Hk. now left.
Qed.

(** A call through a function value none of whose formals bears a name
    that the new frame already holds. *)
Lemma call_function_value_binds ev rs f fo args selfo s s1 ls vals :
  mapM ev args s = Ok (ls, s1) ->
  Forall2 (fun l val => cells s1 !! l = Some val) ls vals ->
  (forall val, In val vals -> t val <> VOID /\ t val <> ERROR) ->
  fobjs s1 !! f = Some fo ->
  length ls = length (formal_args fo) ->
  NoDup (Dict.keys (formal_args fo)) ->
  (forall i p val,
     Dict.keys (formal_args fo) !! i = Some p -> vals !! i = Some val ->
     get_type p = t val /\ arg_passes s1 p val) ->
  (forall p, In p (Dict.keys (formal_args fo)) ->
     (selfo = None \/ p <> "selfo") /\
     (forall captured, captured_vars fo = Some captured ->
        ~ In p (Dict.keys captured))) ->
  exists news b0,
    let s_body :=
      set_env (set_cells s1 (cells s1 ++ news)) (env s1 ++ [[b0]]) in
    call_function_value ev rs (PFun f) args selfo s =
      (r <- rs fo (fstatements fo) ;; env_exit_func ;; ret (fst r)) s_body /\
    Environment.exit_func (env s_body) = Some (env s1) /\
    (forall i p l,
       Dict.keys (formal_args fo) !! i = Some p ->
       ls !! i = Some l ->
       Dict.get p (formal_args fo) = Some true ->
       Environment.get p (env s_body) = Some (Some l) /\
       cells s_body !! l = cells s1 !! l).
Proof.
  intros Hargs Hcells Htags Hfo Hlen Hnd Hpass Hfresh.
  (* the function scope once [selfo] and the captured variables are in *)
  set (b_self := match selfo with
                 | Some receiver => [("selfo", receiver)]
                 | None => []
                 end : dict loc).
  set (captured := match captured_vars fo with Some c => c | None => [] end).
  destruct (bind_captured (env s1) captured b_self
              (set_env s1 (env s1 ++ [[b_self]])) eq_refl)
    as (b_c & Hcap & Hkeepc).
  assert (Hfresh_c : forall k, In k (Dict.keys (formal_args fo)) ->
                               Dict.get k b_c = None).
  { intros k Hk. destruct (Hfresh k Hk) as [Hself Hnot].
    rewrite Hkeepc.
    - subst b_self. destruct selfo as [receiver|]; [|reflexivity].
      destruct Hself as [Hs|Hs]; [discriminate|].
      simpl. destruct (decide (k = "selfo")); [contradiction|reflexivity].
    - subst captured. destruct (captured_vars fo) as [c|]; [|intros []].
      now apply Hnot. }
  destruct (bind_formals fo (env s1) (bind_value_formal fo)
              (bind_value_formal_fresh fo (env s1))
              (Dict.keys (formal_args fo)) ls b_c
              (set_env s1 (env s1 ++ [[b_c]])) Hnd)
    as (news & b0 & Hbind & _ & Href & _).
  { auto. }
  { exact Hfresh_c. }
  { intros l Hl. apply list_elem_of_In in Hl.
    apply list_elem_of_lookup_1 in Hl as [i Hi].
    destruct (Forall2_lookup_l _ _ _ _ _ Hcells Hi) as (val & _ & Hv).
    exists val. exact Hv. }
  { reflexivity. }
  exists news, b0. cbn zeta. split; [|split].
  - unfold call_function_value. step Hargs.
    step (mapM_rd_Ok s1 ls vals Hcells).
    erewrite (bind_Ok (reads _)).
    2:{ apply reads_Ok. unfold get_arguments_type_signature.
        now apply arguments_sig_ok. }
    erewrite (bind_Ok (reads _)).
    2:{ apply reads_Ok. unfold fobj. rewrite Hfo. reflexivity. }
    rewrite Hlen, Nat.eqb_refl. cbn [negb].
    step (when_false (error TYPE_ERROR) s1).
    step (check_value_args_pass s1 _ ls vals Hcells Hpass).
    unfold bind at 1. cbn [env_enter_func modify].
    unfold Environment.enter_func.
    assert (Hself : (match selfo with
                     | Some receiver => _ <- env_fdef "selfo" receiver ;; ret tt
                     | None => ret tt
                     end) (set_env s1 (env s1 ++ [[[]]]))
                    = Ok (tt, set_env s1 (env s1 ++ [[b_self]]))).
    { subst b_self. destruct selfo as [receiver|]; [|reflexivity].
      unfold bind, env_fdef, env_update, Environment.fdef. cbn [env set_env].
      rewrite top_snoc. cbn. now rewrite set_top_snoc. }
    step Hself.
    assert (Hcapt : (match captured_vars fo with
                     | Some c =>
                         forM_ (fun nv : string * loc =>
                                  _ <- env_fdef (fst nv) (snd nv) ;; ret tt) c
                     | None => ret tt
                     end) (set_env s1 (env s1 ++ [[b_self]]))
                    = Ok (tt, set_env s1 (env s1 ++ [[b_c]]))).
    { subst captured. destruct (captured_vars fo) as [c|]; exact Hcap. }
    step Hcapt. step Hbind. reflexivity.
  - cbn [env set_env]. apply exit_func_snoc.
  - intros i p l Hp Hl Htrue. split.
    + cbn [env set_env]. unfold Environment.get. rewrite top_snoc.
      cbn [rev app Environment.get_in].
      now rewrite (Href i p l Hp Hl Htrue).
    + cbn [cells set_env set_cells].
      destruct (Forall2_lookup_l _ _ _ _ _ Hcells Hl) as (val & _ & Hv).
      rewrite Hv. apply lookup_app_l_Some. exact Hv.
Qed.

(** C1, as the claim states it, fails twice.  The program of the claim
    names its function [bump]; the trailing [p] gives no return type, and
    the run ends in TypeError while the function table is built.  And a
    reference parameter of a lambda that bears the name of a captured
    variable is bound by writing the captured wrapper, not by binding the
    caller's wrapper: the write inside the lambda is not seen by the
    caller, which prints 5. *)
Lemma C1_write_not_visible :
  run_program 10 (bump_program "bump") [] = Err TYPE_ERROR /\
  run_program 10 shadowing_lambda_program [] = Ok ["5"].
Proof. split; vm_compute; reflexivity. Qed.

(** C1, amended.  In an ordinary (overload-resolved) call, and in a call
    through a function value or a method none of whose formals bears a
    name the new frame already holds ([selfo] of a method call, a variable
    captured by a lambda), the body runs in a new frame in which every
    by-reference formal denotes the very wrapper that evaluating its
    actual argument produced, and the caller's frame is back when the call
    returns.  Evaluating a plain variable that does not bear the name of a
    declared function produces the wrapper the variable denotes.  An
    assignment to a variable writes the tag and payload of the wrapper the
    variable denotes and leaves the environment and all other wrappers
    alone, so the caller's variable reads the new value.  The program
    [def bumpv(&xi){ xi = xi + 1; } def main(){ var ti; ti = 5; bumpv(ti);
    print(ti); }] outputs 6. *)
Theorem C1_reference_parameter :
  (forall (ev : Expr -> M loc) (rs : FuncObj -> list Stmt -> M (loc * bool))
          (fname : string) (args : list Expr) (s s1 : State)
          (ls : list loc) (vals : list Value) (f : floc) (func_def : FuncObj),
     fname <> "inputi" -> fname <> "inputs" -> fname <> "print" ->
     has_dot fname = false ->
     (forall l, Environment.get fname (env s) = Some (Some l) ->
        exists x, cells s !! l = Some x /\ t x <> FUNCTION) ->
     mapM ev args s = Ok (ls, s1) ->
     Forall2 (fun l val => cells s1 !! l = Some val) ls vals ->
     (forall val, In val vals -> t val <> VOID /\ t val <> ERROR) ->
     Dict.get (fname, signature_of vals) (funcs s1) = Some f ->
     fobjs s1 !! f = Some func_def ->
     NoDup (Dict.keys (formal_args func_def)) ->
     (forall i p val,
        Dict.keys (formal_args func_def) !! i = Some p ->
        vals !! i = Some val -> arg_passes s1 p val) ->
     exists news b0,
       let s_body :=
         set_env (set_cells s1 (cells s1 ++ news)) (env s1 ++ [[b0]]) in
       run_fcall ev rs fname args s =
         (r <- rs func_def (fstatements func_def) ;;
          env_exit_func ;; ret (fst r)) s_body /\
       Environment.exit_func (env s_body) = Some (env s1) /\
       (forall i p l,
          Dict.keys (formal_args func_def) !! i = Some p ->
          ls !! i = Some l ->
          Dict.get p (formal_args func_def) = Some true ->
          Environment.get p (env s_body) = Some (Some l) /\
          cells s_body !! l = cells s1 !! l)) /\
  (forall (ev : Expr -> M loc) (rs : FuncObj -> list Stmt -> M (loc * bool))
          (f : floc) (fo : FuncObj) (args : list Expr) (selfo : option loc)
          (s s1 : State) (ls : list loc) (vals : list Value),
     mapM ev args s = Ok (ls, s1) ->
     Forall2 (fun l val => cells s1 !! l = Some val) ls vals ->
     (forall val, In val vals -> t val <> VOID /\ t val <> ERROR) ->
     fobjs s1 !! f = Some fo ->
     length ls = length (formal_args fo) ->
     NoDup (Dict.keys (formal_args fo)) ->
     (forall i p val,
        Dict.keys (formal_args fo) !! i = Some p -> vals !! i = Some val ->
        get_type p = t val /\ arg_passes s1 p val) ->
     (forall p, In p (Dict.keys (formal_args fo)) ->
        (selfo = None \/ p <> "selfo") /\
        (forall captured, captured_vars fo = Some captured ->
           ~ In p (Dict.keys captured))) ->
     exists news b0,
       let s_body :=
         set_env (set_cells s1 (cells s1 ++ news)) (env s1 ++ [[b0]]) in
       call_function_value ev rs (PFun f) args selfo s =
         (r <- rs fo (fstatements fo) ;; env_exit_func ;; ret (fst r)) s_body /\
       Environment.exit_func (env s_body) = Some (env s1) /\
       (forall i p l,
          Dict.keys (formal_args fo) !! i = Some p ->
          ls !! i = Some l ->
          Dict.get p (formal_args fo) = Some true ->
          Environment.get p (env s_body) = Some (Some l) /\
          cells s_body !! l = cells s1 !! l)) /\
  (forall (fuel : nat) (s : State) (x : string) (fr : Environment.frame)
          (l : loc),
     has_dot x = false -> overloads s x = [] ->
     Environment.top (env s) = Some fr ->
     Environment.get_in x (rev fr) = Some l ->
     eval_expr (S fuel) (EQName x) s = Ok (l, s)) /\
  (forall (ev : Expr -> M loc) (p : string) (e : Expr) (s s1 : State)
          (r l : loc) (rv old : Value) (fr : Environment.frame),
     has_dot p = false ->
     ev e s = Ok (r, s1) ->
     Environment.top (env s1) = Some fr ->
     Environment.get_in p (rev fr) = Some l ->
     cells s1 !! r = Some rv ->
     cells s1 !! l = Some old ->
     accepted s1 p rv ->
     exists s2,
       run_assign ev p e s = Ok (tt, s2) /\
       cells s2 !! l = Some rv /\
       env s2 = env s1 /\
       (forall l', l' <> l -> cells s2 !! l' = cells s1 !! l')) /\
  run_program 10 (bump_program "bumpv") [] = Ok ["6"].
Proof.
  split; [|split; [|split; [|split; [|vm_compute; reflexivity]]]].
  - intros ev rs fname args s s1 ls vals f func_def H1 H2 H3 Hdot Hvar
      Hargs Hcells Htags Hf Hfd Hnd Hpass.
    destruct (bind_formals func_def (env s1) (bind_formal func_def)
                (fun _ _ _ _ _ _ => eq_refl)
                (Dict.keys (formal_args func_def)) ls []
                (set_env s1 (env s1 ++ [[[]]])) Hnd)
      as (news & b0 & Hbind & _ & Href & _).
    + auto.
    + reflexivity.
    + intros l Hl. apply list_elem_of_In in Hl.
      apply list_elem_of_lookup_1 in Hl as [i Hi].
      destruct (Forall2_lookup_l _ _ _ _ _ Hcells Hi) as (val & _ & Hv).
      exists val. exact Hv.
    + reflexivity.
    + exists news, b0. cbn zeta. split; [|split].
      * rewrite (run_fcall_resolved ev rs fname args s s1 ls vals
                   f func_def H1 H2 H3 Hdot Hvar Hargs Hcells Htags Hf Hfd).
        cbn zeta.
        step (check_interface_args_pass s1 _ ls vals Hcells Hpass).
        unfold bind at 1. cbn [env_enter_func modify].
        unfold Environment.enter_func. step Hbind.
        reflexivity.
      * cbn [env set_env]. apply exit_func_snoc.
      * intros i p l Hp Hl Htrue. split.
        -- cbn [env set_env]. unfold Environment.get. rewrite top_snoc.
           cbn [rev app Environment.get_in].
           now rewrite (Href i p l Hp Hl Htrue).
        -- cbn [cells set_env set_cells].
           destruct (Forall2_lookup_l _ _ _ _ _ Hcells Hl) as (val & _ & Hv).
           rewrite Hv. apply lookup_app_l_Some. exact Hv.
  - intros ev rs f fo args selfo s s1 ls vals.
    apply call_function_value_binds.
  - intros fuel s x fr l Hdot Hover Htop Hget.
    cbn [eval_expr eval_expr_body].
    eapply get_var_value_variable; eauto.
  - intros ev p e s s1 r l rv old fr Hdot Hev Htop Hget Hr Hl Hacc.
    eexists. split; [eapply assign_variable_in_place; eauto|].
    cbn [cells env set_cells].
    split; [|split; [reflexivity|]].
    + apply list_lookup_insert_eq. now apply lookup_lt_Some in Hl.
    + intros l' Hne. apply list_lookup_insert_ne. congruence.
Qed.

Lemma C1_reference_parameter_witness :
  exists news b0,
    let s_body :=
      set_env (set_cells bump_state (cells bump_state ++ news))
        (env bump_state ++ [[b0]]) in
    run_fcall (eval_expr 1) (run_statements 1) "bumpv" [EQName "ti"]
      bump_state =
      (r <- run_statements 1
              (Function_init "bumpv" [mkArg "xi" true]
                 [SAssign "xi" (EBop Add (EQName "xi") (EInt 1))])
              [SAssign "xi" (EBop Add (EQName "xi") (EInt 1))] ;;
       env_exit_func ;; ret (fst r)) s_body /\
    Environment.get "ti" (env bump_state) = Some (Some 0%nat) /\
    Environment.get "xi" (env s_body) = Some (Some 0%nat).
Proof.
  set (fd := Function_init "bumpv" [mkArg "xi" true]
               [SAssign "xi" (EBop Add (EQName "xi") (EInt 1))]).
  assert (Hvar : forall l,
            Environment.get "bumpv" (env bump_state) = Some (Some l) ->
            exists x, cells bump_state !! l = Some x /\ t x <> FUNCTION).
  { intros l Hl. vm_compute in Hl. discriminate. }
  assert (Hargs : mapM (eval_expr 1) [EQName "ti"] bump_state
                  = Ok ([0%nat], bump_state)) by (vm_compute; reflexivity).
  assert (Hcells : Forall2 (fun l val => cells bump_state !! l = Some val)
                     [0%nat] [VInt 5]).
  { constructor; [|constructor]. vm_compute. reflexivity. }
  assert (Htags : forall val, In val [VInt 5] -> t val <> VOID /\ t val <> ERROR).
  { intros val [<-|[]]. split; discriminate. }
  assert (Hf : Dict.get ("bumpv", signature_of [VInt 5]) (funcs bump_state)
               = Some 0%nat) by (vm_compute; reflexivity).
  assert (Hfd : fobjs bump_state !! 0%nat = Some fd) by (vm_compute; reflexivity).
  assert (Hnd : NoDup (Dict.keys (formal_args fd))).
  { vm_compute. apply NoDup_singleton. }
  assert (Hpass : forall i p val,
            Dict.keys (formal_args fd) !! i = Some p ->
            [VInt 5] !! i = Some val -> arg_passes bump_state p val).
  { intros i p val Hp Hv. destruct i as [|i]; [|destruct i; discriminate].
    vm_compute in Hp. inversion Hp; subst p. exact I. }
  destruct (proj1 C1_reference_parameter (eval_expr 1) (run_statements 1)
              "bumpv" [EQName "ti"] bump_state bump_state
              [0%nat] [VInt 5] 0%nat fd
              ltac:(discriminate) ltac:(discriminate) ltac:(discriminate)
              eq_refl Hvar Hargs Hcells Htags Hf Hfd Hnd Hpass)
    as (news & b0 & Hcall & _ & Href).
  exists news, b0. cbn zeta in *. split; [exact Hcall|].
  split; [vm_compute; reflexivity|].
  apply (Href 0%nat "xi" 0%nat); vm_compute; reflexivity.
Defined.

(** ** What a run keeps *)

Lemma fields_kept_refl o : fields_kept o o.
Proof. intros i d Hd. exists d, []. now rewrite app_nil_r. Qed.

Lemma fields_kept_trans o1 o2 o3 :
  fields_kept o1 o2 -> fields_kept o2 o3 -> fields_kept o1 o3.
Proof.
  intros H12 H23 i d Hd.
  destruct (H12 i d Hd) as (d2 & m2 & Hd2 & Hk2).
  destruct (H23 i d2 Hd2) as (d3 & m3 & Hd3 & Hk3).
  exists d3, (m2 ++ m3). split; [exact Hd3|].
  now rewrite Hk3, Hk2, app_assoc.
Qed.

Lemma fields_kept_app o more : fields_kept o (o ++ more).
Proof.
  intros i d Hd. exists d, []. split; [|now rewrite app_nil_r].
  now apply lookup_app_l_Some.
Qed.

Lemma fields_kept_set o i d sub l :
  o !! i = Some d -> fields_kept o (<[i := Dict.set sub l d]> o).
Proof.
  intros Hi j dj Hj. destruct (decide (i = j)) as [<-|Hne].
  - assert (dj = d) as -> by congruence.
    exists (Dict.set sub l d).
    destruct (Dict.mem sub d) eqn:Hm.
    + exists []. split.
      * apply list_lookup_insert_eq. now apply lookup_lt_Some in Hi.
      * now rewrite keys_set_old, app_nil_r.
    + exists [sub]. split.
      * apply list_lookup_insert_eq. now apply lookup_lt_Some in Hi.
      * now apply keys_set_new.
  - exists dj, []. split; [|now rewrite app_nil_r].
    now rewrite list_lookup_insert_ne.
Qed.

Lemma grows_refl s : grows s s.
Proof.
  unfold grows.
  repeat split; auto using fields_kept_refl;
    try (exists []; now rewrite app_nil_r).
  exists []. reflexivity.
Qed.

Lemma grows_trans s1 s2 s3 : grows s1 s2 -> grows s2 s3 -> grows s1 s3.
Proof.
  intros (Hf & Hi & [m1 Hm1] & Hc & Ho & [o1 Ho1] & [u1 Hu1])
         (Hf' & Hi' & [m2 Hm2] & Hc' & Ho' & [o2 Ho2] & [u2 Hu2]).
  unfold grows. split; [congruence|]. split; [congruence|].
  split; [exists (m1 ++ m2); now rewrite Hm2, Hm1, app_assoc|].
  split; [lia|]. split; [eapply fields_kept_trans; eauto|].
  split.
  - exists (o1 ++ o2). now rewrite Ho2, Ho1, app_assoc.
  - exists (u1 ++ u2). now rewrite Hu1, Hu2, app_assoc.
Qed.

(** A change of one component. *)
Lemma grows_intro s s' :
  funcs s' = funcs s -> interfaces s' = interfaces s ->
  (exists more, fobjs s' = fobjs s ++ more) ->
  (length (cells s) <= length (cells s'))%nat ->
  fields_kept (objs s) (objs s') ->
  (exists more, output s' = output s ++ more) ->
  (exists used, input s = used ++ input s') ->
  grows s s'.
Proof. unfold grows. tauto. Qed.

Ltac grows_leaf :=
  apply grows_intro; cbn;
  first [reflexivity
        |apply fields_kept_refl
        |apply fields_kept_app
        |(exists []; now rewrite app_nil_r)
        |(exists []; reflexivity)
        |(eexists; reflexivity)
        |(rewrite ?length_app, ?length_insert; lia)
        |idtac].

Lemma same_env_refl s : same_env s s.
Proof. split; [apply grows_refl|reflexivity]. Qed.

Lemma same_env_trans s1 s2 s3 : same_env s1 s2 -> same_env s2 s3 -> same_env s1 s3.
Proof.
  intros [Hg He] [Hg' He']. split; [eapply grows_trans; eauto|congruence].
Qed.

Lemma same_frames_refl s : same_frames s s.
Proof. split; [apply grows_refl|split; reflexivity]. Qed.

Lemma same_frames_trans s1 s2 s3 :
  same_frames s1 s2 -> same_frames s2 s3 -> same_frames s1 s3.
Proof.
  intros (Hg & Hr & Ht) (Hg' & Hr' & Ht').
  split; [eapply grows_trans; eauto|split; congruence].
Qed.

Lemma same_env_frames s s' : same_env s s' -> same_frames s s'.
Proof. intros [Hg He]. split; [exact Hg|]. rewrite He. split; reflexivity. Qed.

(** *** The rules *)

Lemma keeps_bind {A B} (R : State -> State -> Prop) (m : M A) (k : A -> M B) :
  (forall s1 s2 s3, R s1 s2 -> R s2 s3 -> R s1 s3) ->
  keeps R m -> (forall a, keeps R (k a)) -> keeps R (bind m k).
Proof.
  intros Htrans Hm Hk s b s' Hrun.
  apply bind_inv in Hrun as (a & s1 & H1 & H2).
  eapply Htrans; [eapply Hm|eapply Hk]; eauto.
Qed.

Lemma keeps_weaken {A} (R R' : State -> State -> Prop) (m : M A) :
  (forall s s', R s s' -> R' s s') -> keeps R m -> keeps R' m.
Proof. intros Himp Hm s a s' Hrun. eapply Himp, Hm; eauto. Qed.

Lemma keeps_ret {A} (a : A) : keeps same_env (ret a).
Proof. intros s b s' H. inversion H; subst. apply same_env_refl. Qed.

Lemma keeps_error {A} R e : keeps R (@error A e).
Proof. intros s a s' H. discriminate. Qed.

Lemma keeps_raise {A} R : keeps R (@raise A).
Proof. intros s a s' H. discriminate. Qed.

Lemma keeps_out_of_fuel {A} R : keeps R (@out_of_fuel A).
Proof. intros s a s' H. discriminate. Qed.

Lemma keeps_reads {A} (f : State -> Res A) : keeps same_env (reads f).
Proof.
  intros s a s' H. apply reads_inv in H as [-> _]. apply same_env_refl.
Qed.

Lemma keeps_gets {A} (f : State -> A) : keeps same_env (gets f).
Proof. intros s a s' H. inversion H; subst. apply same_env_refl. Qed.

Lemma keeps_lift_opt {A} (o : option A) : keeps same_env (lift_opt o).
Proof.
  destruct o; [apply keeps_ret|apply keeps_raise].
Qed.

Lemma keeps_when b m : keeps same_env m -> keeps same_env (when_ b m).
Proof. intros Hm. destruct b; [exact Hm|apply keeps_ret]. Qed.

Lemma keeps_alloc x : keeps same_env (alloc x).
Proof.
  intros s a s' H. inversion H; subst. split; [|reflexivity]. grows_leaf.
Qed.

Lemma keeps_Value_set l r : keeps same_env (Value_set l r).
Proof.
  intros s a s' H. apply Value_set_inv in H as (rv & _ & ->).
  split; [|reflexivity]. grows_leaf.
Qed.

Lemma keeps_new_dict : keeps same_env new_dict.
Proof.
  intros s a s' H. inversion H; subst. split; [|reflexivity]. grows_leaf.
Qed.

Lemma keeps_new_fobj f : keeps same_env (new_fobj f).
Proof.
  intros s a s' H. inversion H; subst. split; [|reflexivity]. grows_leaf.
Qed.

Lemma keeps_host_output text : keeps same_env (host_output text).
Proof.
  intros s a s' H. inversion H; subst. split; [|reflexivity]. grows_leaf.
Qed.

Lemma keeps_host_get_input : keeps same_env host_get_input.
Proof.
  intros s a s' H. unfold host_get_input in H.
  destruct (input s) as [|line r] eqn:Hin; inversion H; subst.
  - apply same_env_refl.
  - split; [|reflexivity]. grows_leaf. exists [line]. exact Hin.
Qed.

Lemma keeps_setitem p sub l : keeps same_env (setitem p sub l).
Proof.
  intros s a s' H. unfold setitem in H. destruct p; try discriminate.
  apply bind_inv in H as (d & s1 & H1 & H2).
  apply reads_inv in H1 as [-> Hd]. inversion H2; subst.
  split; [|reflexivity]. grows_leaf.
  apply fields_kept_set. unfold fields, of_option in Hd.
  destruct (objs s !! o); [inversion Hd; reflexivity|discriminate].
Qed.

Lemma keeps_mapM {A B} (f : A -> M B) (l : list A) :
  (forall a, keeps same_env (f a)) -> keeps same_env (mapM f l).
Proof.
  intros Hf. induction l as [|a r IH]; cbn [mapM].
  - apply keeps_ret.
  - apply keeps_bind; [apply same_env_trans|apply Hf|intros b].
    apply keeps_bind; [apply same_env_trans|apply IH|intros bs].
    apply keeps_ret.
Qed.

Lemma keeps_forM_ {A} R (f : A -> M unit) (l : list A) :
  (forall s, R s s) -> (forall s1 s2 s3, R s1 s2 -> R s2 s3 -> R s1 s3) ->
  (forall a, keeps R (f a)) -> keeps R (forM_ f l).
Proof.
  intros Hrefl Htrans Hf. induction l as [|a r IH]; cbn [forM_].
  - intros s u s' H. inversion H; subst. apply Hrefl.
  - apply keeps_bind; [exact Htrans|apply Hf|intros _; exact IH].
Qed.

Lemma keeps_rd l : keeps same_env (rd l).
Proof. apply keeps_reads. Qed.

Lemma keeps_env_read {A} (f : list Environment.frame -> option A) :
  keeps same_env (env_read f).
Proof. apply keeps_reads. Qed.

(** Composing steps that keep the environment. *)
Ltac keep_with tac :=
  repeat first
    [ tac | apply keeps_ret | apply keeps_error | apply keeps_raise
    | apply keeps_rd | apply keeps_reads | apply keeps_gets
    | apply keeps_env_read
    | apply keeps_lift_opt | apply keeps_alloc | apply keeps_Value_set
    | apply keeps_new_dict | apply keeps_new_fobj | apply keeps_host_output
    | apply keeps_host_get_input | apply keeps_setitem
    | apply keeps_when
    | assumption
    | (apply keeps_bind; [apply same_env_trans| |intros ?])
    | match goal with
      | H : forall e, keeps same_env (_ e) |- keeps same_env (_ _) => apply H
      | |- keeps _ (match ?x with _ => _ end) => destruct x
      | |- keeps _ (if ?b then _ else _) => destruct b
      | |- keeps _ (let _ := _ in _) => cbn zeta
      end ].

Ltac keep_env := keep_with fail.

Lemma keeps_new_Value ty p : keeps same_env (new_Value ty p).
Proof. unfold new_Value. keep_env. Qed.

Lemma keeps_copy l : keeps same_env (copy l).
Proof. unfold copy. keep_env. Qed.

Lemma keeps_env_exists name : keeps same_env (env_exists name).
Proof. apply keeps_reads. Qed.

Lemma keeps_env_get name : keeps same_env (env_get name).
Proof. apply keeps_reads. Qed.

Lemma removelast_set_top (fr : Environment.frame) e :
  removelast (Environment.set_top fr e) = removelast e.
Proof. unfold Environment.set_top. apply removelast_last. Qed.

Lemma grows_set_env s e : grows s (set_env s e).
Proof. apply (grows_refl s). Qed.

Lemma keeps_env_fdef name l : keeps same_frames (env_fdef name l).
Proof.
  intros s ok s' H. unfold env_fdef, env_update, Environment.fdef in H.
  destruct (Environment.top (env s)) as [[|b0 rest]|] eqn:Htop; try discriminate.
  destruct (Dict.mem name b0); inversion H; subst.
  - rewrite set_env_same by reflexivity. apply same_frames_refl.
  - split; [apply grows_set_env|]. cbn [env set_env].
    rewrite removelast_set_top, top_set_top, Htop. split; reflexivity.
Qed.

Lemma keeps_env_bdef name l : keeps same_frames (env_bdef name l).
Proof.
  intros s ok s' H. unfold env_bdef, env_update, Environment.bdef in H.
  destruct (Environment.top (env s)) as [fr|] eqn:Htop; try discriminate.
  destruct (last fr) as [b|] eqn:Hlast; try discriminate.
  destruct (Dict.mem name b); inversion H; subst.
  - rewrite set_env_same by reflexivity. apply same_frames_refl.
  - split; [apply grows_set_env|]. cbn [env set_env].
    rewrite removelast_set_top, top_set_top, Htop. split; [reflexivity|].
    cbn. f_equal.
    destruct fr as [|b0 r]; [discriminate|].
    destruct (exists_last (l := b0 :: r) ltac:(discriminate)) as (pre & x & Hpre).
    rewrite Hpre, removelast_last, !length_app. reflexivity.
Qed.


(** *** Steps that push and pop frames and blocks *)

Lemma triple_bind {A B} P Q R (m : M A) (k : A -> M B) :
  triple P m Q -> (forall a, triple Q (k a) R) -> triple P (bind m k) R.
Proof.
  intros Hm Hk s b s' HP Hrun.
  apply bind_inv in Hrun as (a & s1 & H1 & H2).
  destruct (Hm s a s1 HP H1) as [Hg HQ].
  destruct (Hk a s1 b s' HQ H2) as [Hg' HR].
  split; [eapply grows_trans; eauto|exact HR].
Qed.

Lemma triple_of_env {A} E (m : M A) :
  keeps same_env m -> triple (env_is E) m (env_is E).
Proof.
  intros Hm s a s' HP Hrun. destruct (Hm s a s' Hrun) as [Hg He].
  split; [exact Hg|]. unfold env_is in *. congruence.
Qed.

Lemma triple_of_frames {A} E n (m : M A) :
  keeps same_frames m -> triple (in_frame E n) m (in_frame E n).
Proof.
  intros Hm s a s' [HE Hn] Hrun. destruct (Hm s a s' Hrun) as (Hg & Hr & Ht).
  split; [exact Hg|]. split; congruence.
Qed.

Lemma keeps_of_triple_env {A} (m : M A) :
  (forall E, triple (env_is E) m (env_is E)) -> keeps same_env m.
Proof.
  intros Hm s a s' Hrun. destruct (Hm (env s) s a s' eq_refl Hrun) as [Hg He].
  split; assumption.
Qed.

Lemma keeps_of_triple_frames {A} (m : M A) :
  (forall E n, triple (in_frame E n) m (in_frame E n)) ->
  keeps same_frames m.
Proof.
  intros Hm s a s' Hrun.
  destruct (Hm (removelast (env s))
              (option_map (@length (dict loc)) (Environment.top (env s)))
              s a s') as [Hg [Hr Hn]];
    [split; reflexivity|exact Hrun|].
  split; [exact Hg|]. split; assumption.
Qed.

Lemma triple_enter_func E :
  triple (env_is E) env_enter_func (in_frame E (Some 1%nat)).
Proof.
  intros s a s' HP Hrun. inversion Hrun; subst.
  split; [apply grows_set_env|]. unfold in_frame, env_is in *. cbn [env set_env].
  unfold Environment.enter_func. rewrite removelast_last, top_snoc.
  split; [exact HP|reflexivity].
Qed.

Lemma triple_exit_func E n :
  triple (in_frame E n) env_exit_func (env_is E).
Proof.
  intros s a s' [HE Hn] Hrun.
  unfold env_exit_func, env_update, Environment.exit_func in Hrun.
  destruct (env s) as [|f0 e0] eqn:He; [discriminate|].
  cbn in Hrun. inversion Hrun; subst.
  split; [apply grows_set_env|]. reflexivity.
Qed.

Lemma triple_enter_block E n :
  triple (in_frame E n) env_enter_block (in_frame E (option_map S n)).
Proof.
  intros s a s' [HE Hn] Hrun.
  unfold env_enter_block, env_update, Environment.enter_block in Hrun.
  destruct (Environment.top (env s)) as [fr|] eqn:Htop; [|discriminate].
  cbn in Hrun. inversion Hrun; subst.
  split; [apply grows_set_env|]. unfold in_frame. cbn [env set_env].
  rewrite removelast_set_top, top_set_top. split; [reflexivity|].
  cbn. rewrite length_app. cbn. f_equal. lia.
Qed.

Lemma length_removelast_cons {A} (a : A) (l : list A) :
  length (removelast (a :: l)) = length l.
Proof.
  revert a. induction l as [|b r IH]; intros a; [reflexivity|].
  change (S (length (removelast (b :: r))) = S (length r)). now rewrite IH.
Qed.

Lemma triple_exit_block E n :
  triple (in_frame E (option_map S n)) env_exit_block (in_frame E n).
Proof.
  intros s a s' [HE Hn] Hrun.
  unfold env_exit_block, env_update, Environment.exit_block in Hrun.
  destruct (Environment.top (env s)) as [fr|] eqn:Htop; [|discriminate].
  destruct fr as [|b0 r]; [discriminate|].
  cbn [option_map] in Hrun. inversion Hrun; subst.
  split; [apply grows_set_env|]. unfold in_frame. cbn [env set_env].
  rewrite removelast_set_top, top_set_top. split; [reflexivity|].
  destruct n as [n|]; [|discriminate].
  cbn [option_map] in *. inversion Hn as [Hlen]. f_equal.
  apply length_removelast_cons.
Qed.

(** Composing steps that keep the frames. *)
Ltac keep_frames_with tac :=
  repeat first
    [ tac | apply keeps_env_fdef | apply keeps_env_bdef
    | (apply (keeps_weaken same_env same_frames);
       [apply same_env_frames|solve [keep_with tac]])
    | (apply keeps_bind; [apply same_frames_trans| |intros ?])
    | match goal with
      | |- keeps _ (match ?x with _ => _ end) => destruct x
      | |- keeps _ (if ?b then _ else _) => destruct b
      end ].

(** Composing steps of which some push or pop a frame or a block. *)
Ltac tri_with tac :=
  repeat first
    [ apply triple_enter_func | apply triple_exit_func
    | apply triple_enter_block | apply triple_exit_block
    | (apply triple_of_env; solve [keep_with tac])
    | (apply triple_of_frames; solve [keep_frames_with tac])
    | (eapply triple_bind; [|intros ?])
    | match goal with
      | |- triple _ (match ?x with _ => _ end) _ => destruct x
      | |- triple _ (if ?b then _ else _) _ => destruct b
      | |- triple _ (let _ := _ in _) _ => cbn zeta
      end ].

Section Keeps.
Variable ev : Expr -> M loc.
Variable rs : FuncObj -> list Stmt -> M (loc * bool).
Hypothesis Hev : forall e, keeps same_env (ev e).
Hypothesis Hrs : forall fd st, keeps same_frames (rs fd st).

Lemma keeps_print_args args : forall out, keeps same_env (print_args ev args out).
Proof.
  induction args as [|a r IH]; intros out; cbn [print_args]; keep_env; apply IH.
Qed.

Lemma keeps_handle_print args : keeps same_env (handle_print ev args).
Proof.
  unfold handle_print.
  keep_with ltac:(first [apply keeps_print_args|apply keeps_new_Value]).
Qed.

Lemma keeps_handle_input name args : keeps same_env (handle_input ev name args).
Proof.
  unfold handle_input.
  keep_with ltac:(first [apply keeps_handle_print|apply keeps_new_Value]).
Qed.

Lemma keeps_clone arg ref_param : keeps same_env (clone_for_passing arg ref_param).
Proof. unfold clone_for_passing. keep_with ltac:(apply keeps_copy). Qed.

Lemma keeps_check_interface_arg p l : keeps same_env (check_interface_arg p l).
Proof. unfold check_interface_arg. keep_env. Qed.

Lemma keeps_check_value_arg fa : keeps same_env (check_value_arg fa).
Proof. unfold check_value_arg. keep_env. Qed.

Lemma keeps_resolve name sig : keeps same_env (resolve name sig).
Proof. unfold resolve. keep_env. Qed.

Lemma keeps_bind_formal fd fa : keeps same_frames (bind_formal fd fa).
Proof.
  unfold bind_formal, ref_flag.
  keep_frames_with ltac:(apply keeps_clone).
Qed.

Lemma keeps_bind_value_formal fo fa : keeps same_frames (bind_value_formal fo fa).
Proof.
  unfold bind_value_formal, ref_flag.
  keep_frames_with ltac:(first [apply keeps_clone|apply keeps_env_exists
                               |apply keeps_env_get]).
Qed.

Lemma keeps_ordinary_call name args : keeps same_env (ordinary_call ev rs name args).
Proof.
  apply keeps_of_triple_env. intros E. unfold ordinary_call.
  tri_with ltac:(first [apply keeps_mapM; intros ?
                       |apply keeps_forM_;
                          [apply same_env_refl|apply same_env_trans|intros ?]
                       |apply keeps_forM_;
                          [apply same_frames_refl|apply same_frames_trans|intros ?]
                       |apply keeps_resolve
                       |apply keeps_check_interface_arg
                       |apply keeps_bind_formal
                       |apply Hrs]).
Qed.

Lemma keeps_call_function_value p args selfo :
  keeps same_env (call_function_value ev rs p args selfo).
Proof.
  apply keeps_of_triple_env. intros E. unfold call_function_value.
  tri_with ltac:(first [apply keeps_mapM; intros ?
                       |apply keeps_forM_;
                          [apply same_env_refl|apply same_env_trans|intros ?]
                       |apply keeps_forM_;
                          [apply same_frames_refl|apply same_frames_trans|intros ?]
                       |apply keeps_check_value_arg
                       |apply keeps_bind_value_formal
                       |apply Hrs]).
Qed.

Lemma keeps_walk_method subs : forall value, keeps same_env (walk_method value subs).
Proof.
  induction subs as [|sub r IH]; intros value; cbn [walk_method].
  - keep_env.
  - unfold last_of. keep_with ltac:(apply IH).
Qed.

Lemma keeps_run_method_call path args :
  keeps same_env (run_method_call ev rs path args).
Proof.
  unfold run_method_call.
  keep_with ltac:(first [apply keeps_env_exists|apply keeps_env_get
                        |apply keeps_walk_method
                        |apply keeps_call_function_value]).
Qed.

Lemma keeps_run_fcall name args : keeps same_env (run_fcall ev rs name args).
Proof.
  unfold run_fcall.
  keep_with ltac:(first [apply keeps_handle_input|apply keeps_handle_print
                        |apply keeps_run_method_call|apply keeps_env_get
                        |apply keeps_call_function_value
                        |apply keeps_ordinary_call]).
Qed.

Lemma keeps_capture_one params c nv : keeps same_env (capture_one params c nv).
Proof.
  unfold capture_one.
  keep_with ltac:(first [apply keeps_copy|apply keeps_new_Value]).
Qed.

Lemma keeps_capture_all params items :
  forall c, keeps same_env (capture_all params items c).
Proof.
  induction items as [|nv r IH]; intros c; cbn [capture_all].
  - keep_env.
  - keep_with ltac:(first [apply keeps_capture_one|apply IH]).
Qed.

Lemma keeps_create_lambda name params stmts :
  keeps same_env (create_lambda name params stmts).
Proof.
  unfold create_lambda.
  keep_with ltac:(first [apply keeps_capture_all|apply keeps_new_Value]).
Qed.

Lemma keeps_check_assign_type name rv : keeps same_env (check_assign_type name rv).
Proof. unfold check_assign_type. keep_env. Qed.

Lemma keeps_walk_assign subs : forall lvalue, keeps same_env (walk_assign lvalue subs).
Proof.
  induction subs as [|sub r IH]; intros lvalue; cbn [walk_assign].
  - keep_env.
  - unfold last_of. keep_with ltac:(apply IH).
Qed.

Lemma keeps_run_assign name e : keeps same_env (run_assign ev name e).
Proof.
  unfold run_assign.
  keep_with ltac:(first [apply keeps_env_exists|apply keeps_env_get
                        |apply keeps_check_assign_type
                        |apply keeps_walk_assign|apply keeps_new_Value]).
Qed.

Lemma keeps_eval_convert to_type e : keeps same_env (eval_convert ev to_type e).
Proof.
  unfold eval_convert. keep_with ltac:(apply keeps_new_Value).
Qed.

Lemma keeps_walk_get subs : forall value, keeps same_env (walk_get value subs).
Proof.
  induction subs as [|sub r IH]; intros value; cbn [walk_get].
  - keep_env.
  - unfold last_of. keep_with ltac:(apply IH).
Qed.

Lemma keeps_get_var_value name : keeps same_env (get_var_value name).
Proof.
  unfold get_var_value, last_of.
  keep_with ltac:(first [apply keeps_env_exists|apply keeps_env_get
                        |apply keeps_walk_get|apply keeps_new_Value]).
Qed.

Lemma keeps_eval_expr_body e : keeps same_env (eval_expr_body ev rs e).
Proof.
  destruct e; cbn [eval_expr_body];
    keep_with ltac:(first [apply keeps_new_Value|apply keeps_get_var_value
                          |apply keeps_run_fcall|apply keeps_create_lambda
                          |apply keeps_eval_convert]).
Qed.

Lemma keeps_run_vardef name block_def : keeps same_frames (run_vardef name block_def).
Proof.
  unfold run_vardef. keep_frames_with ltac:(apply keeps_new_Value).
Qed.

Lemma keeps_run_return fd e : keeps same_frames (run_return ev fd e).
Proof.
  unfold run_return. keep_frames_with ltac:(apply keeps_new_Value).
Qed.

Lemma keeps_run_if fd c body els : keeps same_frames (run_if ev rs fd c body els).
Proof.
  apply keeps_of_triple_frames. intros E n. unfold run_if, as_bool.
  tri_with ltac:(first [apply keeps_new_Value|apply Hrs]).
Qed.

Lemma keeps_while_loop n fd c body :
  forall res, keeps same_frames (while_loop ev rs n fd c body res).
Proof.
  induction n as [|n IH]; intros res; cbn [while_loop].
  - apply keeps_out_of_fuel.
  - apply keeps_of_triple_frames. intros E o. unfold as_bool.
    tri_with ltac:(first [apply keeps_new_Value|apply Hrs|apply IH]).
Qed.

Lemma keeps_run_while n fd c body : keeps same_frames (run_while ev rs n fd c body).
Proof.
  unfold run_while.
  keep_frames_with ltac:(first [apply keeps_new_Value|apply keeps_while_loop]).
Qed.

Lemma keeps_statements_loop n fd stmts :
  forall res, keeps same_frames (statements_loop ev rs n fd stmts res).
Proof.
  induction stmts as [|st rest IH]; intros res; cbn [statements_loop].
  - apply (keeps_weaken same_env same_frames); [apply same_env_frames|].
    apply keeps_ret.
  - destruct st;
      keep_frames_with ltac:(first [apply keeps_run_vardef|apply keeps_run_assign
                                   |apply keeps_run_fcall|apply keeps_run_if
                                   |apply keeps_run_while|apply keeps_run_return
                                   |apply IH]).
Qed.

Lemma keeps_run_statements_body n fd stmts :
  keeps same_frames (run_statements_body ev rs n fd stmts).
Proof.
  unfold run_statements_body.
  keep_frames_with ltac:(first [apply keeps_new_Value|apply keeps_statements_loop]).
Qed.
End Keeps.

Lemma eval_keeps fuel :
  (forall e, keeps same_env (eval_expr fuel e)) /\
  (forall fd stmts, keeps same_frames (run_statements fuel fd stmts)).
Proof.
  induction fuel as [|n [IHe IHs]].
  - split; intros; apply keeps_out_of_fuel.
  - split.
    + intros e. cbn [eval_expr]. now apply keeps_eval_expr_body.
    + intros fd stmts. cbn [run_statements]. now apply keeps_run_statements_body.
Qed.

(** X1.  Evaluating an expression leaves the environment as it found it:
    every frame a call pushes and every block an [if] or [while] opens
    inside the expression is gone when the expression has its value,
    also when a [return] leaves the blocks early. *)
Theorem expression_keeps_environment fuel e s l s' :
  eval_expr fuel e s = Ok (l, s') -> env s' = env s.
Proof. intros Hrun. now destruct (proj1 (eval_keeps fuel) e s l s' Hrun). Qed.

Lemma expression_keeps_environment_witness :
  exists l s',
    eval_expr 10 (EFcall "main" []) (loaded (scoping_program false))
      = Ok (l, s') /\
    env s' = env (loaded (scoping_program false)).
Proof.
  eexists _, _. split; [vm_compute; reflexivity|].
  eapply (expression_keeps_environment 10 (EFcall "main" [])).
  vm_compute. reflexivity.
Defined.



(** X3.  Running statements never changes the function table or the
    interface table, never removes a Function object, a wrapper, an
    object or a field of an object (the fields keep their order), only
    appends to the output and only consumes the input from its front. *)
Theorem statements_only_extend fuel fd stmts s r s' :
  run_statements fuel fd stmts s = Ok (r, s') -> grows s s'.
Proof. intros Hrun. now destruct (proj2 (eval_keeps fuel) fd stmts s r s' Hrun). Qed.

Lemma statements_only_extend_witness :
  exists r s',
    run_statements 10 (Function_init "main" [] [])
      [SVarDef "ao"; SAssign "ao" EEmptyObj; SAssign "ao.xi" (EInt 1);
       SAssign "ao.yi" (EFcall "inputi" []); SAssign "ao.xi" (EInt 2);
       SFcall "print" [EQName "ao.yi"]]
      (set_input (set_env (initial_state []) [[[]]]) ["7"; "8"]) = Ok (r, s') /\
    grows (set_input (set_env (initial_state []) [[[]]]) ["7"; "8"]) s'.
Proof.
  eexists _, _. split; [vm_compute; reflexivity|].
  eapply (statements_only_extend 10 (Function_init "main" [] [])
            [SVarDef "ao"; SAssign "ao" EEmptyObj; SAssign "ao.xi" (EInt 1);
             SAssign "ao.yi" (EFcall "inputi" []); SAssign "ao.xi" (EInt 2);
             SFcall "print" [EQName "ao.yi"]]).
  vm_compute. reflexivity.
Defined.

(** ** Operators *)

Lemma py_is_sym a b : py_is a b = py_is b a.
Proof. unfold py_is. apply bool_decide_ext. split; congruence. Qed.

Lemma tag_eq_sym (a b : BType) : bool_decide (a = b) = bool_decide (b = a).
Proof. apply bool_decide_ext. split; congruence. Qed.

(** X4.  [==] and [!=] never fail and return a Bool; [!=] is the negation
    of [==]; both give the same result with their operands swapped. *)
Theorem equality_total_and_symmetric (vl vr : Value) :
  exists b,
    eval_binary_op Eq vl vr = Ok (VBool b) /\
    eval_binary_op Ne vl vr = Ok (VBool (negb b)) /\
    eval_binary_op Eq vr vl = Ok (VBool b) /\
    eval_binary_op Ne vr vl = Ok (VBool (negb b)).
Proof.
  destruct vl as [tl pl], vr as [tr pr].
  unfold eval_binary_op; cbn [t v].
  rewrite (py_is_sym pr pl), (tag_eq_sym tr tl).
  unfold py_eq, py_is.
  rewrite (bool_decide_ext (pr = pl) (pl = pr)) by (split; congruence).
  destruct (is_None pl) eqn:Hl, (is_None pr) eqn:Hr; cbn [andb];
    try (exists true; repeat split; reflexivity);
    destruct tl, tr; cbn; eexists; repeat split; try reflexivity.
Qed.

(** X5.  The operators other than [==] and [!=] never coerce: on operands
    of different tags, and on a tag the operator is not defined on, the
    result is a TypeError; otherwise a result has the tag the table gives,
    and there is a result unless the operator is [/] and the divisor is
    0. *)
Theorem operators_never_coerce (kind : Bop) (vl vr : Value) :
  kind <> Eq -> kind <> Ne ->
  match (if bool_decide (t vl = t vr) then operator_result kind (t vl)
         else None) with
  | None => eval_binary_op kind vl vr = Err TYPE_ERROR
  | Some rt =>
      (forall r, eval_binary_op kind vl vr = Ok r -> t r = rt) /\
      (holds_own_type vl -> holds_own_type vr ->
       (kind = Div -> v vr <> PInt 0) ->
       exists r, eval_binary_op kind vl vr = Ok r)
  end.
Proof.
  intros HEq HNe. destruct vl as [tl pl], vr as [tr pr]. cbn [t v].
  destruct (decide (tl = tr)) as [<-|Hne].
  - rewrite bool_decide_eq_true_2 by reflexivity.
    destruct kind; try congruence; destruct tl; cbn [operator_result];
      lazymatch goal with
      | |- _ /\ _ =>
          split;
          [intros r Hr; destruct pl, pr; cbn in Hr;
           try discriminate; try (inversion Hr; reflexivity);
           (destruct (_ =? 0)%Z; [discriminate|inversion Hr; reflexivity])
          |unfold holds_own_type; cbn [t v];
           intros Hl Hr Hdiv; destruct pl, pr; try contradiction; cbn;
           try (eexists; reflexivity);
           match goal with
           | |- context [(?z =? 0)%Z] =>
               (destruct (Z.eqb_spec z 0) as [->|Hz];
                [exfalso; now apply Hdiv|eexists; reflexivity])
           end]
      | |- _ => destruct pl, pr; reflexivity
      end.
  - rewrite bool_decide_eq_false_2 by exact Hne.
    destruct kind; try congruence; destruct tl, tr; try congruence; reflexivity.
Qed.

Lemma operators_never_coerce_witness :
  eval_binary_op Add (VInt 1) (mkValue STRING (PStr "a")) = Err TYPE_ERROR /\
  eval_binary_op Sub (mkValue STRING (PStr "b")) (mkValue STRING (PStr "a"))
    = Err TYPE_ERROR /\
  exists r, eval_binary_op Lt (VInt 1) (VInt 2) = Ok r /\ t r = BOOL.
Proof.
  split; [|split].
  - exact (operators_never_coerce Add (VInt 1) (mkValue STRING (PStr "a"))
             ltac:(discriminate) ltac:(discriminate)).
  - exact (operators_never_coerce Sub (mkValue STRING (PStr "b"))
             (mkValue STRING (PStr "a")) ltac:(discriminate) ltac:(discriminate)).
  - destruct (operators_never_coerce Lt (VInt 1) (VInt 2)
                ltac:(discriminate) ltac:(discriminate)) as [Htag Hex].
    destruct (Hex I I ltac:(discriminate)) as [r Hr].
    exists r. split; [exact Hr|]. now apply Htag.
Defined.

Section DictMore.
Context {K : Type} `{EqDecision K} {V : Type}.
Implicit Types (d : Dict.dict K V) (k : K) (x : V).

Lemma set_new k x d : Dict.mem k d = false -> Dict.set k x d = d ++ [(k, x)].
Proof.
  induction d as [|[k' y] r IH]; simpl; [reflexivity|].
  unfold Dict.mem in *. simpl.
  destruct (decide (k = k')); [discriminate|].
  intros Hm. now rewrite IH.
Qed.

Lemma mem_false_keys k d : Dict.mem k d = false -> ~ In k (Dict.keys d).
Proof. intros Hm. apply get_None_keys. now apply mem_false. Qed.
End DictMore.

Lemma modify_inv f s u s' : modify f s = Ok (u, s') -> s' = f s.
Proof. intros H. now inversion H. Qed.

Lemma gets_inv {A} (f : State -> A) s a s' :
  gets f s = Ok (a, s') -> s' = s /\ a = f s.
Proof. intros H. now inversion H. Qed.

Lemma if_error_inv (b : bool) e s u s' :
  (if b then error e else ret tt) s = Ok (u, s') -> s' = s /\ b = false.
Proof. destruct b; intros H; inversion H; auto. Qed.

Lemma declares_mono s s' fd entry :
  (exists more, fobjs s' = fobjs s ++ more) ->
  declares s fd entry -> declares s' fd entry.
Proof.
  intros [more Hm] (Hn & Hs & Hf & Hr). repeat split; auto.
  rewrite Hm. now apply lookup_app_l_Some.
Qed.

Lemma register_function_inv func s u s' :
  register_function func s = Ok (u, s') ->
  exists sig,
    get_parameters_type_signature (fd_args func) = Ok sig /\
    get_return_type (fd_name func) <> ERROR /\
    Dict.mem (fd_name func, sig) (funcs s) = false /\
    s' = set_funcs
           (set_fobjs s (fobjs s ++
              [Function_init (fd_name func) (fd_args func) (fd_statements func)]))
           (funcs s ++ [((fd_name func, sig), length (fobjs s))]).
Proof.
  unfold register_function. intros H.
  apply bind_inv in H as (sig & s1 & H1 & H).
  apply reads_inv in H1 as [-> Hsig].
  apply bind_inv in H as ([] & s1 & H1 & H).
  apply if_error_inv in H1 as [-> Hret].
  apply bind_inv in H as (known & s1 & H1 & H).
  apply gets_inv in H1 as [-> ->].
  apply bind_inv in H as ([] & s1 & H1 & H).
  apply if_error_inv in H1 as [-> Hmem].
  apply bind_inv in H as (f & s1 & H1 & H).
  inversion H1; subst. apply modify_inv in H. subst s'.
  exists sig. split; [exact Hsig|]. split.
  - apply bool_decide_eq_false in Hret. exact Hret.
  - split; [exact Hmem|]. cbn [funcs set_fobjs]. now rewrite set_new.
Qed.

Lemma register_all decls : forall s u s',
  forM_ register_function decls s = Ok (u, s') ->
  NoDup (Dict.keys (funcs s)) ->
  exists new,
    funcs s' = funcs s ++ new /\
    Forall2 (declares s') decls new /\
    NoDup (Dict.keys (funcs s')) /\
    (exists more, fobjs s' = fobjs s ++ more) /\
    interfaces s' = interfaces s /\ cells s' = cells s /\ objs s' = objs s /\
    env s' = env s /\ output s' = output s /\ input s' = input s.
Proof.
  induction decls as [|fd r IH]; intros s u s' H Hnd; cbn [forM_] in H.
  - inversion H; subst. exists []. rewrite app_nil_r.
    repeat split; auto. exists []. now rewrite app_nil_r.
  - apply bind_inv in H as ([] & s1 & H1 & H).
    apply register_function_inv in H1 as (sig & Hsig & Hret & Hmem & ->).
    apply IH in H as (new & Hf & Hall & Hnd' & [more Hm] & Hi & Hc & Ho & He & Hout & Hin).
    + cbn [funcs fobjs set_funcs set_fobjs interfaces cells objs env output input] in *.
      exists (((fd_name fd, sig), length (fobjs s)) :: new).
      split; [now rewrite Hf, <- app_assoc|].
      split.
      { constructor; [|exact Hall].
        repeat split; auto. cbn [snd]. rewrite Hm, <- app_assoc.
        apply list_lookup_middle. reflexivity. }
      split; [exact Hnd'|].
      split; [exists ([Function_init (fd_name fd) (fd_args fd) (fd_statements fd)] ++ more);
              now rewrite Hm, <- app_assoc|].
      repeat split; assumption.
    + cbn [funcs set_funcs]. unfold Dict.keys. rewrite map_app. cbn [map fst].
      apply NoDup_app. split; [exact Hnd|]. split.
      * intros k Hk Hk'. apply list_elem_of_In in Hk.
        apply list_elem_of_singleton in Hk'. subst k.
        now apply mem_false_keys in Hmem.
      * apply NoDup_singleton.
Qed.

Lemma function_table_facts ast s s' :
  create_function_table ast s = Ok (tt, s') ->
  Forall2 (declares s') (functions_ast ast) (funcs s') /\
  NoDup (Dict.keys (funcs s')) /\ env s' = env s.
Proof.
  intros H. unfold create_function_table in H.
  apply bind_inv in H as ([] & s1 & H1 & H).
  apply modify_inv in H1. subst s1.
  change (forM_ register_function (functions_ast ast) (set_funcs s []) = Ok (tt, s')) in H.
  apply register_all in H as (new & Hf & Hall & Hnd & _ & _ & _ & _ & He & _);
    [|apply NoDup_nil_2].
  cbn [funcs set_funcs app env] in *. subst new. auto.
Qed.

(** X6.  When [__create_function_table] returns, the function table is
    the list of the declarations, in their order: one entry for each,
    under the key (name, parameter signature), with the Function object
    of the declaration; the keys are pairwise different, so that each
    declaration is the one found under its key; no return type is
    invalid; the interface table is not touched. *)
Theorem function_table_built (ast : Program) (s s' : State) :
  create_function_table ast s = Ok (tt, s') ->
  Forall2 (declares s') (functions_ast ast) (funcs s') /\
  NoDup (Dict.keys (funcs s')) /\
  (forall fd, In fd (functions_ast ast) ->
     exists sig f,
       get_parameters_type_signature (fd_args fd) = Ok sig /\
       Dict.get (fd_name fd, sig) (funcs s') = Some f /\
       fobjs s' !! f =
         Some (Function_init (fd_name fd) (fd_args fd) (fd_statements fd))) /\
  interfaces s' = interfaces s.
Proof.
  intros H. unfold create_function_table in H.
  apply bind_inv in H as ([] & s1 & H1 & H).
  apply modify_inv in H1. subst s1.
  change (forM_ register_function (functions_ast ast) (set_funcs s []) = Ok (tt, s')) in H.
  apply register_all in H as (new & Hf & Hall & Hnd & _ & Hi & _);
    [|apply NoDup_nil_2].
  cbn [funcs set_funcs app interfaces] in *. subst new.
  split; [exact Hall|]. split; [exact Hnd|]. split; [|exact Hi].
  intros fd Hin. apply list_elem_of_In in Hin.
  apply list_elem_of_lookup_1 in Hin as [i Hi'].
  destruct (Forall2_lookup_l _ _ _ _ _ Hall Hi') as ([[name sig] f] & Hentry & Hd).
  destruct Hd as (Hname & Hsig & Hfo & _). cbn [fst snd] in *. subst name.
  exists sig, f. split; [exact Hsig|]. split; [|exact Hfo].
  apply In_get; [exact Hnd|].
  apply list_elem_of_In. eapply list_elem_of_lookup_2. exact Hentry.
Qed.

Lemma function_table_built_witness :
  exists s',
    create_function_table overloaded_program (initial_state []) = Ok (tt, s') /\
    NoDup (Dict.keys (funcs s')) /\
    exists f, Dict.get ("ff", "ii") (funcs s') = Some f /\
              fobjs s' !! f =
                Some (Function_init "ff" [mkArg "xi" false; mkArg "yi" false] []).
Proof.
  eexists. split; [vm_compute; reflexivity|].
  match goal with |- NoDup (Dict.keys (funcs ?s1)) /\ _ => set (s' := s1) end.
  assert (Hrun : create_function_table overloaded_program (initial_state [])
                 = Ok (tt, s')) by (vm_compute; reflexivity).
  destruct (function_table_built overloaded_program (initial_state []) s' Hrun)
    as (_ & Hnd & Hfind & _).
  split; [exact Hnd|].
  destruct (Hfind (mkFuncDecl "ff" [mkArg "xi" false; mkArg "yi" false] []))
    as (sig & f & Hsig & Hget & Hfo).
  { right. left. reflexivity. }
  assert (sig = "ii") as -> by (vm_compute in Hsig; congruence).
  exists f. split; assumption.
Defined.

Lemma has_duplicate_names_false fields : forall defined,
  has_duplicate_names fields defined = false ->
  NoDup (map field_name fields) /\
  forall x, In x (map field_name fields) -> ~ In x defined.
Proof.
  induction fields as [|f r IH]; intros defined H; cbn in *.
  - split; [apply NoDup_nil_2|tauto].
  - destruct (existsb (String.eqb (field_name f)) defined) eqn:Hex;
      [discriminate|].
    destruct (IH _ H) as [Hnd Hout].
    assert (Hf : ~ In (field_name f) defined).
    { intros Hin.
      assert (existsb (String.eqb (field_name f)) defined = true);
        [|congruence].
      apply existsb_exists. exists (field_name f). split; [exact Hin|].
      apply String.eqb_refl. }
    split.
    + apply NoDup_cons. split; [|exact Hnd].
      intros Hin. apply list_elem_of_In in Hin.
      apply (Hout _ Hin). now left.
    + intros x [<-|Hin]; [exact Hf|].
      intros Hd. apply (Hout _ Hin). now right.
Qed.

Lemma is_upper_letter_name_true name :
  is_upper_letter_name name = true ->
  exists c, name = String c EmptyString /\ isupper c = true.
Proof.
  destruct name as [|c [|c' r]]; cbn; try discriminate. eauto.
Qed.

Lemma register_interface_inv d s u s' :
  register_interface d s = Ok (u, s') ->
  (exists c, id_name d = String c EmptyString /\ isupper c = true) /\
  Dict.mem (id_name d) (interfaces s) = false /\
  NoDup (map field_name (id_fields d)) /\
  s' = set_interfaces s
         (interfaces s ++
            [(id_name d, Interface_init (id_name d) (id_fields d))]).
Proof.
  unfold register_interface. intros H.
  apply bind_inv in H as ([] & s1 & H1 & H).
  apply if_error_inv in H1 as [-> Hup].
  apply bind_inv in H as (known & s1 & H1 & H).
  apply gets_inv in H1 as [-> ->].
  apply bind_inv in H as ([] & s1 & H1 & H).
  apply if_error_inv in H1 as [-> Hmem].
  apply bind_inv in H as ([] & s1 & H1 & H).
  apply if_error_inv in H1 as [-> Hdup].
  apply modify_inv in H. subst s'.
  split; [apply is_upper_letter_name_true; now apply negb_false_iff in Hup|].
  split; [exact Hmem|]. split.
  - now apply has_duplicate_names_false in Hdup as [Hnd _].
  - now rewrite set_new.
Qed.

Lemma register_all_interfaces decls : forall s u s',
  forM_ register_interface decls s = Ok (u, s') ->
  NoDup (Dict.keys (interfaces s)) ->
  exists new,
    interfaces s' = interfaces s ++ new /\
    Forall2 declares_interface decls new /\
    NoDup (Dict.keys (interfaces s')) /\
    funcs s' = funcs s /\ fobjs s' = fobjs s /\ env s' = env s.
Proof.
  induction decls as [|d r IH]; intros s u s' H Hnd; cbn [forM_] in H.
  - inversion H; subst. exists []. rewrite app_nil_r. repeat split; auto.
  - apply bind_inv in H as ([] & s1 & H1 & H).
    apply register_interface_inv in H1 as (Hup & Hmem & Hf & ->).
    apply IH in H as (new & Hi & Hall & Hnd' & Hfu & Hfo & He).
    + cbn [interfaces set_interfaces funcs fobjs env] in *.
      exists ((id_name d, Interface_init (id_name d) (id_fields d)) :: new).
      split; [now rewrite Hi, <- app_assoc|].
      split; [constructor; [repeat split; auto|exact Hall]|].
      repeat split; assumption.
    + cbn [interfaces set_interfaces]. unfold Dict.keys.
      rewrite map_app. cbn [map fst].
      apply NoDup_app. split; [exact Hnd|]. split.
      * intros k Hk Hk'. apply list_elem_of_In in Hk.
        apply list_elem_of_singleton in Hk'. subst k.
        now apply mem_false_keys in Hmem.
      * apply NoDup_singleton.
Qed.

(** X7.  When [__create_interface_table] returns, the interface table is
    empty for a program without an interface list, and otherwise the
    list of the declared interfaces in their order, each under its name
    with the Interface object of its fields; every name is one uppercase
    letter, no two interfaces have the same name, and no interface names
    a field twice. *)
Theorem interface_table_built (ast : Program) (s s' : State) :
  create_interface_table ast s = Ok (tt, s') ->
  Forall2 declares_interface
    (match interfaces_ast ast with Some decls => decls | None => [] end)
    (interfaces s') /\
  NoDup (Dict.keys (interfaces s')) /\
  (forall d, In d (match interfaces_ast ast with Some decls => decls | None => [] end) ->
     Dict.get (id_name d) (interfaces s') =
       Some (Interface_init (id_name d) (id_fields d))).
Proof.
  intros H. unfold create_interface_table in H.
  apply bind_inv in H as ([] & s1 & H1 & H).
  apply modify_inv in H1. subst s1.
  assert (Hloop : forM_ register_interface
            (match interfaces_ast ast with Some decls => decls | None => [] end)
            (set_interfaces s []) = Ok (tt, s')).
  { destruct (interfaces_ast ast); exact H. }
  clear H.
  apply register_all_interfaces in Hloop as (new & Hi & Hall & Hnd & _);
    [|apply NoDup_nil_2].
  cbn [interfaces set_interfaces app] in *. subst new.
  split; [exact Hall|]. split; [exact Hnd|].
  intros d Hin. apply list_elem_of_In in Hin.
  apply list_elem_of_lookup_1 in Hin as [i Hi'].
  destruct (Forall2_lookup_l _ _ _ _ _ Hall Hi') as ([name obj] & Hentry & Hd).
  destruct Hd as (Hname & Hobj & _). cbn [fst snd] in *. subst name obj.
  apply In_get; [exact Hnd|].
  apply list_elem_of_In. eapply list_elem_of_lookup_2. exact Hentry.
Qed.

Lemma interface_table_built_witness :
  exists s',
    create_interface_table (interface_binding_program ENil) (initial_state [])
      = Ok (tt, s') /\
    Dict.get "Q" (interfaces s') = Some (Interface_init "Q" [FIELD_VAR "xi"]).
Proof.
  eexists. split; [vm_compute; reflexivity|].
  match goal with |- Dict.get _ (interfaces ?s1) = _ => set (s' := s1) end.
  assert (Hrun : create_interface_table (interface_binding_program ENil)
                   (initial_state []) = Ok (tt, s')) by (vm_compute; reflexivity).
  destruct (interface_table_built (interface_binding_program ENil)
              (initial_state []) s' Hrun) as (_ & _ & Hfind).
  apply (Hfind (mkInterfaceDecl "Q" [FIELD_VAR "xi"])). left. reflexivity.
Defined.

(** ** The entry point *)

Lemma length_append (a b : string) :
  String.length (a ++ b) = (String.length a + String.length b)%nat.
Proof. induction a as [|c a IH]; cbn; [reflexivity|now rewrite IH]. Qed.

Lemma param_letters_length args : forall acc sig,
  param_letters args acc = Some sig ->
  String.length sig = (String.length acc + length args)%nat.
Proof.
  induction args as [|p r IH]; intros acc sig H; cbn in H.
  - inversion H; subst. cbn. lia.
  - destruct (param_letter p) as [c|]; [|discriminate].
    apply IH in H. rewrite H, length_append. cbn. lia.
Qed.

Lemma empty_signature args :
  get_parameters_type_signature args = Ok "" -> args = [].
Proof.
  unfold get_parameters_type_signature.
  destruct (param_letters args "") as [sig|] eqn:Hp; [|discriminate].
  destruct (all_allowed sig); [|discriminate].
  intros H. inversion H; subst.
  apply param_letters_length in Hp. cbn in Hp.
  destruct args; [reflexivity|cbn in Hp; lia].
Qed.

Lemma overloads_declared s name decls tbl :
  Forall2 (declares s) decls tbl ->
  match filter (fun key => fst key = name) (Dict.keys tbl) with
  | [] => existsb (fun fd => String.eqb (fd_name fd) name) decls = false
  | _ :: _ => existsb (fun fd => String.eqb (fd_name fd) name) decls = true
  end.
Proof.
  induction 1 as [|fd [[n sig] f] decls tbl (Hn & _) Hall IH]; cbn [existsb].
  - reflexivity.
  - cbn [fst] in Hn. subst n. cbn [Dict.keys map fst].
    rewrite filter_cons. cbn [fst].
    destruct (decide (fd_name fd = name)) as [->|Hne].
    + now rewrite String.eqb_refl.
    + replace (String.eqb (fd_name fd) name) with false
        by (symmetry; now apply String.eqb_neq).
      exact IH.
Qed.

(** X8.  A program in which no function named [main] is declared without
    parameters does not run: when the tables are built, [run] fails
    whatever the bound on the recursion, with a NameError if no function
    is named [main] and with a TypeError if [main] is declared, with
    parameters only. *)
Theorem entry_point_missing (fuel : nat) (ast : Program) (inp : list string)
    (s1 : State) :
  (create_interface_table ast ;; create_function_table ast) (initial_state inp)
    = Ok (tt, s1) ->
  (forall fd, In fd (functions_ast ast) ->
     fd_name fd = "main" -> fd_args fd <> []) ->
  run fuel ast (initial_state inp) =
    Err (if existsb (fun fd => String.eqb (fd_name fd) "main")
              (functions_ast ast)
         then TYPE_ERROR else NAME_ERROR).
Proof.
  intros Htab Hmain.
  apply bind_inv in Htab as ([] & s0 & Hi & Hf).
  assert (He0 : env s0 = []).
  { unfold create_interface_table in Hi.
    apply bind_inv in Hi as ([] & sa & Ha & Hi).
    apply modify_inv in Ha. subst sa.
    assert (Hloop : forM_ register_interface
              (match interfaces_ast ast with Some decls => decls | None => [] end)
              (set_interfaces (initial_state inp) []) = Ok (tt, s0)).
    { destruct (interfaces_ast ast); exact Hi. }
    apply register_all_interfaces in Hloop as (new & _ & _ & _ & _ & _ & He);
      [exact He|apply NoDup_nil_2]. }
  pose proof (function_table_facts ast s0 s1 Hf) as (Hall & Hnd & He).
  rewrite He0 in He.
  unfold run. step Hi. step Hf.
  unfold bind at 1.
  rewrite run_fcall_ordinary; try discriminate; try reflexivity.
  2:{ intros l Hl. rewrite He in Hl. discriminate. }
  cbv [ordinary_call bind mapM ret reads get_arguments_type_signature
       arguments_sig resolve gets id error rbind].
  destruct (Dict.get ("main", "") (funcs s1)) as [f|] eqn:Hget.
  - exfalso. apply get_In in Hget. apply list_elem_of_In in Hget.
    apply list_elem_of_lookup_1 in Hget as [i Hi'].
    destruct (Forall2_lookup_r _ _ _ _ _ Hall Hi') as (fd & Hfd & Hd).
    destruct Hd as (Hname & Hsig & _). cbn [fst snd] in *.
    apply empty_signature in Hsig.
    apply (Hmain fd); auto.
    apply list_elem_of_In. eapply list_elem_of_lookup_2. exact Hfd.
  - pose proof (overloads_declared s1 "main" _ _ Hall) as Hov.
    destruct (filter _ (Dict.keys (funcs s1))); rewrite Hov; reflexivity.
Qed.

Lemma entry_point_missing_witness :
  run 0 (no_entry_program true) (initial_state []) = Err TYPE_ERROR /\
  run 0 (no_entry_program false) (initial_state []) = Err NAME_ERROR.
Proof.
  split.
  - assert (Htab : (create_interface_table (no_entry_program true) ;;
                    create_function_table (no_entry_program true))
                     (initial_state [])
                   = Ok (tt, loaded (no_entry_program true)))
      by (vm_compute; reflexivity).
    apply (entry_point_missing 0 (no_entry_program true) [] _ Htab).
    intros fd [<-|[<-|[]]]; cbn; intros; discriminate.
  - assert (Htab : (create_interface_table (no_entry_program false) ;;
                    create_function_table (no_entry_program false))
                     (initial_state [])
                   = Ok (tt, loaded (no_entry_program false)))
      by (vm_compute; reflexivity).
    apply (entry_point_missing 0 (no_entry_program false) [] _ Htab).
    intros fd [<-|[]]; cbn; intros; discriminate.
Defined.

(** ** Parameter signatures and argument signatures *)

Lemma append_assoc (a b c : string) : ((a ++ b) ++ c = a ++ (b ++ c))%string.
Proof. induction a as [|x a IH]; cbn; [reflexivity|now rewrite IH]. Qed.

Lemma append_inj_l (a b c : string) : (a ++ b = a ++ c)%string -> b = c.
Proof. induction a as [|x a IH]; cbn; intros H; [exact H|]. injection H. auto. Qed.

Lemma param_letters_shift args : forall acc,
  param_letters args acc = option_map (String.append acc) (param_letters args "").
Proof.
  induction args as [|p r IH]; intros acc; cbn [param_letters].
  - cbn. now rewrite append_empty_r.
  - destruct (param_letter p) as [c|]; [|reflexivity].
    rewrite (IH (acc ++ String c "")%string), (IH ("" ++ String c "")%string).
    destruct (param_letters r "") as [rest|]; cbn; [|reflexivity].
    now rewrite append_snoc.
Qed.

Lemma arguments_sig_shift vals : forall acc,
  arguments_sig vals acc =
    match arguments_sig vals "" with
    | Ok rest => Ok (acc ++ rest)%string
    | other => other
    end.
Proof.
  induction vals as [|x r IH]; intros acc; cbn [arguments_sig].
  - now rewrite append_empty_r.
  - destruct (t x); try reflexivity;
      match goal with
      | |- arguments_sig r (acc ++ ?c)%string = _ =>
          rewrite (IH (acc ++ c)%string), (IH ("" ++ c)%string)
      end;
      destruct (arguments_sig r "") as [rest| | |]; cbn; try reflexivity;
      now rewrite append_snoc.
Qed.

(** The letter of a declared type is the letter of a tag exactly for the
    tag that is the declared type. *)
Lemma letter_of_declared_type (p : Arg) c ty :
  param_letter p = Some c ->
  all_allowed (String c "") = true ->
  (match ty with
   | INT => Some "i"%char | STRING => Some "s"%char | BOOL => Some "b"%char
   | OBJECT => Some "o"%char | FUNCTION => Some "f"%char
   | VOID | ERROR => None
   end = Some c) <-> ty = get_type (arg_name p).
Proof.
  unfold param_letter, get_type.
  destruct (last_char (arg_name p)) as [l|]; [|discriminate].
  intros Hc Hal. inversion Hc as [Hc']; clear Hc.
  destruct l as [[] [] [] [] [] [] [] []]; cbn in Hc'; subst c;
    cbn in Hal; try discriminate Hal; cbn;
    destruct ty; split; intros H; try discriminate H; try reflexivity;
    try (inversion H; fail).
Qed.

Lemma all_allowed_cons c rest :
  all_allowed (String c rest) = all_allowed (String c "") && all_allowed rest.
Proof. cbn. now rewrite andb_true_r. Qed.

Lemma signatures_agree_from_empty args : forall vals sig,
  param_letters args "" = Some sig ->
  all_allowed sig = true ->
  (arguments_sig vals "" = Ok sig <->
   Forall2 (fun a x => t x = get_type (arg_name a)) args vals).
Proof.
  induction args as [|p r IH]; intros vals sig Hp Hal; cbn [param_letters] in Hp.
  - inversion Hp; subst sig. destruct vals as [|x vr].
    + split; [constructor|reflexivity].
    + split; [|intros H; inversion H].
      cbn [arguments_sig]. intros H.
      destruct (t x); try discriminate H;
        rewrite arguments_sig_shift in H;
        destruct (arguments_sig vr ""); discriminate H.
  - destruct (param_letter p) as [c|] eqn:Hc; [|discriminate].
    rewrite param_letters_shift in Hp.
    destruct (param_letters r "") as [rest|] eqn:Hr; [|discriminate].
    cbn in Hp. inversion Hp; subst sig. clear Hp.
    rewrite all_allowed_cons in Hal. apply andb_true_iff in Hal as [Hc1 Hrest].
    pose proof (fun ty => letter_of_declared_type p c ty Hc Hc1) as Hty.
    destruct vals as [|x vr].
    + split; [discriminate|intros H; inversion H].
    + specialize (IH vr rest eq_refl Hrest). specialize (Hty (t x)).
      cbn [arguments_sig]. split.
      * intros H. constructor.
        -- apply Hty.
           destruct (t x); try discriminate H;
             rewrite arguments_sig_shift in H;
             destruct (arguments_sig vr ""); try discriminate H;
             cbn in H; inversion H; reflexivity.
        -- apply IH.
           destruct (t x); try discriminate H;
             rewrite arguments_sig_shift in H;
             destruct (arguments_sig vr ""); try discriminate H;
             cbn in H; inversion H; reflexivity.
      * intros H. inversion H as [|? ? ? ? Hx Hvr]; subst.
        apply Hty in Hx. apply IH in Hvr.
        destruct (t x); try discriminate Hx;
          rewrite arguments_sig_shift, Hvr; cbn; inversion Hx; reflexivity.
Qed.

(** X9.  The signature of a parameter list and the signature of a list of
    evaluated arguments are the same text exactly when there are as many
    arguments as parameters and the tag of each argument is the declared
    type of the parameter at its position (an interface letter declares
    Object): the lookup of [__run_fcall] under the pair of the name and
    the argument signature is the whole type check of an ordinary
    call. *)
Theorem signatures_agree (args : list Arg) (vals : list Value) (sig : string) :
  get_parameters_type_signature args = Ok sig ->
  (get_arguments_type_signature vals = Ok sig <->
   Forall2 (fun a x => t x = get_type (arg_name a)) args vals).
Proof.
  unfold get_parameters_type_signature, get_arguments_type_signature.
  destruct (param_letters args "") as [psig|] eqn:Hp; [|discriminate].
  destruct (all_allowed psig) eqn:Hal; [|discriminate].
  intros H. inversion H; subst sig.
  now apply signatures_agree_from_empty.
Qed.

Lemma signatures_agree_witness :
  get_arguments_type_signature [VInt 1; mkValue OBJECT PNone] = Ok "io" /\
  get_arguments_type_signature [mkValue OBJECT PNone; VInt 1] <> Ok "io".
Proof.
  assert (Hsig : get_parameters_type_signature
                   [mkArg "xi" false; mkArg "pQ" true] = Ok "io")
    by reflexivity.
  split.
  - apply (signatures_agree _ _ _ Hsig). repeat constructor.
  - intros H. apply (signatures_agree _ _ _ Hsig) in H.
    inversion H as [|? ? ? ? Hx _]. discriminate Hx.
Defined.

(** ** The value of a [return] *)

Lemma env_update_cells {A}
    (f : list Environment.frame -> option (A * list Environment.frame))
    s a s' :
  env_update f s = Ok (a, s') -> cells s' = cells s.
Proof.
  unfold env_update. destruct (f (env s)) as [[a' e']|]; [|discriminate].
  intros H. inversion H; subst. reflexivity.
Qed.

Lemma env_exit_block_cells s u s' :
  env_exit_block s = Ok (u, s') -> cells s' = cells s.
Proof. apply env_update_cells. Qed.

Lemma as_bool_inv p s b s' : as_bool p s = Ok (b, s') -> s' = s.
Proof. destruct p; cbn; intros H; inversion H; reflexivity. Qed.

Lemma new_Value_typed ty p s l s' :
  new_Value ty p s = Ok (l, s') ->
  exists x, cells s' !! l = Some x /\ t x = ty.
Proof.
  unfold new_Value. intros H. apply bind_inv in H as (x & s1 & H1 & H2).
  unfold lift_opt in H1. destruct (Value_init ty p) as [x'|] eqn:Hx;
    [|discriminate].
  inversion H1; subst. inversion H2; subst.
  exists x. split; [apply lookup_snoc_last|].
  unfold Value_init in Hx. destruct (is_None p).
  - destruct (default_value_for_type ty); inversion Hx; reflexivity.
  - inversion Hx; reflexivity.
Qed.

Section Returns.
Variable ev : Expr -> M loc.
Variable rs : FuncObj -> list Stmt -> M (loc * bool).
Hypothesis Hrs : forall fd stmts s r s',
  rs fd stmts s = Ok (r, s') -> returns_typed fd r s'.

Lemma run_return_typed fd e s r s' :
  run_return ev fd e s = Ok (r, s') -> returns_typed fd r s'.
Proof.
  unfold run_return. intros H _. destruct e as [expr|].
  - apply bind_inv in H as (l & s1 & _ & H).
    apply bind_inv in H as (x & s2 & Hx & H).
    apply rd_inv in Hx as [-> Hx].
    apply bind_inv in H as ([] & s2 & Hc & H).
    apply when_error_inv in Hc as [-> Hc]. inversion H; subst.
    exists x. split; [exact Hx|].
    apply negb_false_iff, bool_decide_eq_true in Hc. exact Hc.
  - apply bind_inv in H as (l & s1 & Hn & H). inversion H; subst.
    now apply new_Value_typed in Hn.
Qed.

Lemma run_if_typed fd c body els s r s' :
  run_if ev rs fd c body els s = Ok (r, s') -> returns_typed fd r s'.
Proof.
  unfold run_if. intros H.
  apply bind_inv in H as (l & s1 & _ & H).
  apply bind_inv in H as (x & s2 & _ & H).
  apply bind_inv in H as ([] & s3 & _ & H).
  apply bind_inv in H as ([] & s4 & _ & H).
  apply bind_inv in H as (res & s5 & _ & H).
  apply bind_inv in H as (taken & s6 & _ & H).
  apply bind_inv in H as (r' & s7 & Hr & H).
  apply bind_inv in H as ([] & s8 & Hx & H).
  inversion H; subst. apply env_exit_block_cells in Hx.
  assert (Hty : returns_typed fd r s7).
  { destruct taken; [now apply Hrs in Hr|].
    destruct els as [[|st more]|]; try (now apply Hrs in Hr);
      inversion Hr; subst; intros Hf; discriminate Hf. }
  intros Hf. destruct (Hty Hf) as (y & Hy & Ht).
  exists y. now rewrite Hx.
Qed.

Lemma while_loop_typed n fd c body : forall res s r s',
  while_loop ev rs n fd c body res s = Ok (r, s') -> returns_typed fd r s'.
Proof.
  induction n as [|n IH]; intros res s r s' H; cbn [while_loop] in H;
    [discriminate|].
  apply bind_inv in H as (l & s1 & _ & H).
  apply bind_inv in H as (x & s2 & _ & H).
  apply bind_inv in H as ([] & s3 & _ & H).
  apply bind_inv in H as (continue & s4 & _ & H).
  destruct continue; cbn [negb] in H.
  - apply bind_inv in H as ([] & s5 & _ & H).
    apply bind_inv in H as (r' & s6 & Hr & H).
    apply bind_inv in H as ([] & s7 & Hx & H).
    apply env_exit_block_cells in Hx. apply Hrs in Hr.
    destruct (snd r') eqn:Hf.
    + inversion H; subst. intros _. destruct (Hr Hf) as (y & Hy & Ht).
      exists y. now rewrite Hx.
    + now apply IH in H.
  - inversion H; subst. intros Hf; discriminate Hf.
Qed.

Lemma run_while_typed n fd c body s r s' :
  run_while ev rs n fd c body s = Ok (r, s') -> returns_typed fd r s'.
Proof.
  unfold run_while. intros H. apply bind_inv in H as (res & s1 & _ & H).
  now apply while_loop_typed in H.
Qed.

Lemma statements_loop_typed n fd stmts : forall res s r s',
  statements_loop ev rs n fd stmts res s = Ok (r, s') -> returns_typed fd r s'.
Proof.
  induction stmts as [|st rest IH]; intros res s r s' H;
    cbn [statements_loop] in H.
  - inversion H; subst. intros Hf; discriminate Hf.
  - destruct st.
    + apply bind_inv in H as (u & s1 & _ & H). now apply IH in H.
    + apply bind_inv in H as (u & s1 & _ & H). now apply IH in H.
    + apply bind_inv in H as (u & s1 & _ & H). now apply IH in H.
    + apply bind_inv in H as (u & s1 & _ & H). now apply IH in H.
    + apply bind_inv in H as (r' & s1 & Hr & H).
      apply run_if_typed in Hr. destruct (snd r') eqn:Hf.
      * inversion H; subst. exact Hr.
      * now apply IH in H.
    + apply bind_inv in H as (r' & s1 & Hr & H).
      apply run_while_typed in Hr. destruct (snd r') eqn:Hf.
      * inversion H; subst. exact Hr.
      * now apply IH in H.
    + now apply run_return_typed in H.
Qed.

Lemma run_statements_body_typed n fd stmts s r s' :
  run_statements_body ev rs n fd stmts s = Ok (r, s') -> returns_typed fd r s'.
Proof.
  unfold run_statements_body. intros H.
  apply bind_inv in H as (res & s1 & _ & H).
  now apply statements_loop_typed in H.
Qed.
End Returns.

(** X10.  A statement list that is left by a [return] yields a wrapper
    that is in the store and whose tag is the return type of the running
    function, whether the [return] has an expression or not and however
    deep in [if] and [while] blocks it sits. *)
Theorem return_value_has_return_type fuel fd stmts s l s' :
  run_statements fuel fd stmts s = Ok ((l, true), s') ->
  exists x, cells s' !! l = Some x /\ t x = return_type fd.
Proof.
  revert fd stmts s l s'.
  assert (Hall : forall fd stmts s r s',
            run_statements fuel fd stmts s = Ok (r, s') -> returns_typed fd r s').
  { induction fuel as [|n IH]; intros fd stmts s r s' H; [discriminate|].
    cbn [run_statements] in H.
    now apply (run_statements_body_typed (eval_expr n) (run_statements n) IH)
      in H. }
  intros fd stmts s l s' H. exact (Hall fd stmts s (l, true) s' H eq_refl).
Qed.

Lemma return_value_has_return_type_witness :
  exists l s',
    run_statements 10 (Function_init "gi" [] [])
      [SWhile (EBool true) [SIf (EBool true) [SReturn (Some (EInt 3))] None]]
      nested_block_state = Ok ((l, true), s') /\
    exists x, cells s' !! l = Some x /\ t x = INT.
Proof.
  eexists _, _. split; [vm_compute; reflexivity|].
  eapply (return_value_has_return_type 10 (Function_init "gi" [] [])
            [SWhile (EBool true)
               [SIf (EBool true) [SReturn (Some (EInt 3))] None]]
            nested_block_state).
  vm_compute. reflexivity.
Defined.

(** ** Conversions *)










(** ** Lookups in the environment *)

Lemma existsb_rev {A} (f : A -> bool) (l : list A) :
  existsb f (rev l) = existsb f l.
Proof.
  induction l as [|a r IH]; [reflexivity|].
  cbn [rev existsb]. rewrite existsb_app, IH. cbn. now rewrite orb_false_r, orb_comm.
Qed.

Lemma get_in_found name (blocks : list (dict loc)) :
  existsb (Dict.mem name) blocks =
    match Environment.get_in name blocks with Some _ => true | None => false end.
Proof.
  induction blocks as [|b r IH]; [reflexivity|].
  cbn [existsb Environment.get_in]. unfold Dict.mem at 1.
  destruct (Dict.get name b); [reflexivity|exact IH].
Qed.

Lemma get_in_set_in name l (blocks : list (dict loc)) :
  existsb (Dict.mem name) blocks = true ->
  Environment.get_in name (Environment.set_in name l blocks) = Some l.
Proof.
  induction blocks as [|b r IH]; cbn [existsb Environment.set_in]; [discriminate|].
  destruct (Dict.mem name b) eqn:Hm; cbn [orb Environment.get_in].
  - intros _. now rewrite get_set_eq.
  - intros Hr. apply mem_false in Hm. rewrite Hm. now apply IH.
Qed.

Lemma get_in_set_in_other name other l (blocks : list (dict loc)) :
  name <> other ->
  Environment.get_in other (Environment.set_in name l blocks) =
    Environment.get_in other blocks.
Proof.
  intros Hne. induction blocks as [|b r IH]; cbn [Environment.set_in]; [reflexivity|].
  destruct (Dict.mem name b); cbn [Environment.get_in].
  - now rewrite get_set_ne.
  - now rewrite IH.
Qed.

Lemma length_set_in name l (blocks : list (dict loc)) :
  length (Environment.set_in name l blocks) = length blocks.
Proof.
  induction blocks as [|b r IH]; cbn [Environment.set_in]; [reflexivity|].
  destruct (Dict.mem name b); cbn; now rewrite ?IH.
Qed.

(** X12.  The lookups of the environment agree.  [exists] is true exactly
    when [get] finds a wrapper, so that a [get] after a successful
    [exists] never returns Python's [None].  [set] returns what [exists]
    returns; when that is true, [get] of the name then returns the new
    wrapper, every other name reads as before, and the frames below and
    the number of blocks are unchanged; when it is false, the
    environment is unchanged. *)
Theorem environment_lookups_agree (name : string) (l : loc)
    (e : list Environment.frame) :
  Environment.exists_ name e =
    option_map (fun o => match o with Some _ => true | None => false end)
      (Environment.get name e) /\
  match Environment.set name l e with
  | Some (true, e') =>
      Environment.exists_ name e = Some true /\
      Environment.get name e' = Some (Some l) /\
      (forall other, other <> name ->
         Environment.get other e' = Environment.get other e) /\
      removelast e' = removelast e /\
      option_map (@length (dict loc)) (Environment.top e') =
        option_map (@length (dict loc)) (Environment.top e)
  | Some (false, e') => Environment.exists_ name e = Some false /\ e' = e
  | None => Environment.exists_ name e = None
  end.
Proof.
  unfold Environment.exists_, Environment.get, Environment.set,
    Environment.exists_.
  destruct (Environment.top e) as [fr|] eqn:Htop; cbn [option_map].
  2:{ split; reflexivity. }
  split.
  - f_equal. rewrite <- existsb_rev. apply get_in_found.
  - destruct (existsb (Dict.mem name) fr) eqn:Hex; [|split; reflexivity].
    split; [reflexivity|].
    rewrite top_set_top, rev_involutive.
    split; [|split; [|split]].
    + f_equal. apply get_in_set_in. now rewrite existsb_rev.
    + intros other Hne. f_equal. now apply get_in_set_in_other.
    + unfold Environment.set_top. now rewrite removelast_last.
    + cbn [option_map]. f_equal.
      now rewrite length_rev, length_set_in, length_rev.
Qed.

(** ** Paths through objects *)

Lemma last_char_None (s : string) : last_char s = None -> s = "".
Proof.
  induction s as [|a r IH]; [reflexivity|]. cbn [last_char].
  destruct r as [|b r']; [discriminate|]. intros H. apply IH in H. discriminate.
Qed.

Lemma object_named_check sub c :
  last_char sub = Some c ->
  negb (ascii_eqb c "o") && negb (isupper c) = negb (object_named sub).
Proof.
  intros Hc. unfold object_named. rewrite Hc.
  now destruct (ascii_eqb c "o"), (isupper c).
Qed.

Lemma object_named_last sub :
  object_named sub = true -> exists c, last_char sub = Some c.
Proof. unfold object_named. destruct (last_char sub); [eauto|discriminate]. Qed.

Lemma contains_Ok s sub o d :
  objs s !! o = Some d -> contains s sub (PObj o) = Ok (Dict.mem sub d).
Proof. intros Ho. unfold contains, fields. now rewrite Ho. Qed.

Lemma getitem_Ok s sub o d l :
  objs s !! o = Some d -> Dict.get sub d = Some l ->
  getitem s (PObj o) sub = Ok l.
Proof. intros Ho Hg. unfold getitem, fields. rewrite Ho. cbn. now rewrite Hg. Qed.

(** One step of the loop of [__get_var_value] through a field that is
    there. *)
Lemma walk_get_step s value sub r x o d next :
  cells s !! value = Some x -> v x = PObj o -> objs s !! o = Some d ->
  Dict.get sub d = Some next ->
  (r <> [] -> object_named sub = true) ->
  walk_get value (sub :: r) s = walk_get next r s.
Proof.
  intros Hx Hv Ho Hg Hn. cbn [walk_get].
  step (rd_Ok s value x Hx). rewrite Hv. cbn [is_None].
  step (when_false (error FAULT_ERROR) s).
  step (reads_Ok (fun s => contains s sub (PObj o)) s _ (contains_Ok s sub o d Ho)).
  replace (Dict.mem sub d) with true
    by (symmetry; apply mem_true; eauto).
  cbn [negb]. step (when_false (error NAME_ERROR) s).
  assert (Hchk : (match r with
                  | [] => ret tt
                  | _ :: _ =>
                      c <- last_of sub ;;
                      when_ (negb (ascii_eqb c "o") && negb (isupper c))
                        (error TYPE_ERROR)
                  end) s = Ok (tt, s)).
  { destruct r as [|r0 r']; [reflexivity|].
    assert (Hon : object_named sub = true) by (apply Hn; discriminate).
    destruct (object_named_last sub Hon) as [c Hc].
    unfold last_of. rewrite Hc. cbn [lift_opt].
    unfold bind at 1. cbn [ret].
    now rewrite (object_named_check sub c Hc), Hon. }
  step Hchk.
  step (reads_Ok (fun s => getitem s (PObj o) sub) s _ (getitem_Ok s sub o d next Ho Hg)).
  reflexivity.
Qed.

Lemma walk_get_reaches s value pre l more :
  reaches s value pre l -> more <> [] ->
  walk_get value (pre ++ more) s = walk_get l more s.
Proof.
  intros Hr Hmore. induction Hr as [|l sub rest x o d next l' Hx Hv Ho Hg Hn Hr IH].
  - reflexivity.
  - cbn [app]. rewrite (walk_get_step s l sub (rest ++ more) x o d next); auto.
Qed.

Lemma walk_get_nil s l sub rest x :
  cells s !! l = Some x -> v x = PNone ->
  walk_get l (sub :: rest) s = Err FAULT_ERROR.
Proof.
  intros Hx Hv. cbn [walk_get]. step (rd_Ok s l x Hx). now rewrite Hv.
Qed.

Lemma walk_get_missing s l sub rest x o d :
  cells s !! l = Some x -> v x = PObj o -> objs s !! o = Some d ->
  Dict.get sub d = None ->
  walk_get l (sub :: rest) s = Err NAME_ERROR.
Proof.
  intros Hx Hv Ho Hg. cbn [walk_get]. step (rd_Ok s l x Hx). rewrite Hv.
  cbn [is_None]. step (when_false (error FAULT_ERROR) s).
  step (reads_Ok (fun s => contains s sub (PObj o)) s _ (contains_Ok s sub o d Ho)).
  replace (Dict.mem sub d) with false by (symmetry; now apply mem_false).
  reflexivity.
Qed.

Lemma walk_get_not_object s l sub r0 rest x o d next c :
  cells s !! l = Some x -> v x = PObj o -> objs s !! o = Some d ->
  Dict.get sub d = Some next ->
  last_char sub = Some c -> object_named sub = false ->
  walk_get l (sub :: r0 :: rest) s = Err TYPE_ERROR.
Proof.
  intros Hx Hv Ho Hg Hc Hn. cbn [walk_get]. step (rd_Ok s l x Hx). rewrite Hv.
  cbn [is_None]. step (when_false (error FAULT_ERROR) s).
  step (reads_Ok (fun s => contains s sub (PObj o)) s _ (contains_Ok s sub o d Ho)).
  replace (Dict.mem sub d) with true by (symmetry; apply mem_true; eauto).
  cbn [negb]. step (when_false (error NAME_ERROR) s).
  unfold last_of. rewrite Hc. cbn [lift_opt].
  unfold bind at 2. cbn [ret].
  now rewrite (object_named_check sub c Hc), Hn.
Qed.

(** The part of [__get_var_value] before the loop, for a dotted name
    whose first segment is a visible variable named as an object. *)
Lemma get_var_value_dotted s name root sub rest value :
  split_dot name = root :: sub :: rest ->
  Environment.get root (env s) = Some (Some value) ->
  object_named root = true ->
  get_var_value name s = walk_get value (sub :: rest) s.
Proof.
  intros Hsplit Hget Hroot. unfold get_var_value. rewrite Hsplit.
  unfold Environment.get in Hget.
  destruct (Environment.top (env s)) as [fr|] eqn:Htop; [|discriminate].
  inversion Hget as [Hin]; clear Hget.
  step (env_exists_Ok s root fr Htop).
  rewrite (get_in_exists _ _ _ Hin). cbn [negb].
  step (when_false (error NAME_ERROR) s).
  step (env_get_Ok s root fr Htop). rewrite Hin. cbn [lift_opt].
  unfold bind at 1. cbn [ret].
  destruct (object_named_last root Hroot) as [c Hc].
  assert (Hchk : (base_last_ltr <- last_of root ;;
                  when_ (negb (isupper base_last_ltr) &&
                         negb (ascii_eqb base_last_ltr "o"))
                    (error TYPE_ERROR)) s = Ok (tt, s)).
  { unfold last_of. rewrite Hc. cbn [lift_opt]. unfold bind at 1. cbn [ret].
    rewrite andb_comm, (object_named_check root c Hc), Hroot. reflexivity. }
  step Hchk. reflexivity.
Qed.

(** X13.  Reading a dotted name [root.pre.sub.rest] whose first segment
    is a visible variable named as an object, when the fields [pre] lead
    through non-nil objects to the wrapper [l]: if [l] holds nil, the
    result is a FaultError, at whatever depth; if [l] holds an object
    without the field [sub], a NameError; if the field [sub] is there
    but is followed by a further segment and is not named as an object,
    a TypeError; if the field is there and is the last segment, the
    result is the wrapper stored in the field itself, not a copy, and
    the state is unchanged. *)
Theorem reading_a_path (s : State) (name root : string)
    (pre : list string) (sub : string) (rest : list string)
    (value l : loc) (x : Value) :
  split_dot name = root :: pre ++ sub :: rest ->
  Environment.get root (env s) = Some (Some value) ->
  object_named root = true ->
  reaches s value pre l ->
  cells s !! l = Some x ->
  (v x = PNone -> get_var_value name s = Err FAULT_ERROR) /\
  (forall o d, v x = PObj o -> objs s !! o = Some d ->
     match Dict.get sub d with
     | None => get_var_value name s = Err NAME_ERROR
     | Some next =>
         (rest = [] -> get_var_value name s = Ok (next, s)) /\
         (rest <> [] -> object_named sub = false -> sub <> "" ->
          get_var_value name s = Err TYPE_ERROR)
     end).
Proof.
  intros Hsplit Hget Hroot Hreach Hx.
  assert (Hwalk : get_var_value name s = walk_get l (sub :: rest) s).
  { destruct pre as [|p0 pre'].
    - inversion Hreach; subst.
      now apply (get_var_value_dotted s name root sub rest).
    - rewrite (get_var_value_dotted s name root p0 (pre' ++ sub :: rest) value);
        auto.
      now apply (walk_get_reaches s value (p0 :: pre') l (sub :: rest)). }
  rewrite Hwalk. split.
  - intros Hv. now apply (walk_get_nil s l sub rest x).
  - intros o d Hv Ho. destruct (Dict.get sub d) as [next|] eqn:Hg.
    + split.
      * intros ->.
        rewrite (walk_get_step s l sub [] x o d next); auto; congruence.
      * intros Hrest Hn Hne. destruct rest as [|r0 rest']; [congruence|].
        destruct (last_char sub) as [c|] eqn:Hc.
        -- now apply (walk_get_not_object s l sub r0 rest' x o d next c).
        -- now apply last_char_None in Hc.
    + now apply (walk_get_missing s l sub rest x o d).
Qed.

Lemma reading_a_path_witness :
  get_var_value "ao.bo.xi" path_state = Err FAULT_ERROR /\
  get_var_value "ao.yi" path_state = Err NAME_ERROR /\
  get_var_value "ao.xi" path_state = Ok (2%nat, path_state) /\
  get_var_value "ao.xi.yi" path_state = Err TYPE_ERROR.
Proof.
  assert (Hget : Environment.get "ao" (env path_state) = Some (Some 0%nat))
    by reflexivity.
  assert (Hroot : object_named "ao" = true) by reflexivity.
  assert (H0 : cells path_state !! 0%nat = Some (mkValue OBJECT (PObj 0%nat)))
    by reflexivity.
  assert (H1 : cells path_state !! 1%nat = Some (mkValue OBJECT PNone))
    by reflexivity.
  assert (Ho : objs path_state !! 0%nat = Some [("bo", 1%nat); ("xi", 2%nat)])
    by reflexivity.
  assert (Hbo : reaches path_state 0%nat ["bo"] 1%nat).
  { eapply reaches_field; [exact H0|reflexivity|exact Ho|reflexivity
                          |reflexivity|constructor]. }
  split; [|split; [|split]].
  - assert (Hs : split_dot "ao.bo.xi" = "ao" :: ["bo"] ++ "xi" :: [])
      by (vm_compute; reflexivity).
    now apply (proj1 (reading_a_path path_state "ao.bo.xi" "ao" ["bo"] "xi" []
                        0%nat 1%nat _ Hs Hget Hroot Hbo H1)).
  - assert (Hs : split_dot "ao.yi" = "ao" :: [] ++ "yi" :: [])
      by (vm_compute; reflexivity).
    exact (proj2 (reading_a_path path_state "ao.yi" "ao" [] "yi" []
                    0%nat 0%nat _ Hs Hget Hroot (reaches_here _ _) H0)
             0%nat _ eq_refl Ho).
  - assert (Hs : split_dot "ao.xi" = "ao" :: [] ++ "xi" :: [])
      by (vm_compute; reflexivity).
    exact (proj1 (proj2 (reading_a_path path_state "ao.xi" "ao" [] "xi" []
                    0%nat 0%nat _ Hs Hget Hroot (reaches_here _ _) H0)
             0%nat _ eq_refl Ho) eq_refl).
  - assert (Hs : split_dot "ao.xi.yi" = "ao" :: [] ++ "xi" :: ["yi"])
      by (vm_compute; reflexivity).
    exact (proj2 (proj2 (reading_a_path path_state "ao.xi.yi" "ao" [] "xi" ["yi"]
                    0%nat 0%nat _ Hs Hget Hroot (reaches_here _ _) H0)
             0%nat _ eq_refl Ho) ltac:(discriminate) eq_refl ltac:(discriminate)).
Defined.

(** ** Calls through a variable *)

Lemma check_value_arg_pass s k l val :
  cells s !! l = Some val ->
  get_type k = t val -> arg_passes s k val ->
  check_value_arg (k, l) s = Ok (tt, s).
Proof.
  intros Hl Hty Hk. unfold arg_passes in Hk. unfold check_value_arg.
  cbn [fst snd]. step (rd_Ok s l val Hl).
  rewrite bool_decide_eq_true_2 by exact Hty. cbn [negb].
  step (when_false (error TYPE_ERROR) s).
  destruct (get_interface_name k) as [iname|]; [|reflexivity].
  destruct Hk as [Ht Hsat].
  rewrite bool_decide_eq_true_2 by exact Ht. cbn [negb].
  step (when_false (error TYPE_ERROR) s).
  erewrite (bind_Ok (reads _)) by (apply reads_Ok; exact Hsat).
  reflexivity.
Qed.

Lemma check_value_args_fail s : forall i ks ls vals p val,
  Forall2 (fun l val => cells s !! l = Some val) ls vals ->
  ks !! i = Some p -> vals !! i = Some val ->
  get_type p <> t val ->
  (forall j q w, (j < i)%nat -> ks !! j = Some q -> vals !! j = Some w ->
     get_type q = t w /\ arg_passes s q w) ->
  forM_ check_value_arg (combine ks ls) s = Err TYPE_ERROR.
Proof.
  induction i as [|i IH]; intros ks ls vals p val Hcells Hp Hval Hty Hpass;
    destruct ks as [|k ks]; try discriminate;
    destruct Hcells as [|l w ls vals Hl Hcells]; try discriminate;
    cbn [combine forM_]; cbn in Hp, Hval.
  - inversion Hp; inversion Hval; subst. apply bind_Err.
    unfold check_value_arg. cbn [fst snd]. step (rd_Ok s l val Hl).
    now rewrite bool_decide_eq_false_2.
  - destruct (Hpass 0%nat k w ltac:(lia) eq_refl eq_refl) as [Hk Hpk].
    step (check_value_arg_pass s k l w Hl Hk Hpk).
    apply (IH ks ls vals p val); auto.
    intros j q w' Hj Hq Hw. apply (Hpass (S j)); auto. lia.
Qed.

(** X14.  A call by a plain name that is a visible variable holding a
    Function value goes through the variable, whatever the function
    table holds under that name: a nil function is a FaultError, before
    any argument is evaluated; otherwise the arguments are evaluated and
    a number of arguments other than the number of parameters is a
    TypeError, and so is the first argument whose tag is not the
    declared type of its parameter. *)
Theorem call_through_variable (ev : Expr -> M loc)
    (rs : FuncObj -> list Stmt -> M (loc * bool))
    (name : string) (args : list Expr) (s : State)
    (fr : Environment.frame) (l : loc) (x : Value) :
  name <> "inputi" -> name <> "inputs" -> name <> "print" ->
  has_dot name = false ->
  Environment.top (env s) = Some fr ->
  Environment.get_in name (rev fr) = Some l ->
  cells s !! l = Some x -> t x = FUNCTION ->
  (v x = PNone -> run_fcall ev rs name args s = Err FAULT_ERROR) /\
  (forall f fo ls s1 vals,
     v x = PFun f ->
     mapM ev args s = Ok (ls, s1) ->
     Forall2 (fun l y => cells s1 !! l = Some y) ls vals ->
     (forall y, In y vals -> t y <> VOID /\ t y <> ERROR) ->
     fobjs s1 !! f = Some fo ->
     (length ls <> length (formal_args fo) ->
      run_fcall ev rs name args s = Err TYPE_ERROR) /\
     (forall i p val,
        length ls = length (formal_args fo) ->
        Dict.keys (formal_args fo) !! i = Some p -> vals !! i = Some val ->
        get_type p <> t val ->
        (forall j q w, (j < i)%nat ->
           Dict.keys (formal_args fo) !! j = Some q -> vals !! j = Some w ->
           get_type q = t w /\ arg_passes s1 q w) ->
        run_fcall ev rs name args s = Err TYPE_ERROR)).
Proof.
  intros H1 H2 H3 Hdot Htop Hget Hl Ht.
  assert (Hrun : run_fcall ev rs name args s =
                 (when_ (is_None (v x)) (error FAULT_ERROR) ;;
                  call_function_value ev rs (v x) args None) s).
  { unfold run_fcall. apply String.eqb_neq in H1, H2, H3.
    rewrite H1, H2, H3, Hdot. cbn [orb].
    unfold bind at 1. cbn [gets].
    destruct (env s) as [|f0 e0] eqn:He.
    { discriminate Htop. }
    rewrite <- He in *. step (env_get_Ok s name fr Htop). rewrite Hget.
    step (rd_Ok s l x Hl). now rewrite bool_decide_eq_true_2. }
  rewrite Hrun. split.
  - intros ->. reflexivity.
  - intros f fo ls s1 vals Hv Hargs Hcells Htags Hfo. rewrite Hv.
    cbn [is_None]. step (when_false (error FAULT_ERROR) s).
    unfold call_function_value. step Hargs.
    step (mapM_rd_Ok s1 ls vals Hcells).
    erewrite (bind_Ok (reads _))
      by (apply reads_Ok; unfold get_arguments_type_signature;
          apply (arguments_sig_ok vals "" Htags)).
    erewrite (bind_Ok (reads _)) by (apply reads_Ok; unfold fobj; now rewrite Hfo).
    split.
    + intros Hlen. apply Nat.eqb_neq in Hlen. now rewrite Hlen.
    + intros i p val Hlen Hp Hval Hty Hpass.
      rewrite Hlen, Nat.eqb_refl. cbn [negb].
      step (when_false (error TYPE_ERROR) s1).
      apply bind_Err.
      now apply (check_value_args_fail s1 i _ ls vals p val).
Qed.

Lemma call_through_variable_witness :
  run_fcall (eval_expr 3) (run_statements 3) "nf" [] function_variable_state
    = Err FAULT_ERROR /\
  run_fcall (eval_expr 3) (run_statements 3) "hf" [] function_variable_state
    = Err TYPE_ERROR /\
  run_fcall (eval_expr 3) (run_statements 3) "hf" [EBool true]
    function_variable_state = Err TYPE_ERROR.
Proof.
  assert (Htop : Environment.top (env function_variable_state)
                 = Some [[("hf", 0%nat); ("nf", 1%nat)]]) by reflexivity.
  split; [|split].
  - apply (proj1 (call_through_variable (eval_expr 3) (run_statements 3)
                    "nf" [] function_variable_state _ 1%nat
                    (mkValue FUNCTION PNone)
                    ltac:(discriminate) ltac:(discriminate) ltac:(discriminate)
                    eq_refl Htop eq_refl eq_refl eq_refl)).
    reflexivity.
  - destruct (proj2 (call_through_variable (eval_expr 3) (run_statements 3)
                    "hf" [] function_variable_state _ 0%nat
                    (mkValue FUNCTION (PFun 0%nat))
                    ltac:(discriminate) ltac:(discriminate) ltac:(discriminate)
                    eq_refl Htop eq_refl eq_refl eq_refl)
                0%nat (Function_init "hf" [mkArg "xi" false] []) []
                function_variable_state [] eq_refl eq_refl
                ltac:(constructor) ltac:(intros y []) eq_refl) as [Harity _].
    apply Harity. discriminate.
  - assert (Hargs : mapM (eval_expr 3) [EBool true] function_variable_state
                    = Ok ([2%nat],
                          set_cells function_variable_state
                            (cells function_variable_state ++ [VBool true])))
      by reflexivity.
    destruct (proj2 (call_through_variable (eval_expr 3) (run_statements 3)
                    "hf" [EBool true] function_variable_state _ 0%nat
                    (mkValue FUNCTION (PFun 0%nat))
                    ltac:(discriminate) ltac:(discriminate) ltac:(discriminate)
                    eq_refl Htop eq_refl eq_refl eq_refl)
                0%nat (Function_init "hf" [mkArg "xi" false] []) [2%nat]
                _ [VBool true] eq_refl Hargs
                ltac:(repeat constructor)
                ltac:(intros y [<-|[]]; split; discriminate) eq_refl)
      as [_ Htype].
    apply (Htype 0%nat "xi" (VBool true) eq_refl eq_refl eq_refl);
      [discriminate|intros j q w Hj; lia].
Defined.

(** ** Parameters passed by value *)

(** X15.  In an ordinary call, a formal parameter passed by value denotes
    a new wrapper, one that the caller's store does not hold, with the
    tag and the payload of the wrapper that evaluating the argument
    produced: for an object the payload is the same reference, so the
    callee and the caller share the fields, but not the variable.
    Binding the parameters leaves every wrapper of the caller as it
    is. *)
Theorem value_parameter_is_a_copy
    (ev : Expr -> M loc) (rs : FuncObj -> list Stmt -> M (loc * bool))
    (fname : string) (args : list Expr) (s s1 : State)
    (ls : list loc) (vals : list Value) (f : floc) (func_def : FuncObj) :
  fname <> "inputi" -> fname <> "inputs" -> fname <> "print" ->
  has_dot fname = false ->
  (forall l, Environment.get fname (env s) = Some (Some l) ->
     exists x, cells s !! l = Some x /\ t x <> FUNCTION) ->
  mapM ev args s = Ok (ls, s1) ->
  Forall2 (fun l val => cells s1 !! l = Some val) ls vals ->
  (forall val, In val vals -> t val <> VOID /\ t val <> ERROR) ->
  Dict.get (fname, signature_of vals) (funcs s1) = Some f ->
  fobjs s1 !! f = Some func_def ->
  NoDup (Dict.keys (formal_args func_def)) ->
  (forall i p val,
     Dict.keys (formal_args func_def) !! i = Some p ->
     vals !! i = Some val -> arg_passes s1 p val) ->
  exists news b0,
    let s_body :=
      set_env (set_cells s1 (cells s1 ++ news)) (env s1 ++ [[b0]]) in
    run_fcall ev rs fname args s =
      (r <- rs func_def (fstatements func_def) ;;
       env_exit_func ;; ret (fst r)) s_body /\
    (forall l x, cells s1 !! l = Some x -> cells s_body !! l = Some x) /\
    (forall i p l val,
       Dict.keys (formal_args func_def) !! i = Some p ->
       ls !! i = Some l -> vals !! i = Some val ->
       Dict.get p (formal_args func_def) = Some false ->
       exists l',
         Environment.get p (env s_body) = Some (Some l') /\
         cells s1 !! l' = None /\
         cells s_body !! l' = Some val).
Proof.
  intros H1 H2 H3 Hdot Hvar Hargs Hcells Htags Hf Hfd Hnd Hpass.
  destruct (bind_formals func_def (env s1) (bind_formal func_def)
              (fun _ _ _ _ _ _ => eq_refl)
              (Dict.keys (formal_args func_def)) ls []
              (set_env s1 (env s1 ++ [[[]]])) Hnd)
    as (news & b0 & Hbind & _ & _ & Hval).
  - auto.
  - reflexivity.
  - intros l Hl. apply list_elem_of_In in Hl.
    apply list_elem_of_lookup_1 in Hl as [i Hi].
    destruct (Forall2_lookup_l _ _ _ _ _ Hcells Hi) as (val & _ & Hv).
    exists val. exact Hv.
  - reflexivity.
  - exists news, b0. cbn zeta. split; [|split].
    + rewrite (run_fcall_resolved ev rs fname args s s1 ls vals
                 f func_def H1 H2 H3 Hdot Hvar Hargs Hcells Htags Hf Hfd).
      cbn zeta.
      step (check_interface_args_pass s1 _ ls vals Hcells Hpass).
      unfold bind at 1. cbn [env_enter_func modify].
      unfold Environment.enter_func. step Hbind.
      reflexivity.
    + intros l x Hl. cbn [cells set_env set_cells].
      now apply lookup_app_l_Some.
    + intros i p l val Hp Hl Hv Hfalse.
      destruct (Hval i p l Hp Hl Hfalse) as (l' & Hb & Hfresh & Hcopy).
      cbn [cells set_env set_cells] in Hfresh, Hcopy.
      exists l'. split; [|split].
      * cbn [env set_env]. unfold Environment.get. rewrite top_snoc.
        cbn [rev app Environment.get_in]. now rewrite Hb.
      * apply lookup_ge_None. exact Hfresh.
      * cbn [cells set_env set_cells]. rewrite Hcopy.
        destruct (Forall2_lookup_l _ _ _ _ _ Hcells Hl) as (val' & Hv' & Hc).
        congruence.
Qed.

Lemma value_parameter_is_a_copy_witness :
  exists news b0 l',
    let s_body :=
      set_env (set_cells value_call_state (cells value_call_state ++ news))
        (env value_call_state ++ [[b0]]) in
    Environment.get "ao" (env value_call_state) = Some (Some 0%nat) /\
    Environment.get "po" (env s_body) = Some (Some l') /\
    cells value_call_state !! l' = None /\
    cells s_body !! l' = Some (mkValue OBJECT (PObj 0%nat)).
Proof.
  set (fd := Function_init "gv" [mkArg "po" false] []).
  assert (Hvar : forall l,
            Environment.get "gv" (env value_call_state) = Some (Some l) ->
            exists x, cells value_call_state !! l = Some x /\ t x <> FUNCTION).
  { intros l Hl. vm_compute in Hl. discriminate. }
  assert (Hargs : mapM (eval_expr 1) [EQName "ao"] value_call_state
                  = Ok ([0%nat], value_call_state)) by (vm_compute; reflexivity).
  assert (Hcells : Forall2 (fun l val => cells value_call_state !! l = Some val)
                     [0%nat] [mkValue OBJECT (PObj 0%nat)]).
  { constructor; [|constructor]. vm_compute. reflexivity. }
  assert (Htags : forall val, In val [mkValue OBJECT (PObj 0%nat)] ->
                              t val <> VOID /\ t val <> ERROR).
  { intros val [<-|[]]. split; discriminate. }
  assert (Hf : Dict.get ("gv", signature_of [mkValue OBJECT (PObj 0%nat)])
                 (funcs value_call_state) = Some 0%nat)
    by (vm_compute; reflexivity).
  assert (Hfd : fobjs value_call_state !! 0%nat = Some fd)
    by (vm_compute; reflexivity).
  assert (Hnd : NoDup (Dict.keys (formal_args fd))).
  { vm_compute. apply NoDup_singleton. }
  assert (Hpass : forall i p val,
            Dict.keys (formal_args fd) !! i = Some p ->
            [mkValue OBJECT (PObj 0%nat)] !! i = Some val ->
            arg_passes value_call_state p val).
  { intros i p val Hp Hv. destruct i as [|i]; [|destruct i; discriminate].
    vm_compute in Hp. inversion Hp; subst p. exact I. }
  destruct (value_parameter_is_a_copy (eval_expr 1) (run_statements 1)
              "gv" [EQName "ao"] value_call_state value_call_state
              [0%nat] [mkValue OBJECT (PObj 0%nat)] 0%nat fd
              ltac:(discriminate) ltac:(discriminate) ltac:(discriminate)
              eq_refl Hvar Hargs Hcells Htags Hf Hfd Hnd Hpass)
    as (news & b0 & _ & _ & Hval).
  destruct (Hval 0%nat "po" 0%nat (mkValue OBJECT (PObj 0%nat)))
    as (l' & Hget & Hfresh & Hcopy); try (vm_compute; reflexivity).
  exists news, b0, l'. cbn zeta in *.
  split; [vm_compute; reflexivity|]. split; [exact Hget|].
  split; [exact Hfresh|exact Hcopy].
Defined.

(** ** The objects built from declarations *)

Section DictFresh.
Context {K : Type} `{EqDecision K} {V : Type}.

Lemma set_fresh (k : K) (x : V) (d : Dict.dict K V) :
  ~ In k (Dict.keys d) -> Dict.set k x d = d ++ [(k, x)].
Proof.
  intros Hk. apply set_new. apply mem_false.
  destruct (Dict.get k d) as [y|] eqn:Hg; [|reflexivity].
  exfalso. apply Hk. apply get_In in Hg.
  unfold Dict.keys. apply in_map_iff. exists (k, y). auto.
Qed.
End DictFresh.

Lemma formal_args_fold args : forall d : dict bool,
  NoDup (map arg_name args) ->
  (forall a, In a args -> ~ In (arg_name a) (Dict.keys d)) ->
  fold_left (fun d a => Dict.set (arg_name a) (arg_ref a) d) args d =
    d ++ map (fun a => (arg_name a, arg_ref a)) args.
Proof.
  induction args as [|a r IH]; intros d Hnd Hfresh; cbn [fold_left map].
  - now rewrite app_nil_r.
  - apply NoDup_cons in Hnd as [Ha Hnd].
    rewrite set_fresh by (apply Hfresh; now left).
    rewrite IH; [now rewrite <- app_assoc|exact Hnd|].
    intros b Hb Hin. unfold Dict.keys in Hin. rewrite map_app in Hin.
    apply in_app_or in Hin as [Hin|[Heq|[]]].
    + apply (Hfresh b); [now right|exact Hin].
    + cbn in Heq. apply Ha. rewrite Heq.
      apply list_elem_of_In, in_map. exact Hb.
Qed.

Lemma assign_fields_fold fields : forall i,
  NoDup (map field_name fields) ->
  (forall f, In f fields ->
     ~ In (field_name f) (Dict.keys (field_vars i)) /\
     ~ In (field_name f) (Dict.keys (field_funcs i))) ->
  assign_fields fields i =
    mkInterface (iname i)
      (field_vars i ++ omap var_entry fields)
      (field_funcs i ++ omap func_entry fields).
Proof.
  unfold assign_fields.
  induction fields as [|f r IH]; intros i Hnd Hfresh; cbn [fold_left omap].
  - rewrite !app_nil_r. now destruct i.
  - apply NoDup_cons in Hnd as [Hf Hnd].
    destruct (Hfresh f (or_introl eq_refl)) as [Hv Hfu].
    assert (Hrest : forall g, In g r -> field_name g <> field_name f).
    { intros g Hg Heq. apply Hf. rewrite <- Heq.
      apply list_elem_of_In, in_map. exact Hg. }
    destruct f as [name|name params]; cbn [field_name] in *.
    + rewrite IH; [|exact Hnd|].
      * cbn [iname field_vars field_funcs var_entry func_entry].
        rewrite set_fresh by exact Hv. now rewrite <- app_assoc.
      * intros g Hg. destruct (Hfresh g (or_intror Hg)) as [Hgv Hgf].
        cbn [field_vars field_funcs]. split; [|exact Hgf].
        rewrite set_fresh by exact Hv. unfold Dict.keys. rewrite map_app.
        intros Hin. apply in_app_or in Hin as [Hin|[Heq|[]]]; [now apply Hgv|].
        cbn in Heq. now apply (Hrest g Hg).
    + rewrite IH; [|exact Hnd|].
      * cbn [iname field_vars field_funcs var_entry func_entry].
        rewrite set_fresh by exact Hfu. now rewrite <- app_assoc.
      * intros g Hg. destruct (Hfresh g (or_intror Hg)) as [Hgv Hgf].
        cbn [field_vars field_funcs]. split; [exact Hgv|].
        rewrite set_fresh by exact Hfu. unfold Dict.keys. rewrite map_app.
        intros Hin. apply in_app_or in Hin as [Hin|[Heq|[]]]; [now apply Hgf|].
        cbn in Heq. now apply (Hrest g Hg).
Qed.

(** X16.  The objects built from declarations keep them in order.  The
    Function object of a declaration whose parameters have different
    names lists the parameters in their order, each with its reference
    flag; its return type is Void for [main] and the type of the last
    letter of the name otherwise.  The Interface object of a declaration
    whose fields have different names lists the variable fields with
    their types and the function fields with the types and reference
    flags of their parameters, both in the order of the declaration. *)
Theorem declarations_are_kept_in_order :
  (forall name args stmts,
     NoDup (map arg_name args) ->
     Function_init name args stmts =
       mkFuncObj (if String.eqb name "main" then VOID else get_type name)
         (map (fun a => (arg_name a, arg_ref a)) args) stmts None) /\
  (forall name fields,
     NoDup (map field_name fields) ->
     Interface_init name fields =
       mkInterface name (omap var_entry fields) (omap func_entry fields)).
Proof.
  split.
  - intros name args stmts Hnd. unfold Function_init, formal_args_of.
    rewrite formal_args_fold; [reflexivity|exact Hnd|].
    intros a _ [].
  - intros name fields Hnd. unfold Interface_init.
    rewrite assign_fields_fold; [reflexivity|exact Hnd|].
    intros f _. split; intros [].
Qed.

Lemma declarations_are_kept_in_order_witness :
  formal_args (Function_init "fv" [mkArg "xi" true; mkArg "po" false] [])
    = [("xi", true); ("po", false)] /\
  field_funcs (Interface_init "Q" [FIELD_VAR "xi"; FIELD_FUNC "mf" [mkArg "yi" true]])
    = [("mf", [(INT, true)])].
Proof.
  split.
  - rewrite (proj1 declarations_are_kept_in_order "fv"
               [mkArg "xi" true; mkArg "po" false] []); [reflexivity|].
    apply (bool_decide_unpack _). vm_compute. exact I.
  - rewrite (proj2 declarations_are_kept_in_order "Q"
               [FIELD_VAR "xi"; FIELD_FUNC "mf" [mkArg "yi" true]]);
      [reflexivity|].
    apply (bool_decide_unpack _). vm_compute. exact I.
Defined.

(** ** Method calls *)

(** Defining the captured variables never replaces a name that the
    function scope holds. *)
Lemma bind_captured_keeps (e : list Environment.frame) (captured : dict loc) :
  forall b st,
  env st = e ++ [[b]] ->
  exists b',
    forM_ (fun nv : string * loc => _ <- env_fdef (fst nv) (snd nv) ;; ret tt)
      captured st = Ok (tt, set_env st (e ++ [[b']])) /\
    (forall k, ~ In k (Dict.keys captured) -> Dict.get k b' = Dict.get k b) /\
    (forall k l, Dict.get k b = Some l -> Dict.get k b' = Some l).
Proof.
  induction captured as [|[n l] r IH]; intros b st Henv.
  - exists b. split; [|split; auto].
    cbn. unfold ret. now rewrite set_env_same.
  - set (b1 := if Dict.mem n b then b else Dict.set n l b).
    assert (Hstep : env_fdef n l st =
                    Ok (negb (Dict.mem n b), set_env st (e ++ [[b1]]))).
    { unfold env_fdef, env_update, Environment.fdef.
      rewrite Henv, top_snoc. subst b1. destruct (Dict.mem n b).
      - rewrite <- Henv. now rewrite set_env_same.
      - now rewrite set_top_snoc. }
    destruct (IH b1 (set_env st (e ++ [[b1]])) eq_refl)
      as (b' & Hrun & Hkeep & Hold).
    exists b'. split; [|split].
    + cbn [forM_ fst snd]. unfold bind at 1. unfold bind at 1.
      rewrite Hstep. cbn [ret]. exact Hrun.
    + intros k Hk. rewrite Hkeep by (intros Hin; apply Hk; now right).
      subst b1. destruct (Dict.mem n b); [reflexivity|].
      apply get_set_ne. intros ->. apply Hk. now left.
    + intros k l0 Hk. apply Hold. subst b1.
      destruct (Dict.mem n b) eqn:Hm; [exact Hk|].
      rewrite get_set_ne; [exact Hk|].
      intros ->. apply mem_false in Hm. congruence.
Qed.

(** A method call through a function value none of whose formals bears
    the name [selfo] or the name of a captured variable: the function
    scope of the new frame holds [selfo]. *)
Lemma call_function_value_selfo ev rs f fo args receiver s s1 ls vals :
  mapM ev args s = Ok (ls, s1) ->
  Forall2 (fun l val => cells s1 !! l = Some val) ls vals ->
  (forall val, In val vals -> t val <> VOID /\ t val <> ERROR) ->
  fobjs s1 !! f = Some fo ->
  length ls = length (formal_args fo) ->
  NoDup (Dict.keys (formal_args fo)) ->
  (forall i p val,
     Dict.keys (formal_args fo) !! i = Some p -> vals !! i = Some val ->
     get_type p = t val /\ arg_passes s1 p val) ->
  (forall p, In p (Dict.keys (formal_args fo)) ->
     p <> "selfo" /\
     (forall captured, captured_vars fo = Some captured ->
        ~ In p (Dict.keys captured))) ->
  exists news b0,
    let s_body :=
      set_env (set_cells s1 (cells s1 ++ news)) (env s1 ++ [[b0]]) in
    call_function_value ev rs (PFun f) args (Some receiver) s =
      (r <- rs fo (fstatements fo) ;; env_exit_func ;; ret (fst r)) s_body /\
    Environment.get "selfo" (env s_body) = Some (Some receiver).
Proof.
  intros Hargs Hcells Htags Hfo Hlen Hnd Hpass Hfresh.
  set (b_self := [("selfo", receiver)] : dict loc).
  set (captured := match captured_vars fo with Some c => c | None => [] end).
  destruct (bind_captured_keeps (env s1) captured b_self
              (set_env s1 (env s1 ++ [[b_self]])) eq_refl)
    as (b_c & Hcap & Hkeepc & Hold).
  assert (Hfresh_c : forall k, In k (Dict.keys (formal_args fo)) ->
                               Dict.get k b_c = None).
  { intros k Hk. destruct (Hfresh k Hk) as [Hself Hnot].
    rewrite Hkeepc.
    - subst b_self. simpl.
      destruct (decide (k = "selfo")); [contradiction|reflexivity].
    - subst captured. destruct (captured_vars fo) as [c|]; [|intros []].
      now apply Hnot. }
  destruct (bind_formals fo (env s1) (bind_value_formal fo)
              (bind_value_formal_fresh fo (env s1))
              (Dict.keys (formal_args fo)) ls b_c
              (set_env s1 (env s1 ++ [[b_c]])) Hnd)
    as (news & b0 & Hbind & Hkept & _ & _).
  { auto. }
  { exact Hfresh_c. }
  { intros l Hl. apply list_elem_of_In in Hl.
    apply list_elem_of_lookup_1 in Hl as [i Hi].
    destruct (Forall2_lookup_l _ _ _ _ _ Hcells Hi) as (val & _ & Hv).
    exists val. exact Hv. }
  { reflexivity. }
  exists news, b0. cbn zeta. split.
  - unfold call_function_value. step Hargs.
    step (mapM_rd_Ok s1 ls vals Hcells).
    erewrite (bind_Ok (reads _)).
    2:{ apply reads_Ok. unfold get_arguments_type_signature.
        now apply arguments_sig_ok. }
    erewrite (bind_Ok (reads _)).
    2:{ apply reads_Ok. unfold fobj. rewrite Hfo. reflexivity. }
    rewrite Hlen, Nat.eqb_refl. cbn [negb].
    step (when_false (error TYPE_ERROR) s1).
    step (check_value_args_pass s1 _ ls vals Hcells Hpass).
    unfold bind at 1. cbn [env_enter_func modify].
    unfold Environment.enter_func.
    assert (Hself : (_ <- env_fdef "selfo" receiver ;; ret tt)
                      (set_env s1 (env s1 ++ [[[]]]))
                    = Ok (tt, set_env s1 (env s1 ++ [[b_self]]))).
    { subst b_self.
      unfold bind, env_fdef, env_update, Environment.fdef. cbn [env set_env].
      rewrite top_snoc. cbn. now rewrite set_top_snoc. }
    step Hself.
    assert (Hcapt : (match captured_vars fo with
                     | Some c =>
                         forM_ (fun nv : string * loc =>
                                  _ <- env_fdef (fst nv) (snd nv) ;; ret tt) c
                     | None => ret tt
                     end) (set_env s1 (env s1 ++ [[b_self]]))
                    = Ok (tt, set_env s1 (env s1 ++ [[b_c]]))).
    { subst captured. destruct (captured_vars fo) as [c|]; exact Hcap. }
    step Hcapt. step Hbind. reflexivity.
  - cbn [env set_env]. unfold Environment.get. rewrite top_snoc.
    cbn [rev app Environment.get_in].
    rewrite (Hkept "selfo" receiver); [reflexivity|].
    apply Hold. reflexivity.
Qed.

Lemma walk_method_reaches s value pre l :
  reaches_receiver s value pre l -> walk_method value pre s = Ok (l, s).
Proof.
  induction 1 as [|l sub rest x o d next l' Hx Hv Ho Hg Hn Hr IH];
    [reflexivity|].
  cbn [walk_method]. step (rd_Ok s l x Hx). rewrite Hv. cbn [is_None].
  step (when_false (error FAULT_ERROR) s).
  erewrite (bind_Ok (reads _))
    by (apply reads_Ok; unfold contains, fields; rewrite Ho; reflexivity).
  replace (Dict.mem sub d) with true by (symmetry; apply mem_true; eauto).
  cbn [negb]. step (when_false (error NAME_ERROR) s).
  unfold last_of. rewrite Hn. cbn [lift_opt]. unfold bind at 1. cbn [ret].
  change (ascii_eqb "o" "o") with true. cbn [negb].
  step (when_false (error TYPE_ERROR) s).
  erewrite (bind_Ok (reads _))
    by (apply reads_Ok; unfold getitem, fields; rewrite Ho; cbn;
        rewrite Hg; reflexivity).
  exact IH.
Qed.

(** X17.  In a method call [root.pre.method(args)], when the fields
    [pre] lead from the variable [root] through non-nil objects to the
    wrapper [l] of an object whose field [method] holds a function, the
    body of the function runs in a new frame in which [selfo] denotes
    [l] itself, the wrapper of the receiver and not a copy, also when
    the function is a lambda that captured a variable named [selfo]: an
    assignment to [selfo] in the body writes the receiver. *)
Theorem selfo_is_the_receiver
    (ev : Expr -> M loc) (rs : FuncObj -> list Stmt -> M (loc * bool))
    (path root : string) (pre : list string) (method : string)
    (args : list Expr) (s s1 : State) (value l m : loc) (x : Value)
    (o : oloc) (d : dict loc) (f : floc) (fo : FuncObj)
    (ls : list loc) (vals : list Value) :
  split_dot path = root :: pre ++ [method] ->
  Environment.get root (env s) = Some (Some value) ->
  reaches_receiver s value pre l ->
  cells s !! l = Some x -> v x = PObj o -> objs s !! o = Some d ->
  Dict.get method d = Some m ->
  cells s !! m = Some (mkValue FUNCTION (PFun f)) ->
  mapM ev args s = Ok (ls, s1) ->
  Forall2 (fun l val => cells s1 !! l = Some val) ls vals ->
  (forall val, In val vals -> t val <> VOID /\ t val <> ERROR) ->
  fobjs s1 !! f = Some fo ->
  length ls = length (formal_args fo) ->
  NoDup (Dict.keys (formal_args fo)) ->
  (forall i p val,
     Dict.keys (formal_args fo) !! i = Some p -> vals !! i = Some val ->
     get_type p = t val /\ arg_passes s1 p val) ->
  (forall p, In p (Dict.keys (formal_args fo)) ->
     p <> "selfo" /\
     (forall captured, captured_vars fo = Some captured ->
        ~ In p (Dict.keys captured))) ->
  exists news b0,
    let s_body :=
      set_env (set_cells s1 (cells s1 ++ news)) (env s1 ++ [[b0]]) in
    run_method_call ev rs path args s =
      (r <- rs fo (fstatements fo) ;; env_exit_func ;; ret (fst r)) s_body /\
    Environment.get "selfo" (env s_body) = Some (Some l).
Proof.
  intros Hsplit Hget Hreach Hx Hv Ho Hg Hm Hargs Hcells Htags Hfo Hlen Hnd
    Hpass Hfresh.
  destruct (call_function_value_selfo ev rs f fo args l s s1 ls vals
              Hargs Hcells Htags Hfo Hlen Hnd Hpass Hfresh)
    as (news & b0 & Hcall & Hself).
  exists news, b0. cbn zeta in *. split; [|exact Hself].
  rewrite <- Hcall. unfold run_method_call. rewrite Hsplit.
  unfold Environment.get in Hget.
  destruct (Environment.top (env s)) as [fr|] eqn:Htop; [|discriminate].
  inversion Hget as [Hin]; clear Hget.
  step (env_exists_Ok s root fr Htop).
  rewrite (get_in_exists _ _ _ Hin). cbn [negb].
  step (when_false (error NAME_ERROR) s).
  step (env_get_Ok s root fr Htop). rewrite Hin. cbn [lift_opt].
  unfold bind at 1. cbn [ret].
  rewrite removelast_last.
  step (walk_method_reaches s value pre l Hreach).
  rewrite last_snoc. cbn [lift_opt]. unfold bind at 1. cbn [ret].
  step (rd_Ok s l x Hx). rewrite Hv.
  erewrite (bind_Ok (reads _))
    by (apply reads_Ok; unfold contains, fields; rewrite Ho; reflexivity).
  replace (Dict.mem method d) with true by (symmetry; apply mem_true; eauto).
  cbn [negb]. step (when_false (error NAME_ERROR) s).
  erewrite (bind_Ok (reads _))
    by (apply reads_Ok; unfold getitem, fields; rewrite Ho; cbn;
        rewrite Hg; reflexivity).
  step (rd_Ok s m _ Hm). cbn [t v is_None negb].
  rewrite bool_decide_eq_true_2 by reflexivity. cbn [negb].
  step (when_false (error TYPE_ERROR) s).
  step (when_false (error FAULT_ERROR) s).
  reflexivity.
Qed.

Lemma selfo_is_the_receiver_witness :
  exists news b0,
    let s_body :=
      set_env (set_cells method_state (cells method_state ++ news))
        (env method_state ++ [[b0]]) in
    run_method_call (eval_expr 1) (run_statements 1) "ao.mf" [] method_state =
      (r <- run_statements 1 (Lambda_init "mf" [] [] [("selfo", 2%nat)]) [] ;;
       env_exit_func ;; ret (fst r)) s_body /\
    Environment.get "ao" (env method_state) = Some (Some 0%nat) /\
    Environment.get "selfo" (env s_body) = Some (Some 0%nat).
Proof.
  assert (Hsplit : split_dot "ao.mf" = "ao" :: [] ++ ["mf"])
    by (vm_compute; reflexivity).
  assert (Hget : Environment.get "ao" (env method_state) = Some (Some 0%nat))
    by reflexivity.
  destruct (selfo_is_the_receiver (eval_expr 1) (run_statements 1)
              "ao.mf" "ao" [] "mf" [] method_state method_state
              0%nat 0%nat 1%nat (mkValue OBJECT (PObj 0%nat)) 0%nat
              [("mf", 1%nat)] 0%nat
              (Lambda_init "mf" [] [] [("selfo", 2%nat)]) [] []
              Hsplit Hget (receiver_here _ _) eq_refl eq_refl eq_refl eq_refl
              eq_refl eq_refl ltac:(constructor) ltac:(intros val [])
              eq_refl eq_refl ltac:(constructor)
              ltac:(intros i p val Hp; destruct i; discriminate Hp)
              ltac:(intros p []))
    as (news & b0 & Hcall & Hself).
  exists news, b0. cbn zeta in *.
  split; [exact Hcall|]. split; [exact Hget|exact Hself].
Defined.
